(** * Import rewriter: replace-imports.py and replace-imports-deep.py

    A shallow embedding of the two scripts and of the library calls they
    rely on (Python's [str] methods, the [re] module restricted to the
    constructs of the two patterns, [pathlib] and [os.path]), followed by
    the properties of the rewriter. *)

From Stdlib Require Import String Ascii NArith.
From stdpp Require Import base option list gmap countable.

Local Open Scope nat_scope.

(** ** Python strings

    A [str] is a sequence of Unicode code points. *)

Definition char := N.
Definition str := list char.

(** [py "abc"] is the Python literal ['abc'] (ASCII literals only). *)
Definition py (s : string) : str := N_of_ascii <$> list_ascii_of_string s.

Definition dquote : char := 34%N.     (* double quote *)
Definition squote : char := 39%N.     (* single quote *)
Definition slash : char := 47%N.      (* forward slash *)
Definition backslash : char := 92%N.  (* backslash *)
Definition dot : char := 46%N.        (* full stop *)

Definition str_eqb (a b : str) : bool := bool_decide (a = b).

(** [s.startswith(p)] *)
Fixpoint startswith (p s : str) : bool :=
  match p, s with
  | [], _ => true
  | _ :: _, [] => false
  | a :: p', b :: s' => (a =? b)%N && startswith p' s'
  end.

(** [s.replace(old, new, 1)]: the first occurrence of [old], scanning from
    the left, is replaced; [s] is returned unchanged when there is none. *)
Fixpoint replace_first (old new s : str) : str :=
  if startswith old s then new ++ drop (length old) s
  else match s with
       | [] => []
       | c :: s' => c :: replace_first old new s'
       end.

(** [s.replace(a, b)] for single characters [a] and [b]. *)
Definition replace_char (a b : char) (s : str) : str :=
  (fun c => if (c =? a)%N then b else c) <$> s.

(** [s.lstrip(c)] for a single character [c]. *)
Fixpoint lstrip (c : char) (s : str) : str :=
  match s with
  | x :: s' => if (x =? c)%N then lstrip c s' else s
  | [] => []
  end.

(** [s.split(sep)] for a single-character separator: the result is never
    empty, and splitting the empty string gives one empty field, as in
    Python. *)
Fixpoint split (sep : char) (s : str) : list str :=
  match s with
  | [] => [[]]
  | c :: s' =>
      if (c =? sep)%N then [] :: split sep s'
      else match split sep s' with
           | w :: ws => (c :: w) :: ws
           | [] => [[c]]
           end
  end.

(** [sep.join(l)] *)
Fixpoint join (sep : str) (l : list str) : str :=
  match l with
  | [] => []
  | [w] => w
  | w :: ws => w ++ sep ++ join sep ws
  end.

(** [sub in s] *)
Fixpoint contains (sub s : str) : bool :=
  startswith sub s ||
  match s with
  | [] => false
  | _ :: s' => contains sub s'
  end.

(** ** The [re] module, for the constructs the two patterns use

    Character classes, literals, greedy repetition of a class, greedy
    option, alternation, concatenation and numbered groups. *)

Inductive charset : Type :=
  | CsSpace                  (* \s *)
  | CsOneOf (l : list char)  (* [...] *)
  | CsNoneOf (l : list char) (* [^...] *).

(** [\s] on [str] patterns: the code points for which [str.isspace] holds. *)
Definition is_space (c : char) : bool :=
  ((9 <=? c) && (c <=? 13) || (28 <=? c) && (c <=? 32) ||
   (c =? 133) || (c =? 160) || (c =? 5760) ||
   (8192 <=? c) && (c <=? 8202) || (c =? 8232) || (c =? 8233) ||
   (c =? 8239) || (c =? 8287) || (c =? 12288))%N.

Definition mem_char (c : char) (l : list char) : bool :=
  existsb (N.eqb c) l.

Definition in_class (cs : charset) (c : char) : bool :=
  match cs with
  | CsSpace => is_space c
  | CsOneOf l => mem_char c l
  | CsNoneOf l => negb (mem_char c l)
  end.

Inductive regex : Type :=
  | RLit (s : str)               (* literal text *)
  | RSet (cs : charset)          (* one character of a class *)
  | RStar (cs : charset)         (* X*, greedy, X a class *)
  | RCat (r1 r2 : regex)
  | RAlt (r1 r2 : regex)         (* r1|r2, r1 tried first *)
  | ROpt (r : regex)             (* r?, greedy *)
  | RGroup (i : nat) (r : regex) (* capturing group number i *).

(** X+ *)
Definition RPlus (cs : charset) : regex := RCat (RSet cs) (RStar cs).

(** Captured groups, most recent binding first; a group that did not take
    part in the match has no binding ([None] in Python). *)
Definition caps := list (nat * str).

Fixpoint group (g : caps) (i : nat) : option str :=
  match g with
  | [] => None
  | (j, w) :: g' => if (i =? j)%nat then Some w else group g' i
  end.

(** The text consumed between the suffix [s] and its suffix [s']. *)
Definition consumed (s s' : str) : str := take (length s - length s') s.

(** Backtracking matcher in continuation-passing style: [k] is given what
    remains of the subject and the groups captured so far, and the first
    success in the order Python's engine explores is returned. *)
Fixpoint rmatch {R} (r : regex) (s : str) (g : caps)
    (k : str -> caps -> option R) : option R :=
  match r with
  | RLit l => if startswith l s then k (drop (length l) s) g else None
  | RSet cs =>
      match s with
      | c :: s' => if in_class cs c then k s' g else None
      | [] => None
      end
  | RStar cs =>
      (fix star (s : str) : option R :=
         match s with
         | c :: s' =>
             if in_class cs c then
               match star s' with
               | Some x => Some x
               | None => k s g
               end
             else k s g
         | [] => k [] g
         end) s
  | RCat r1 r2 => rmatch r1 s g (fun s' g' => rmatch r2 s' g' k)
  | RAlt r1 r2 =>
      match rmatch r1 s g k with
      | Some x => Some x
      | None => rmatch r2 s g k
      end
  | ROpt r1 =>
      match rmatch r1 s g k with
      | Some x => Some x
      | None => k s g
      end
  | RGroup i r1 =>
      rmatch r1 s g (fun s' g' => k s' ((i, consumed s s') :: g'))
  end.

(** [pattern.match(s)] at the start of [s]: the length of the match and
    its groups. *)
Definition match_at (r : regex) (s : str) : option (nat * caps) :=
  rmatch r s [] (fun s' g => Some (length s - length s', g)).

(** A match object: [m.start()], [m.group(0)] and the numbered groups. *)
Record Match : Type := mkMatch {
  m_start : nat;
  m_text : str;
  m_caps : caps
}.

Definition m_end (m : Match) : nat := m_start m + length (m_text m).

(** [re.finditer(pattern, s)]: left to right, non-overlapping.  [skip]
    counts the characters still covered by the match just reported;
    [pos] is the index of the head of [s] in the subject.  After an empty
    match the scan moves on by one character. *)
Fixpoint finditer_from (r : regex) (s : str) (pos skip : nat) : list Match :=
  match skip with
  | S n =>
      match s with
      | [] => []
      | _ :: s' => finditer_from r s' (S pos) n
      end
  | 0 =>
      match match_at r s with
      | Some (n, g) =>
          mkMatch pos (take n s) g ::
          match s with
          | [] => []
          | _ :: s' => finditer_from r s' (S pos) (pred n)
          end
      | None =>
          match s with
          | [] => []
          | _ :: s' => finditer_from r s' (S pos) 0
          end
      end
  end.

Definition finditer (r : regex) (s : str) : list Match :=
  finditer_from r s 0 0.

(** [re.sub(pattern, repl, s)] where [repl] maps the groups of a match to
    its replacement text. *)
Fixpoint sub_from (r : regex) (repl : caps -> str) (s : str) (skip : nat)
    : str :=
  match skip with
  | S n =>
      match s with
      | [] => []
      | _ :: s' => sub_from r repl s' n
      end
  | 0 =>
      match match_at r s with
      | Some (n, g) =>
          repl g ++
          match s with
          | [] => []
          | c :: s' =>
              match n with
              | 0 => c :: sub_from r repl s' 0
              | S n' => sub_from r repl s' n'
              end
          end
      | None =>
          match s with
          | [] => []
          | c :: s' => c :: sub_from r repl s' 0
          end
      end
  end.

Definition re_sub (r : regex) (repl : caps -> str) (s : str) : str :=
  sub_from r repl s 0.

Definition quotes : charset := CsOneOf [squote; dquote].
Definition non_quotes : charset := CsNoneOf [squote; dquote].


(** [re.findall(pattern, s)] for a pattern with groups 1..n: one tuple of
    groups per match. *)
Definition findall (r : regex) (s : str) : list caps :=
  m_caps <$> finditer r s.

(** Group [i] as a replacement template expands it: the empty string when
    the group took no part in the match. *)
Definition expand (g : caps) (i : nat) : str := default [] (group g i).

(** ** Paths

    A [pathlib] path in parsed form: drive, root and the remaining
    components, as [PurePath] keeps them. *)

Record Path : Type := mkPath {
  drv : str;
  root : str;
  tail : list str
}.

#[global] Instance Path_eq_dec : EqDecision Path.
Proof. solve_decision. Defined.

#[global] Instance Path_countable : Countable Path.
Proof.
  refine (inj_countable' (fun p => (drv p, root p, tail p))
            (fun t => mkPath t.1.1 t.1.2 t.2) _).
  by intros [].
Defined.

(** [p.parent] *)
Definition parent (p : Path) : Path :=
  match tail p with
  | [] => p
  | _ => mkPath (drv p) (root p) (removelast (tail p))
  end.

(** [p.parts] *)
Definition parts (p : Path) : list str :=
  match drv p ++ root p with
  | [] => tail p
  | anchor => anchor :: tail p
  end.

(** [p.name] *)
Definition name (p : Path) : str := List.last (tail p) [].

(** [w in l] for a list or tuple of strings. *)
Definition str_in (w : str) (l : list str) : bool := existsb (str_eqb w) l.

(** The only exception the scripts single out is [ValueError]. *)
Inductive raises (A : Type) : Type :=
  | Returns (a : A)
  | RaisesValueError.
Arguments Returns {A} a.
Arguments RaisesValueError {A}.

(** What the scripts take from the platform's path flavour ([posixpath]
    or [ntpath] behind [pathlib] and [os.path]). *)
Class OsPath : Type := {
  (** [Path(s)] *)
  path_of : str -> Path;
  (** [p / s] *)
  joinpath : Path -> str -> Path;
  (** [os.path.relpath(p, start)] *)
  os_path_relpath : Path -> Path -> raises str
}.

(** *** The POSIX flavour *)

Module posixpath.

(** [posixpath.splitroot]: root and remainder; exactly two leading
    slashes are kept as a root of their own. *)
Definition splitroot (p : str) : str * str :=
  match p with
  | a :: p1 =>
      if (a =? slash)%N then
        match p1 with
        | b :: c :: p3 =>
            if (b =? slash)%N && negb (c =? slash)%N
            then ([slash; slash], c :: p3)
            else ([slash], p1)
        | [b] => if (b =? slash)%N then ([slash; slash], [])
                 else ([slash], p1)
        | [] => ([slash], p1)
        end
      else ([], p)
  | [] => ([], p)
  end.

Definition is_component (x : str) : bool :=
  negb (str_eqb x []) && negb (str_eqb x [dot]).

(** [PurePosixPath(s)] *)
Definition parse (s : str) : Path :=
  let '(rt, rel) := splitroot s in
  mkPath [] rt (List.filter is_component (split slash rel)).

(** [str(p)] *)
Definition to_str (p : Path) : str :=
  match drv p ++ root p with
  | [] => match tail p with
          | [] => [dot]
          | _ => join [slash] (tail p)
          end
  | anchor => anchor ++ join [slash] (tail p)
  end.

(** [a.endswith('/')] *)
Definition endswith_slash (a : str) : bool :=
  (List.last a 0 =? slash)%N.

(** [posixpath.join(a, b)] *)
Definition join2 (a b : str) : str :=
  if startswith [slash] b then b
  else if str_eqb a [] || endswith_slash a then a ++ b
  else a ++ [slash] ++ b.

Definition joinpath (p : Path) (s : str) : Path :=
  parse (join2 (to_str p) s).

Definition dotdot : str := [dot; dot].

(** The loop of [posixpath.normpath] over the components, [acc] being
    [new_comps] in reverse. *)
Fixpoint norm_comps (rooted : bool) (comps : list str) (acc : list str)
    : list str :=
  match comps with
  | [] => rev acc
  | comp :: rest =>
      if str_eqb comp [] || str_eqb comp [dot] then
        norm_comps rooted rest acc
      else if negb (str_eqb comp dotdot)
              || (negb rooted && bool_decide (acc = []))
              || match acc with
                 | top :: _ => str_eqb top dotdot
                 | [] => false
                 end
      then norm_comps rooted rest (comp :: acc)
      else norm_comps rooted rest (List.tl acc)
  end.

(** [posixpath.normpath] *)
Definition normpath (path : str) : str :=
  match path with
  | [] => [dot]
  | _ =>
      let initial_slashes :=
        if startswith [slash] path then
          if startswith [slash; slash] path
             && negb (startswith [slash; slash; slash] path)
          then 2 else 1
        else 0 in
      let comps := norm_comps (negb (initial_slashes =? 0)%nat)
                     (split slash path) [] in
      match replicate initial_slashes slash ++ join [slash] comps with
      | [] => [dot]
      | p => p
      end
  end.

(** [posixpath.abspath], [cwd] being [os.getcwd()] *)
Definition abspath (cwd path : str) : str :=
  normpath (if startswith [slash] path then path else join2 cwd path).

Fixpoint commonprefix (a b : list str) : list str :=
  match a, b with
  | x :: a', y :: b' => if str_eqb x y then x :: commonprefix a' b' else []
  | _, _ => []
  end.

Definition nonempty (x : str) : bool := negb (str_eqb x []).

(** [posixpath.relpath(path, start)] *)
Definition relpath (cwd path start : str) : raises str :=
  match path with
  | [] => RaisesValueError
  | _ =>
      let start_list := List.filter nonempty (split slash (abspath cwd start)) in
      let path_list := List.filter nonempty (split slash (abspath cwd path)) in
      let i := length (commonprefix start_list path_list) in
      let rel_list :=
        replicate (length start_list - i) dotdot ++ drop i path_list in
      match rel_list with
      | [] => Returns [dot]
      | _ => Returns (join [slash] rel_list)
      end
  end.

End posixpath.

(** The POSIX flavour, for a process whose working directory is [cwd]. *)
Definition posix (cwd : str) : OsPath := {|
  path_of := posixpath.parse;
  joinpath := posixpath.joinpath;
  os_path_relpath p start :=
    posixpath.relpath cwd (posixpath.to_str p) (posixpath.to_str start)
|}.


(** *** The Windows flavour, for drive-letter paths

    A model of [ntpath] on paths with an optional drive letter; UNC and
    device prefixes, per-drive working directories and the trimming the
    system applies to trailing dots and spaces are left out, and case is
    folded on ASCII letters only. *)

Module ntpath.

Definition colon : char := 58%N.

Definition lower_char (c : char) : char :=
  if ((65 <=? c) && (c <=? 90))%N then (c + 32)%N else c.

(** [ntpath.normcase] on a drive or a component *)
Definition normcase (x : str) : str := lower_char <$> x.

Definition splitdrive (p : str) : str * str :=
  match p with
  | a :: b :: rest => if (b =? colon)%N then ([a; b], rest) else ([], p)
  | _ => ([], p)
  end.

Definition is_component (x : str) : bool :=
  negb (str_eqb x []) && negb (str_eqb x [dot]).

(** [PureWindowsPath(s)] *)
Definition parse (s : str) : Path :=
  let '(d, rest) := splitdrive (replace_char slash backslash s) in
  mkPath d (if startswith [backslash] rest then [backslash] else [])
    (List.filter is_component (split backslash rest)).

(** [p / s], following [ntpath.join]: a rooted operand replaces the
    components and keeps the drive unless it brings its own; an operand
    on another drive replaces the path. *)
Definition joinpath (p : Path) (s : str) : Path :=
  let q := parse s in
  if negb (str_eqb (root q) []) then
    mkPath (if str_eqb (drv q) [] then drv p else drv q) (root q) (tail q)
  else if negb (str_eqb (drv q) [])
          && negb (str_eqb (normcase (drv q)) (normcase (drv p)))
  then q
  else mkPath (if str_eqb (drv q) [] then drv p else drv q)
         (root p) (tail p ++ tail q).

Definition dotdot : str := [dot; dot].

(** Resolution of [..] components below a root, [acc] in reverse. *)
Fixpoint norm_comps (comps acc : list str) : list str :=
  match comps with
  | [] => rev acc
  | comp :: rest =>
      if str_eqb comp dotdot then norm_comps rest (List.tl acc)
      else norm_comps rest (comp :: acc)
  end.

(** [ntpath.abspath] in parsed form: drive and components. *)
Definition abspath (cwd p : Path) : str * list str :=
  let d := if str_eqb (drv p) [] then drv cwd else drv p in
  let comps :=
    if negb (str_eqb (root p) []) then tail p
    else if str_eqb (normcase d) (normcase (drv cwd))
         then tail cwd ++ tail p
         else tail p in
  (d, norm_comps comps []).

Fixpoint common (a b : list str) : nat :=
  match a, b with
  | x :: a', y :: b' =>
      if str_eqb (normcase x) (normcase y) then S (common a' b') else 0
  | _, _ => 0
  end.

(** [ntpath.relpath(path, start)]: [ValueError] when the two paths are
    on different drives. *)
Definition relpath (cwd path start : Path) : raises str :=
  let '(start_drive, start_list) := abspath cwd start in
  let '(path_drive, path_list) := abspath cwd path in
  if negb (str_eqb (normcase start_drive) (normcase path_drive)) then
    RaisesValueError
  else
    let i := common start_list path_list in
    let rel_list :=
      replicate (length start_list - i) dotdot ++ drop i path_list in
    match rel_list with
    | [] => Returns [dot]
    | _ => Returns (join [backslash] rel_list)
    end.

End ntpath.

(** The Windows flavour, for a process whose working directory is [cwd]. *)
Definition windows (cwd : Path) : OsPath := {|
  path_of := ntpath.parse;
  joinpath := ntpath.joinpath;
  os_path_relpath := ntpath.relpath cwd
|}.

(** ** Files and the console *)

(** An entry of the file system.  The [data] of a file is the text that
    reading it yields, decoded and with the line ends as [read] gives
    them in text mode, or [None] when reading raises; [writable] tells
    whether opening the file for writing succeeds.  What a write does to
    the bytes on the disk beyond the text, such as the line ends of a file
    that had carriage returns, is not modelled. *)
Inductive node : Type :=
  | Dir
  | File (data : option str) (writable : bool).

Inductive mode : Type := ModeR | ModeW.

(** The lines the scripts print.  The text of an exception is not
    modelled: an error line carries the path it is about. *)
Inductive line : Type :=
  | Rule                                  (* eighty equals signs *)
  | Blank
  | Text (s : string)                     (* fixed text *)
  | WorkingDirectory (p : Path)
  | SourceDirectory (p : Path)
  | PackagesToReplace (l : list str)
  | SourceNotFound (p : Path)
  | PackageNotFound (p : Path)
  | ErrorReading (p : Path)
  | ErrorWriting (p : Path)
  | Replaced (rel_file : Path) (count : nat)
  | FilesProcessed (n : nat)
  | FilesModified (n : nat)
  | TotalReplacements (n : nat)
  | ErrorsEncountered (n : nat)
  | ErrorItem (e : str).

Inductive event : Type :=
  | Opened (p : Path) (m : mode)
  | Printed (l : line).

(** The state the scripts act on: the files, and the record of what was
    opened and printed, oldest first. *)
Record world : Type := mkWorld {
  fs : gmap Path node;
  trace : list event
}.

Definition io (A : Type) : Type := world -> A * world.

Definition ret {A} (a : A) : io A := fun w => (a, w).
Definition bind {A B} (c : io A) (f : A -> io B) : io B :=
  fun w => let '(a, w') := c w in f a w'.

Notation "x <- c ;; k" := (bind c (fun x => k))
  (at level 100, c at next level, right associativity).
Notation "c ;; k" := (bind c (fun _ => k))
  (at level 100, right associativity).

Definition emit (e : event) : io unit :=
  fun w => (tt, mkWorld (fs w) (trace w ++ [e])).

(** [print(...)]: the line is recorded.  Standard output is taken to
    accept every line; a [print] that raises, as it does when the
    encoding of standard output cannot represent a character of the line,
    is not modelled. *)
Definition print (l : line) : io unit := emit (Printed l).

(** [open(p, 'r', encoding='utf-8')] followed by [f.read()]: the text of
    the file, or [None] when either raises (missing, a directory,
    unreadable, not UTF-8).  The translation of line ends that text mode
    performs is part of what [data] stands for. *)
Definition read_text (p : Path) : io (option str) :=
  emit (Opened p ModeR) ;;
  fun w =>
    match fs w !! p with
    | Some (File (Some content) _) => (Some content, w)
    | _ => (None, w)
    end.

(** [open(p, 'w', encoding='utf-8')] followed by [f.write(content)]:
    [true] when the file now holds [content], [false] when opening
    raised, the file being left as it was.  A write that fails after
    [open] has emptied the file is not modelled. *)
Definition write_text (p : Path) (content : str) : io bool :=
  emit (Opened p ModeW) ;;
  fun w =>
    match fs w !! p with
    | Some (File _ true) =>
        (true, mkWorld (<[p := File (Some content) true]> (fs w)) (trace w))
    | _ => (false, w)
    end.

(** [p.exists()] and [p.is_file()] *)
Definition path_exists (p : Path) : io bool :=
  fun w => (bool_decide (is_Some (fs w !! p)), w).

Definition is_file (p : Path) : io bool :=
  fun w => (match fs w !! p with Some (File _ _) => true | _ => false end, w).

(** [fnmatch(name, '*.ts*')] as the POSIX flavour of [pathlib] does it,
    with regard to case.  The Windows flavour disregards case, which is
    not modelled. *)
Definition matches_ts (nm : str) : bool := contains (py ".ts") nm.

Fixpoint strict_prefix (a b : list str) : bool :=
  match a, b with
  | [], _ :: _ => true
  | x :: a', y :: b' => str_eqb x y && strict_prefix a' b'
  | _, _ => false
  end.

(** [p] lies below the directory [d]. *)
Definition below (d p : Path) : bool :=
  str_eqb (drv d) (drv p) && str_eqb (root d) (root p)
  && strict_prefix (tail d) (tail p).

(** [directory.rglob('*.ts*')]: every entry below [directory], at any
    depth, whose name matches, in the order the file system lists them. *)
Definition rglob (directory : Path) : io (list Path) :=
  fun w =>
    (List.filter (fun p => below directory p && matches_ts (name p))
       (fst <$> map_to_list (fs w)), w).

(** [p.relative_to(other)] *)
Fixpoint strip_prefix (a b : list str) : option (list str) :=
  match a, b with
  | [], _ => Some b
  | x :: a', y :: b' => if str_eqb x y then strip_prefix a' b' else None
  | _ :: _, [] => None
  end.

Definition relative_to (p other : Path) : raises Path :=
  if str_eqb (drv other) (drv p) && str_eqb (root other) (root p) then
    match strip_prefix (tail other) (tail p) with
    | Some rest => Returns (mkPath [] [] rest)
    | None => RaisesValueError
    end
  else RaisesValueError.

(** The [stats] dictionary of [process_directory]. *)
Record Stats : Type := mkStats {
  files_processed : nat;
  files_modified : nat;
  total_replacements : nat;
  errors : list str
}.


Definition run {A} (c : io A) (w : world) : A * world := c w.

Definition nonempty (x : str) : bool := negb (str_eqb x []).

(** Constants shared by the two scripts. *)
Section Configuration.
Context `{OsPath}.

Definition WEB_DIR : Path := path_of (py "/home/kennedy/ankaa/separating/web").
Definition SRC_DIR : Path := joinpath WEB_DIR (py "src").

Definition PACKAGES : list str :=
  [py "constants"; py "types"; py "utils"; py "schemas"; py "api-client";
   py "hooks"].

(** The test that skips dependency and version-control directories. *)
Definition excluded (file_path : Path) : bool :=
  str_in (py "node_modules") (parts file_path)
  || str_in (py ".git") (parts file_path).

(** The end of [main], shared by the two scripts: the summary. *)
Definition print_summary (stats : Stats) : io unit :=
  print Blank ;;
  print Rule ;;
  print (Text "SUMMARY") ;;
  print Rule ;;
  print (FilesProcessed (files_processed stats)) ;;
  print (FilesModified (files_modified stats)) ;;
  print (TotalReplacements (total_replacements stats)) ;;
  (match errors stats with
   | [] => ret tt
   | _ =>
       print (ErrorsEncountered (length (errors stats))) ;;
       foldr (fun error k => print (ErrorItem error) ;; k) (ret tt)
         (take 10 (errors stats))
   end) ;;
  print Rule ;;
  print (Text "Done!").
End Configuration.

(** ** replace-imports.py *)

Module ReplaceImports.
Section Script.
Context `{OsPath}.

Definition target_dir (target_package : str) : Path :=
  joinpath SRC_DIR target_package.

Definition get_relative_path (file_path : Path) (target_package : str)
    : str :=
  let file_dir := parent file_path in
  match os_path_relpath (target_dir target_package) file_dir with
  | Returns rel_path =>
      let rel_path := replace_char backslash slash rel_path in
      if negb (startswith (py "..") rel_path)
      then py "./" ++ rel_path
      else rel_path
  | RaisesValueError => target_package
  end.

(** The pattern built for [package]; [re.escape] makes the package name
    match literally. *)
Definition pattern (package : str) : regex :=
  RCat (RGroup 1 (RCat (RLit (py "from"))
                    (RCat (RPlus CsSpace) (RSet quotes))))
    (RCat (RLit (py "@ankaa/" ++ package))
       (RGroup 2 (RSet quotes))).

(** One turn of the loop over [PACKAGES], on the pair of [content] and
    [total_replacements]. *)
Definition rewrite_package (file_path : Path) (acc : str * nat)
    (package : str) : str * nat :=
  let '(content, total_replacements) := acc in
  let matches := findall (pattern package) content in
  match matches with
  | [] => acc
  | _ =>
      let rel_path := get_relative_path file_path package in
      (* the template: group 1, [rel_path] standing for itself, group 2 *)
      let replacement g := expand g 1 ++ rel_path ++ expand g 2 in
      let new_content := re_sub (pattern package) replacement content in
      let replacements := length matches in
      if 0 <? replacements
      then (new_content, total_replacements + replacements)
      else acc
  end.

Definition rewrite_content (file_path : Path) (content : str) : str * nat :=
  foldl (rewrite_package file_path) (content, 0) PACKAGES.

Definition replace_imports_in_file (file_path : Path) : io (bool * nat) :=
  r <- read_text file_path ;;
  match r with
  | None => print (ErrorReading file_path) ;; ret (false, 0)
  | Some original_content =>
      let '(content, total_replacements) :=
        rewrite_content file_path original_content in
      if negb (str_eqb content original_content) then
        ok <- write_text file_path content ;;
        if ok then ret (true, total_replacements)
        else print (ErrorWriting file_path) ;; ret (false, 0)
      else ret (false, 0)
  end.

(** The loop of [process_directory] over what [rglob] yields. *)
Fixpoint process_files (files : list Path) (stats : Stats)
    : io (raises Stats) :=
  match files with
  | [] => ret (Returns stats)
  | file_path :: rest =>
      if excluded file_path then process_files rest stats
      else
        isf <- is_file file_path ;;
        if negb isf then process_files rest stats
        else
          let stats := mkStats (files_processed stats + 1)
                         (files_modified stats) (total_replacements stats)
                         (errors stats) in
          r <- replace_imports_in_file file_path ;;
          let '(modified, count) := r in
          if modified then
            let stats := mkStats (files_processed stats)
                           (files_modified stats + 1)
                           (total_replacements stats + count)
                           (errors stats) in
            match relative_to file_path WEB_DIR with
            | Returns rel_file =>
                print (Replaced rel_file count) ;;
                process_files rest stats
            | RaisesValueError => ret RaisesValueError
            end
          else process_files rest stats
  end.

Definition process_directory (directory : Path) : io (raises Stats) :=
  files <- rglob directory ;;
  process_files files (mkStats 0 0 0 []).

Definition main : io (raises unit) :=
  print Rule ;;
  print (Text "Replacing @ankaa/* imports with local relative imports") ;;
  print Rule ;;
  print (WorkingDirectory WEB_DIR) ;;
  print (SourceDirectory SRC_DIR) ;;
  print (PackagesToReplace PACKAGES) ;;
  print Rule ;;
  print Blank ;;
  e <- path_exists SRC_DIR ;;
  if negb e then print (SourceNotFound SRC_DIR) ;; ret (Returns tt)
  else
    foldr (fun package k =>
             let pkg_dir := joinpath SRC_DIR package in
             e <- path_exists pkg_dir ;;
             (if negb e then print (PackageNotFound pkg_dir) else ret tt) ;;
             k) (ret tt) PACKAGES ;;
    print (Text "Processing files...") ;;
    print Blank ;;
    r <- process_directory SRC_DIR ;;
    match r with
    | RaisesValueError => ret RaisesValueError
    | Returns stats => print_summary stats ;; ret (Returns tt)
    end.
End Script.
End ReplaceImports.

(** ** replace-imports-deep.py *)

Module ReplaceImportsDeep.
Section Script.
Context `{OsPath}.

Definition target_dir (target_package sub_path : str) : Path :=
  if nonempty sub_path
  then joinpath (joinpath SRC_DIR target_package) sub_path
  else joinpath SRC_DIR target_package.

Definition get_relative_path (file_path : Path) (target_package : str)
    (sub_path : str) : str :=
  let file_dir := parent file_path in
  match os_path_relpath (target_dir target_package sub_path) file_dir with
  | Returns rel_path =>
      let rel_path := replace_char backslash slash rel_path in
      if negb (startswith (py "..") rel_path)
      then py "./" ++ rel_path
      else rel_path
  | RaisesValueError =>
      if nonempty sub_path
      then target_package ++ py "/" ++ sub_path
      else target_package
  end.

Definition pattern (package : str) : regex :=
  RCat (RGroup 1 (RAlt
                    (RCat (RLit (py "from"))
                       (RCat (RPlus CsSpace) (RSet quotes)))
                    (RCat (RLit (py "import"))
                       (RCat (RStar CsSpace)
                          (RCat (RLit (py "("))
                             (RCat (RStar CsSpace) (RSet quotes)))))))
    (RCat (RLit (py "@ankaa/" ++ package))
       (RCat (ROpt (RGroup 2 (RCat (RLit (py "/")) (RPlus non_quotes))))
          (RGroup 3 (RSet quotes)))).

(** The text that replaces a match. *)
Definition new_text (file_path : Path) (package : str) (m : Match) : str :=
  let prefix := expand (m_caps m) 1 in
  let sub_path :=
    match group (m_caps m) 2 with
    | Some sp => if nonempty sp then lstrip slash sp else []
    | None => []
    end in
  let suffix := expand (m_caps m) 3 in
  let rel_path :=
    if nonempty sub_path
    then get_relative_path file_path package sub_path
    else get_relative_path file_path package [] in
  prefix ++ rel_path ++ suffix.

(** One turn of the inner loop over the matches of a package. *)
Definition rewrite_match (file_path : Path) (package : str)
    (acc : str * nat) (m : Match) : str * nat :=
  let '(content, total_replacements) := acc in
  let old_text := m_text m in
  (replace_first old_text (new_text file_path package m) content,
   total_replacements + 1).

(** One turn of the loop over [PACKAGES]. *)
Definition rewrite_package (file_path : Path) (acc : str * nat)
    (package : str) : str * nat :=
  let matches := finditer (pattern package) acc.1 in
  match matches with
  | [] => acc
  | _ => foldl (rewrite_match file_path package) acc matches
  end.

Definition rewrite_content (file_path : Path) (content : str) : str * nat :=
  foldl (rewrite_package file_path) (content, 0) PACKAGES.

Definition replace_deep_imports_in_file (file_path : Path)
    : io (bool * nat) :=
  r <- read_text file_path ;;
  match r with
  | None => print (ErrorReading file_path) ;; ret (false, 0)
  | Some original_content =>
      let '(content, total_replacements) :=
        rewrite_content file_path original_content in
      if negb (str_eqb content original_content) then
        ok <- write_text file_path content ;;
        if ok then ret (true, total_replacements)
        else print (ErrorWriting file_path) ;; ret (false, 0)
      else ret (false, 0)
  end.

Fixpoint process_files (files : list Path) (stats : Stats)
    : io (raises Stats) :=
  match files with
  | [] => ret (Returns stats)
  | file_path :: rest =>
      if excluded file_path then process_files rest stats
      else
        isf <- is_file file_path ;;
        if negb isf then process_files rest stats
        else
          let stats := mkStats (files_processed stats + 1)
                         (files_modified stats) (total_replacements stats)
                         (errors stats) in
          r <- replace_deep_imports_in_file file_path ;;
          let '(modified, count) := r in
          if modified then
            let stats := mkStats (files_processed stats)
                           (files_modified stats + 1)
                           (total_replacements stats + count)
                           (errors stats) in
            match relative_to file_path WEB_DIR with
            | Returns rel_file =>
                print (Replaced rel_file count) ;;
                process_files rest stats
            | RaisesValueError => ret RaisesValueError
            end
          else process_files rest stats
  end.

Definition process_directory (directory : Path) : io (raises Stats) :=
  files <- rglob directory ;;
  process_files files (mkStats 0 0 0 []).

Definition main : io (raises unit) :=
  print Rule ;;
  print (Text "Replacing deep @ankaa/* imports with local relative imports") ;;
  print Rule ;;
  print (WorkingDirectory WEB_DIR) ;;
  print (SourceDirectory SRC_DIR) ;;
  print (PackagesToReplace PACKAGES) ;;
  print Rule ;;
  print Blank ;;
  e <- path_exists SRC_DIR ;;
  if negb e then print (SourceNotFound SRC_DIR) ;; ret (Returns tt)
  else
    print (Text "Processing files...") ;;
    print Blank ;;
    r <- process_directory SRC_DIR ;;
    match r with
    | RaisesValueError => ret RaisesValueError
    | Returns stats => print_summary stats ;; ret (Returns tt)
    end.
End Script.
End ReplaceImportsDeep.


(** * Properties *)

(** ** The relative path calculator *)

(** The fallback of [get_relative_path]: the bare package, with the
    sub-path when there is one. *)
Definition fallback (target_package sub_path : str) : str :=
  if nonempty sub_path then target_package ++ py "/" ++ sub_path
  else target_package.

(** What the test of [get_relative_path] ensures of its result: it
    begins with two full stops or with [./], and holds no backslash.  The
    two full stops need not be a parent-directory marker: a name such as
    [..foo] passes. *)
Definition dotted (s : str) : Prop :=
  (startswith (py "..") s = true \/ startswith (py "./") s = true)
  /\ backslash ∉ s.

(** An explicit relative import, as a module resolver reads it: the
    specifier is [..], or begins with [../] or with [./]; and it holds no
    backslash. *)
Definition explicit_relative (s : str) : Prop :=
  (s = py ".." \/ startswith (py "../") s = true
   \/ startswith (py "./") s = true)
  /\ backslash ∉ s.

Lemma replace_char_notin a b (s : str) : a <> b -> a ∉ replace_char a b s.
Proof.
  intros Hab Hin. unfold replace_char in Hin.
  apply list_elem_of_fmap in Hin as (c & Hc & _).
  destruct (N.eqb_spec c a); congruence.
Qed.

Lemma dotted_dotslash (s : str) :
  backslash ∉ s -> dotted (py "./" ++ s).
Proof.
  intros Hs. split; [by right|].
  intros Hin. apply elem_of_app in Hin as [Hin|Hin]; [|done].
  vm_compute in Hin. repeat (apply elem_of_cons in Hin as [Hin|Hin]; [done|]).
  by apply elem_of_nil in Hin.
Qed.

Section Calculator.
Context `{OsPath}.

Lemma simple_is_deep file_path target_package :
  ReplaceImports.get_relative_path file_path target_package
  = ReplaceImportsDeep.get_relative_path file_path target_package [].
Proof. reflexivity. Qed.

(** When [relpath] returns, the result begins with two full stops or
    with [./] and holds no backslash; when it raises, the result is the
    fallback. *)
Lemma get_relative_path_cases file_path target_package sub_path :
  match os_path_relpath
          (ReplaceImportsDeep.target_dir target_package sub_path)
          (parent file_path) with
  | Returns _ =>
      dotted
        (ReplaceImportsDeep.get_relative_path file_path target_package
           sub_path)
  | RaisesValueError =>
      ReplaceImportsDeep.get_relative_path file_path target_package sub_path
      = fallback target_package sub_path
  end.
Proof.
  unfold ReplaceImportsDeep.get_relative_path.
  destruct (os_path_relpath _ _) as [rel|]; [|done].
  assert (Hb : backslash ∉ replace_char backslash slash rel)
    by (by apply replace_char_notin).
  destruct (startswith (py "..") _) eqn:Hs; simpl.
  - split; [by left|done].
  - by apply dotted_dotslash.
Qed.
End Calculator.

(** Under the POSIX flavour [relpath] raises on the empty path only, and
    no path that [pathlib] has parsed prints as the empty string. *)
Lemma posix_relpath_returns cwd path start :
  path <> [] -> exists rel, posixpath.relpath cwd path start = Returns rel.
Proof.
  intros Hp. unfold posixpath.relpath. destruct path; [done|].
  match goal with |- context [match ?l with [] => _ | _ => _ end] =>
    destruct l end; eauto.
Qed.

Lemma join_cons_nonempty sep (x : str) (l : list str) :
  x <> [] -> join sep (x :: l) <> [].
Proof. intros Hx. destruct l; simpl; [done|]. by destruct x. Qed.

Lemma posix_to_str_parse s : posixpath.to_str (posixpath.parse s) <> [].
Proof.
  unfold posixpath.parse.
  destruct (posixpath.splitroot s) as [rt rel] eqn:Hsr.
  unfold posixpath.to_str; simpl.
  destruct rt as [|c rt]; [|done].
  destruct (List.filter _ _) as [|x l] eqn:Hf; [done|].
  apply join_cons_nonempty.
  assert (Hin : In x (List.filter posixpath.is_component (split slash rel)))
    by (rewrite Hf; by left).
  apply filter_In in Hin as [_ Hc].
  unfold posixpath.is_component in Hc. intros ->. done.
Qed.

Lemma posix_target_dir_returns cwd target_package sub_path start :
  exists rel,
    @os_path_relpath (posix cwd)
      (@ReplaceImportsDeep.target_dir (posix cwd) target_package sub_path)
      start = Returns rel.
Proof.
  apply posix_relpath_returns.
  unfold ReplaceImportsDeep.target_dir.
  destruct (nonempty sub_path); apply posix_to_str_parse.
Qed.

(** C8: when [relpath] raises [ValueError], [get_relative_path] returns
    the fallback: the package with the sub-path when one is given (deep
    script), the package alone otherwise (both scripts). *)
Theorem get_relative_path_fallback `{OsPath} file_path target_package sub_path :
  os_path_relpath (ReplaceImportsDeep.target_dir target_package sub_path)
    (parent file_path) = RaisesValueError ->
  ReplaceImportsDeep.get_relative_path file_path target_package sub_path
  = (if nonempty sub_path then target_package ++ py "/" ++ sub_path
     else target_package)
  /\ (sub_path = [] ->
      ReplaceImports.get_relative_path file_path target_package
      = target_package).
Proof.
  intros Hr. split.
  - unfold ReplaceImportsDeep.get_relative_path. by rewrite Hr.
  - intros ->. unfold ReplaceImports.get_relative_path.
    change (ReplaceImports.target_dir target_package)
      with (ReplaceImportsDeep.target_dir target_package []).
    by rewrite Hr.
Qed.

(** A file on drive D: seen from a process working on drive C:. *)
Definition other_drive_file : Path := ntpath.parse (py "D:/proj/a.ts").
Definition cwd_on_c : Path := ntpath.parse (py "C:/work").

Lemma get_relative_path_fallback_witness :
  @ReplaceImportsDeep.get_relative_path (windows cwd_on_c) other_drive_file
     (py "types") (py "user") = py "types/user"
  /\ @ReplaceImports.get_relative_path (windows cwd_on_c) other_drive_file
       (py "types") = py "types".
Proof.
  split.
  - apply (@get_relative_path_fallback (windows cwd_on_c) other_drive_file
             (py "types") (py "user")).
    vm_compute. reflexivity.
  - apply (@get_relative_path_fallback (windows cwd_on_c) other_drive_file
             (py "types") []); [vm_compute|]; reflexivity.
Defined.

(** Where [relpath] raises, the result is a bare module name. *)
Lemma dotted_counterexample :
  ~ (forall (flavour : OsPath) file_path target_package sub_path,
       target_package ∈ @PACKAGES ->
       dotted
         (@ReplaceImportsDeep.get_relative_path flavour file_path
            target_package sub_path)).
Proof.
  intros Hall.
  destruct (Hall (windows cwd_on_c) other_drive_file (py "types") (py "user"))
    as [[Hs|Hs] _].
  - vm_compute. set_solver.
  - vm_compute in Hs. discriminate.
  - vm_compute in Hs. discriminate.
Qed.

Lemma posix_dotted cwd file_path target_package sub_path :
  dotted
    (@ReplaceImportsDeep.get_relative_path (posix cwd) file_path
       target_package sub_path).
Proof.
  pose proof (@get_relative_path_cases (posix cwd) file_path
                target_package sub_path) as Hc.
  destruct (posix_target_dir_returns cwd target_package sub_path
              (parent file_path)) as [rel Hr].
  by rewrite Hr in Hc.
Qed.

(** Whenever [relpath] returns, as it always does under the POSIX
    flavour, the result of [get_relative_path] holds no backslash and
    begins with two full stops or with [./]; when [relpath] raises, the
    result is the bare package, with the sub-path if any. *)
Lemma get_relative_path_begins_dotted :
  (forall (flavour : OsPath) file_path target_package sub_path,
     match os_path_relpath
             (ReplaceImportsDeep.target_dir target_package sub_path)
             (parent file_path) with
     | Returns _ =>
         dotted
           (ReplaceImportsDeep.get_relative_path file_path target_package
              sub_path)
         /\ (sub_path = [] ->
             dotted
               (ReplaceImports.get_relative_path file_path target_package))
     | RaisesValueError =>
         ReplaceImportsDeep.get_relative_path file_path target_package
           sub_path = fallback target_package sub_path
     end)
  /\ (forall cwd file_path target_package sub_path,
        dotted
          (@ReplaceImportsDeep.get_relative_path (posix cwd) file_path
             target_package sub_path)
        /\ dotted
             (@ReplaceImports.get_relative_path (posix cwd) file_path
                target_package)).
Proof.
  split.
  - intros flavour file_path target_package sub_path.
    pose proof (get_relative_path_cases file_path target_package sub_path)
      as Hc.
    destruct (os_path_relpath _ _) as [rel|] eqn:Hr; [|done].
    split; [done|]. intros ->. rewrite simple_is_deep.
    pose proof (get_relative_path_cases file_path target_package []) as Hc'.
    by rewrite Hr in Hc'.
  - intros cwd file_path target_package sub_path.
    split; [|rewrite simple_is_deep]; apply posix_dotted.
Qed.

(** ** One file: what the rewriter returns and what it does to the world *)

Definition file_in (w : world) (p : Path) : bool :=
  match fs w !! p with
  | Some (File _ _) => true
  | _ => false
  end.

(** The outcome of either rewriter on [file_path], given the function
    [rewrite] that the loop over the packages computes on the content. *)
Definition outcome (rewrite : str -> str * nat) (file_path : Path) (w : world)
    : (bool * nat) * world :=
  match fs w !! file_path with
  | Some (File (Some content) writable) =>
      if negb (str_eqb (rewrite content).1 content) then
        if writable then
          ((true, (rewrite content).2),
           mkWorld (<[file_path := File (Some (rewrite content).1) true]> (fs w))
             (trace w ++ [Opened file_path ModeR; Opened file_path ModeW]))
        else
          ((false, 0),
           mkWorld (fs w)
             (trace w ++ [Opened file_path ModeR; Opened file_path ModeW;
                          Printed (ErrorWriting file_path)]))
      else ((false, 0), mkWorld (fs w) (trace w ++ [Opened file_path ModeR]))
  | _ =>
      ((false, 0),
       mkWorld (fs w)
         (trace w ++ [Opened file_path ModeR; Printed (ErrorReading file_path)]))
  end.

Ltac unfold_io :=
  unfold run, read_text, write_text, print, is_file, path_exists, rglob;
  unfold emit, bind, ret; simpl.

(** Both rewriters have the same shape around [rewrite_content]. *)
Ltac solve_outcome rewrite_content :=
  match goal with w : world, file_path : Path |- _ =>
    destruct w as [m t]; unfold_io; unfold outcome; simpl;
    destruct (m !! file_path) as [[|[c|] wr]|] eqn:Hm; simpl;
    rewrite <- ?app_assoc; try done;
    destruct (rewrite_content file_path c) as [c' n]; simpl;
    destruct (negb (str_eqb c' c)); simpl; [|done];
    rewrite Hm; destruct wr; simpl; rewrite <- ?app_assoc; done
  end.

Section Rewriter.
Context `{OsPath}.

Lemma replace_imports_in_file_outcome file_path w :
  run (ReplaceImports.replace_imports_in_file file_path) w
  = outcome (ReplaceImports.rewrite_content file_path) file_path w.
Proof.
  unfold ReplaceImports.replace_imports_in_file.
  solve_outcome ReplaceImports.rewrite_content.
Qed.

Lemma replace_deep_imports_in_file_outcome file_path w :
  run (ReplaceImportsDeep.replace_deep_imports_in_file file_path) w
  = outcome (ReplaceImportsDeep.rewrite_content file_path) file_path w.
Proof.
  unfold ReplaceImportsDeep.replace_deep_imports_in_file.
  solve_outcome ReplaceImportsDeep.rewrite_content.
Qed.
End Rewriter.

(** What any outcome leaves alone. *)
Lemma outcome_frame rewrite file_path w r w' :
  outcome rewrite file_path w = (r, w') ->
  (forall q, q <> file_path -> fs w' !! q = fs w !! q)
  /\ (forall q, file_in w' q = file_in w q)
  /\ exists es, trace w' = trace w ++ es
       /\ forall e, e ∈ es ->
            e = Opened file_path ModeR \/ e = Opened file_path ModeW
            \/ exists l, e = Printed l.
Proof.
  unfold outcome. intros Ho.
  destruct (fs w !! file_path) as [[|[c|] wr]|] eqn:Hm.
  all: try destruct (negb _).
  all: try destruct wr.
  all: simplify_eq; simpl.
  all: (split; [|split]).
  all: try done.
  all: try (eexists; split; [reflexivity|];
         intros e He;
         repeat (apply elem_of_cons in He as [->|He]; [by eauto|]);
         by apply elem_of_nil in He).
  - intros q Hq. by rewrite lookup_insert_ne.
  - intros q. unfold file_in; simpl.
    destruct (decide (file_path = q)) as [->|Hne].
    + by rewrite lookup_insert_eq, Hm.
    + by rewrite lookup_insert_ne.
Qed.

(** ** The loop over the packages *)

(** [re.sub] leaves a subject without a match as it is. *)
Lemma sub_from_no_match r repl (s : str) pos :
  finditer_from r s pos 0 = [] -> sub_from r repl s 0 = s.
Proof.
  revert pos. induction s as [|c s IH]; intros pos; simpl.
  - destruct (match_at r []) as [[n g]|]; [done|done].
  - destruct (match_at r (c :: s)) as [[n g]|]; [done|].
    intros Hf. f_equal. by eapply IH.
Qed.

Lemma re_sub_no_match r repl (s : str) :
  finditer r s = [] -> re_sub r repl s = s.
Proof. apply sub_from_no_match. Qed.

(** What one turn of the loop does to the content, for each script. *)
Definition simple_step `{OsPath} (file_path : Path) (package content : str)
    : str :=
  re_sub (ReplaceImports.pattern package)
    (fun g => expand g 1
              ++ ReplaceImports.get_relative_path file_path package
              ++ expand g 2)
    content.

Definition deep_step `{OsPath} (file_path : Path) (package content : str)
    : str :=
  foldl (fun c m =>
           replace_first (m_text m)
             (ReplaceImportsDeep.new_text file_path package m) c)
    content (finditer (ReplaceImportsDeep.pattern package) content).

(** The packages taken in turn: each is searched in the content as the
    turns before it left it.  The result is the final content and the
    number of matches found at each turn. *)
Fixpoint turns (pattern : str -> regex) (step : str -> str -> str)
    (packages : list str) (content : str) : str * list nat :=
  match packages with
  | [] => (content, [])
  | package :: rest =>
      let n := length (finditer (pattern package) content) in
      let r := turns pattern step rest (step package content) in
      (r.1, n :: r.2)
  end.

Section Turns.
Context `{OsPath}.

Lemma simple_rewrite_package file_path content total package :
  ReplaceImports.rewrite_package file_path (content, total) package
  = (simple_step file_path package content,
     total + length (finditer (ReplaceImports.pattern package) content)).
Proof.
  unfold ReplaceImports.rewrite_package, simple_step, findall.
  destruct (finditer _ content) as [|m ms] eqn:Hf; simpl.
  - rewrite re_sub_no_match by done. by rewrite Nat.add_0_r.
  - by rewrite length_fmap.
Qed.

Lemma deep_rewrite_matches file_path package ms content total :
  foldl (ReplaceImportsDeep.rewrite_match file_path package)
    (content, total) ms
  = (foldl (fun c m =>
              replace_first (m_text m)
                (ReplaceImportsDeep.new_text file_path package m) c)
       content ms,
     total + length ms).
Proof.
  revert content total. induction ms as [|m ms IH]; intros; simpl.
  - by rewrite Nat.add_0_r.
  - rewrite IH. f_equal. lia.
Qed.

Lemma deep_rewrite_package file_path content total package :
  ReplaceImportsDeep.rewrite_package file_path (content, total) package
  = (deep_step file_path package content,
     total + length (finditer (ReplaceImportsDeep.pattern package) content)).
Proof.
  unfold ReplaceImportsDeep.rewrite_package, deep_step. simpl.
  destruct (finditer _ content) as [|m ms] eqn:Hf.
  - simpl. by rewrite Nat.add_0_r.
  - apply deep_rewrite_matches.
Qed.

Lemma simple_rewrite_turns file_path packages content total :
  foldl (ReplaceImports.rewrite_package file_path) (content, total) packages
  = let r := turns ReplaceImports.pattern (simple_step file_path)
               packages content in
    (r.1, total + sum_list r.2).
Proof.
  revert content total.
  induction packages as [|package rest IH]; intros; cbn [foldl turns].
  - simpl. by rewrite Nat.add_0_r.
  - rewrite simple_rewrite_package, IH. simpl. f_equal. lia.
Qed.

Lemma deep_rewrite_turns file_path packages content total :
  foldl (ReplaceImportsDeep.rewrite_package file_path) (content, total)
    packages
  = let r := turns ReplaceImportsDeep.pattern (deep_step file_path)
               packages content in
    (r.1, total + sum_list r.2).
Proof.
  revert content total.
  induction packages as [|package rest IH]; intros; cbn [foldl turns].
  - simpl. by rewrite Nat.add_0_r.
  - rewrite deep_rewrite_package, IH. simpl. f_equal. lia.
Qed.

(** Without a match at any turn nothing changes. *)
Lemma turns_no_match pattern step packages content :
  (forall package, finditer (pattern package) content = [] ->
                   step package content = content) ->
  Forall (fun package => finditer (pattern package) content = []) packages ->
  turns pattern step packages content
  = (content, replicate (length packages) 0).
Proof.
  intros Hstep Hall. induction Hall as [|package rest Hp _ IH]; simpl.
  - done.
  - rewrite Hstep, IH, Hp by done. done.
Qed.

Lemma sum_replicate_0 n : sum_list (replicate n 0) = 0.
Proof. induction n; simpl; lia. Qed.

(** A turn that finds nothing leaves the content as it is, so a
    content that changed was matched at least once. *)
Lemma turns_changed pattern step packages content :
  (forall package c, finditer (pattern package) c = [] ->
                     step package c = c) ->
  (turns pattern step packages content).1 <> content ->
  0 < sum_list (turns pattern step packages content).2.
Proof.
  intros Hstep. revert content.
  induction packages as [|package rest IH]; intros content; simpl.
  - done.
  - intros Hne.
    destruct (finditer (pattern package) content) as [|m ms] eqn:Hf;
      simpl; [|lia].
    rewrite Hstep in * by done. by apply IH.
Qed.

Lemma simple_step_no_match file_path package c :
  finditer (ReplaceImports.pattern package) c = [] ->
  simple_step file_path package c = c.
Proof. apply re_sub_no_match. Qed.

Lemma deep_step_no_match file_path package c :
  finditer (ReplaceImportsDeep.pattern package) c = [] ->
  deep_step file_path package c = c.
Proof. unfold deep_step. by intros ->. Qed.

Lemma simple_rewrite_content_turns file_path content :
  ReplaceImports.rewrite_content file_path content
  = let r := turns ReplaceImports.pattern (simple_step file_path)
               PACKAGES content in
    (r.1, sum_list r.2).
Proof. apply simple_rewrite_turns. Qed.

Lemma deep_rewrite_content_turns file_path content :
  ReplaceImportsDeep.rewrite_content file_path content
  = let r := turns ReplaceImportsDeep.pattern (deep_step file_path)
               PACKAGES content in
    (r.1, sum_list r.2).
Proof. apply deep_rewrite_turns. Qed.

Lemma simple_unreferenced file_path content :
  Forall (fun package =>
            finditer (ReplaceImports.pattern package) content = [])
    PACKAGES ->
  ReplaceImports.rewrite_content file_path content = (content, 0).
Proof.
  intros Hall. rewrite simple_rewrite_content_turns.
  rewrite turns_no_match; [done| |done].
  intros. by apply simple_step_no_match.
Qed.

Lemma deep_unreferenced file_path content :
  Forall (fun package =>
            finditer (ReplaceImportsDeep.pattern package) content = [])
    PACKAGES ->
  ReplaceImportsDeep.rewrite_content file_path content = (content, 0).
Proof.
  intros Hall. rewrite deep_rewrite_content_turns.
  rewrite turns_no_match; [done| |done].
  intros. by apply deep_step_no_match.
Qed.

Lemma simple_changed_count file_path content :
  (ReplaceImports.rewrite_content file_path content).1 <> content ->
  0 < (ReplaceImports.rewrite_content file_path content).2.
Proof.
  rewrite simple_rewrite_content_turns. cbv zeta. cbn [fst snd].
  apply turns_changed. intros. by apply simple_step_no_match.
Qed.

Lemma deep_changed_count file_path content :
  (ReplaceImportsDeep.rewrite_content file_path content).1 <> content ->
  0 < (ReplaceImportsDeep.rewrite_content file_path content).2.
Proof.
  rewrite deep_rewrite_content_turns. cbv zeta. cbn [fst snd].
  apply turns_changed. intros. by apply deep_step_no_match.
Qed.
End Turns.

(** ** The directory walker *)

(** The loop of [process_directory], with the rewriter it calls left
    open: the loops of the two scripts are this one. *)
Section Walk.
Context `{OsPath}.
Variable rewriter : Path -> io (bool * nat).

Fixpoint walk (files : list Path) (stats : Stats) : io (raises Stats) :=
  match files with
  | [] => ret (Returns stats)
  | file_path :: rest =>
      if excluded file_path then walk rest stats
      else
        isf <- is_file file_path ;;
        if negb isf then walk rest stats
        else
          let stats := mkStats (files_processed stats + 1)
                         (files_modified stats) (total_replacements stats)
                         (errors stats) in
          r <- rewriter file_path ;;
          let '(modified, count) := r in
          if modified then
            let stats := mkStats (files_processed stats)
                           (files_modified stats + 1)
                           (total_replacements stats + count)
                           (errors stats) in
            match relative_to file_path WEB_DIR with
            | Returns rel_file =>
                print (Replaced rel_file count) ;;
                walk rest stats
            | RaisesValueError => ret RaisesValueError
            end
          else walk rest stats
  end.
End Walk.

(** The files the walker hands to the rewriter: those that are not under
    an excluded directory and are regular files. *)
Definition candidates (w : world) (files : list Path) : list Path :=
  List.filter (fun q => negb (excluded q) && file_in w q) files.

Section Walker.
Context `{OsPath}.

Lemma simple_process_files :
  ReplaceImports.process_files = walk ReplaceImports.replace_imports_in_file.
Proof. reflexivity. Qed.

Lemma deep_process_files :
  ReplaceImportsDeep.process_files
  = walk ReplaceImportsDeep.replace_deep_imports_in_file.
Proof. reflexivity. Qed.

Variable rewriter : Path -> io (bool * nat).
Variable rewrite : Path -> str -> str * nat.
Hypothesis rewriter_outcome :
  forall file_path w,
    run (rewriter file_path) w = outcome (rewrite file_path) file_path w.

(** Files under an excluded directory are neither opened nor changed, the
    kind of every entry stays, the error list is never added to, and the
    files counted are the candidates. *)
Lemma walk_frame files : forall stats w r w' p,
  run (walk rewriter files stats) w = (r, w') ->
  excluded p = true ->
  fs w' !! p = fs w !! p
  /\ (forall q, file_in w' q = file_in w q)
  /\ (exists es, trace w' = trace w ++ es
        /\ forall m, Opened p m ∉ es)
  /\ forall stats', r = Returns stats' ->
       files_processed stats'
       = files_processed stats + length (candidates w files)
       /\ errors stats' = errors stats.
Proof.
  induction files as [|f rest IH]; intros stats w r w' p Hrun Hp.
  - unfold run in Hrun; simpl in Hrun. unfold ret in Hrun. simplify_eq.
    split; [done|]. split; [done|]. split.
    + exists []. rewrite app_nil_r. split; [done|]. intros m Hm.
      by apply elem_of_nil in Hm.
    + intros stats' [= <-]. simpl. split; [lia|done].
  - unfold run in Hrun. cbn [walk] in Hrun. unfold candidates. cbn [List.filter].
    destruct (excluded f) eqn:Hf; cbn [negb andb].
    { by eapply IH. }
    unfold bind at 1 in Hrun. unfold is_file at 1 in Hrun.
    fold (file_in w f) in Hrun.
    destruct (file_in w f) eqn:Hfile; cbn [negb] in Hrun.
    2:{ by eapply IH. }
    unfold bind at 1 in Hrun.
    pose proof (rewriter_outcome f w) as Ho. unfold run in Ho.
    destruct (rewriter f w) as [[modified count] w1] eqn:Hrw.
    symmetry in Ho. apply outcome_frame in Ho as (Hfs & Hkind & es1 & Htr & Hes).
    assert (Hpf : p <> f) by (intros ->; congruence).
    assert (Hno : forall m, Opened p m ∉ es1).
    { intros m Hm. destruct (Hes _ Hm) as [He|[He|[l He]]]; congruence. }
    assert (Hcand : length (candidates w1 rest) = length (candidates w rest)).
    { unfold candidates. f_equal. apply filter_ext_in_iff.
      intros q _. by rewrite Hkind. }
    destruct modified.
    + destruct (relative_to f WEB_DIR) as [rel_file|].
      * unfold bind at 1, print, emit in Hrun.
        apply (IH _ _ _ _ p) in Hrun as (Hfs' & Hkind' & (es2 & Htr' & Hes2) & Hcount);
          [|done].
        simpl in *.
        split; [by rewrite Hfs', Hfs|].
        split; [intros q; by rewrite Hkind'; unfold file_in; simpl;
                  fold (file_in w1 q)|].
        split.
        { exists (es1 ++ [Printed (Replaced rel_file count)] ++ es2).
          split; [rewrite Htr', Htr; by rewrite <- !app_assoc|].
          intros m Hm. apply elem_of_app in Hm as [Hm|Hm]; [by eapply Hno|].
          apply elem_of_app in Hm as [Hm|Hm]; [|by eapply Hes2].
          apply elem_of_cons in Hm as [Hm|Hm]; [done|].
          by apply elem_of_nil in Hm. }
        intros stats' ->. destruct (Hcount _ eq_refl) as [Hc He].
        split; [|done]. rewrite Hc.
        change (candidates {| fs := fs w1; trace := trace w1 ++ [Printed (Replaced rel_file count)] |} rest) with (candidates w1 rest).
        rewrite Hcand. unfold candidates. simpl. lia.
      * unfold ret in Hrun. simplify_eq.
        split; [by apply Hfs|]. split; [done|]. split; [eauto|done].
    + apply (IH _ _ _ _ p) in Hrun as (Hfs' & Hkind' & (es2 & Htr' & Hes2) & Hcount);
        [|done].
      split; [by rewrite Hfs', Hfs|].
      split; [intros q; by rewrite Hkind'|].
      split.
      { exists (es1 ++ es2).
        split; [rewrite Htr', Htr; by rewrite <- !app_assoc|].
        intros m Hm. apply elem_of_app in Hm as [Hm|Hm];
          [by eapply Hno|by eapply Hes2]. }
      intros stats' ->. destruct (Hcount _ eq_refl) as [Hc He].
      split; [|done]. rewrite Hc, Hcand. unfold candidates. simpl. lia.
Qed.
End Walker.

(** ** Scenarios *)

(** The POSIX flavour of a process started in the root directory. *)
Definition unix : OsPath := posix (py "/").

(** A file below the source root, under the POSIX flavour. *)
Definition src_file (rel : string) : Path :=
  @joinpath unix (@SRC_DIR unix) (py rel).

(** A world that holds the given entries and has printed nothing yet. *)
Definition world_of (entries : list (Path * node)) : world :=
  mkWorld (list_to_map entries) [].

(** The events that [w'] has recorded after [w]. *)
Definition events_since (w w' : world) : list event :=
  drop (length (trace w)) (trace w').

Definition button : Path := src_file "components/widgets/Button.ts".

(** [import { x } from "@ankaa/types/user"], in double quotes. *)
Definition button_content : str :=
  py "import { x } from " ++ [dquote] ++ py "@ankaa/types/user" ++ [dquote].

Definition button_rewritten : str :=
  py "import { x } from " ++ [dquote] ++ py "../../types/user" ++ [dquote].


(** ** The claims about one file *)

(** Finds an element in an explicit list. *)
Ltac elem_found :=
  apply list_elem_of_In; simpl; repeat ((left; reflexivity) || right).

(** Closes a goal from a membership in an explicit list that cannot hold. *)
Ltac elem_absurd H :=
  repeat (apply elem_of_cons in H as [H|H]; [done|]);
  by apply elem_of_nil in H.

Lemma str_in_elem_of (x : str) (l : list str) : str_in x l = true <-> x ∈ l.
Proof.
  unfold str_in, str_eqb. rewrite existsb_exists. split.
  - intros (y & Hy & Heq). apply bool_decide_eq_true in Heq as ->.
    by apply list_elem_of_In.
  - intros Hin. exists x. split; [by apply list_elem_of_In|].
    by apply bool_decide_eq_true.
Qed.

Lemma str_eqb_neq (a b : str) : negb (str_eqb a b) = true <-> a <> b.
Proof.
  unfold str_eqb. rewrite negb_true_iff, bool_decide_eq_false. done.
Qed.

(** C10: when the content changed but the file cannot be written, the
    rewriter returns [(False, 0)]: the count accumulated for the file,
    which is positive, is dropped, and the file is left as it was. *)
Theorem failed_write_reports_nothing `{OsPath} file_path content w :
  fs w !! file_path = Some (File (Some content) false) ->
  ((ReplaceImports.rewrite_content file_path content).1 <> content ->
   (run (ReplaceImports.replace_imports_in_file file_path) w).1 = (false, 0)
   /\ 0 < (ReplaceImports.rewrite_content file_path content).2
   /\ fs (run (ReplaceImports.replace_imports_in_file file_path) w).2 = fs w)
  /\ ((ReplaceImportsDeep.rewrite_content file_path content).1 <> content ->
      (run (ReplaceImportsDeep.replace_deep_imports_in_file file_path) w).1
      = (false, 0)
      /\ 0 < (ReplaceImportsDeep.rewrite_content file_path content).2
      /\ fs (run (ReplaceImportsDeep.replace_deep_imports_in_file file_path)
               w).2 = fs w).
Proof.
  intros Hm. split; intros Hne.
  - rewrite replace_imports_in_file_outcome. unfold outcome. rewrite Hm.
    apply str_eqb_neq in Hne as Hb. rewrite Hb. simpl.
    split; [done|]. split; [by apply simple_changed_count|done].
  - rewrite replace_deep_imports_in_file_outcome. unfold outcome. rewrite Hm.
    apply str_eqb_neq in Hne as Hb. rewrite Hb. simpl.
    split; [done|]. split; [by apply deep_changed_count|done].
Qed.

(** A package-level import, which both scripts rewrite. *)
Definition package_import : str := py "import { t } from '@ankaa/types';".

Definition read_only_world : world :=
  world_of [(button, File (Some package_import) false)].

Lemma failed_write_reports_nothing_witness :
  (run (@ReplaceImports.replace_imports_in_file unix button)
     read_only_world).1 = (false, 0)
  /\ (run (@ReplaceImportsDeep.replace_deep_imports_in_file unix button)
        read_only_world).1 = (false, 0).
Proof.
  pose proof (@failed_write_reports_nothing unix button package_import
                read_only_world) as [Hs Hd].
  { vm_compute. reflexivity. }
  split.
  - apply Hs. vm_compute. discriminate.
  - apply Hd. vm_compute. discriminate.
Defined.

(** C5: a file whose content holds no reference to a configured package
    is reported as not modified with zero replacements, is opened for
    reading only and keeps its content; and whenever a file is opened for
    writing, or the files change at all, the rewritten content differs
    from the original. *)
Theorem unchanged_content_never_written `{OsPath} file_path w :
  (forall content writable,
     fs w !! file_path = Some (File (Some content) writable) ->
     (Forall (fun package =>
                finditer (ReplaceImports.pattern package) content = [])
        PACKAGES ->
      run (ReplaceImports.replace_imports_in_file file_path) w
      = ((false, 0), mkWorld (fs w) (trace w ++ [Opened file_path ModeR])))
     /\ (Forall (fun package =>
                   finditer (ReplaceImportsDeep.pattern package) content = [])
           PACKAGES ->
         run (ReplaceImportsDeep.replace_deep_imports_in_file file_path) w
         = ((false, 0),
            mkWorld (fs w) (trace w ++ [Opened file_path ModeR]))))
  /\ (forall w',
        w' = (run (ReplaceImports.replace_imports_in_file file_path) w).2 ->
        fs w' <> fs w \/ Opened file_path ModeW ∈ events_since w w' ->
        exists content writable,
          fs w !! file_path = Some (File (Some content) writable)
          /\ (ReplaceImports.rewrite_content file_path content).1 <> content)
  /\ (forall w',
        w' = (run (ReplaceImportsDeep.replace_deep_imports_in_file file_path)
                w).2 ->
        fs w' <> fs w \/ Opened file_path ModeW ∈ events_since w w' ->
        exists content writable,
          fs w !! file_path = Some (File (Some content) writable)
          /\ (ReplaceImportsDeep.rewrite_content file_path content).1
             <> content).
Proof.
  assert (Hgen : forall rewrite w',
            w' = (outcome rewrite file_path w).2 ->
            fs w' <> fs w \/ Opened file_path ModeW ∈ events_since w w' ->
            exists content writable,
              fs w !! file_path = Some (File (Some content) writable)
              /\ (rewrite content).1 <> content).
  { intros rewrite w' -> Hch. unfold outcome, events_since in Hch.
    assert (Hnot : forall es : list event,
               Opened file_path ModeW ∈ drop (length (trace w)) (trace w ++ es)
               -> Opened file_path ModeW ∈ es).
    { intros es. by rewrite drop_app_length. }
    destruct (fs w !! file_path) as [[|[c|] wr]|] eqn:Hm; simpl in Hch.
    - destruct Hch as [|Hin]; [done|]. apply Hnot in Hin. elem_absurd Hin.
    - destruct (negb (str_eqb (rewrite c).1 c)) eqn:Hb.
      + apply str_eqb_neq in Hb. eauto.
      + simpl in Hch. destruct Hch as [|Hin]; [done|].
        apply Hnot in Hin. elem_absurd Hin.
    - destruct Hch as [|Hin]; [done|]. apply Hnot in Hin. elem_absurd Hin.
    - destruct Hch as [|Hin]; [done|]. apply Hnot in Hin. elem_absurd Hin. }
  split; [|split].
  - intros content writable Hm. split; intros Hall.
    + rewrite replace_imports_in_file_outcome. unfold outcome. rewrite Hm.
      rewrite simple_unreferenced by done. simpl.
      unfold str_eqb. by rewrite bool_decide_eq_true_2.
    + rewrite replace_deep_imports_in_file_outcome. unfold outcome.
      rewrite Hm. rewrite deep_unreferenced by done. simpl.
      unfold str_eqb. by rewrite bool_decide_eq_true_2.
  - intros w'. rewrite replace_imports_in_file_outcome. apply Hgen.
  - intros w'. rewrite replace_deep_imports_in_file_outcome. apply Hgen.
Qed.

Definition plain_content : str := py "export const answer = 42;".

Definition plain_world : world :=
  world_of [(button, File (Some plain_content) true)].

Lemma unchanged_content_never_written_witness :
  run (@ReplaceImports.replace_imports_in_file unix button) plain_world
  = ((false, 0),
     mkWorld (fs plain_world) (trace plain_world ++ [Opened button ModeR]))
  /\ run (@ReplaceImportsDeep.replace_deep_imports_in_file unix button)
       plain_world
     = ((false, 0),
        mkWorld (fs plain_world) (trace plain_world ++ [Opened button ModeR])).
Proof.
  pose proof (@unchanged_content_never_written unix button plain_world)
    as [Hun _].
  destruct (Hun plain_content true) as [Hs Hd].
  { vm_compute. reflexivity. }
  split.
  - apply Hs. vm_compute. repeat constructor.
  - apply Hd. vm_compute. repeat constructor.
Defined.



Definition two_imports : str :=
  py "import { a } from '@ankaa/types'; import { b } from '@ankaa/utils';".


(** ** The claims about the walk *)

Lemma excluded_parts (p : Path) :
  excluded p = true
  <-> py "node_modules" ∈ parts p \/ py ".git" ∈ parts p.
Proof.
  unfold excluded. rewrite orb_true_iff, !str_in_elem_of. done.
Qed.

Section Directory.
Context `{OsPath}.

Lemma simple_process_directory directory w :
  run (ReplaceImports.process_directory directory) w
  = run (walk ReplaceImports.replace_imports_in_file
           (run (rglob directory) w).1 (mkStats 0 0 0 [])) w.
Proof. reflexivity. Qed.

Lemma deep_process_directory directory w :
  run (ReplaceImportsDeep.process_directory directory) w
  = run (walk ReplaceImportsDeep.replace_deep_imports_in_file
           (run (rglob directory) w).1 (mkStats 0 0 0 [])) w.
Proof. reflexivity. Qed.

Lemma excluded_not_candidate w files p :
  excluded p = true -> p ∉ candidates w files.
Proof.
  intros Hp Hin. unfold candidates in Hin.
  apply list_elem_of_In, filter_In in Hin as [_ Hc].
  rewrite Hp in Hc. done.
Qed.
End Directory.

(** What a walk guarantees about the path [p]. *)
Definition left_alone (p : Path) (files : list Path) (w : world)
    (result : raises Stats * world) : Prop :=
  fs result.2 !! p = fs w !! p
  /\ (forall m, Opened p m ∉ events_since w result.2)
  /\ forall stats, result.1 = Returns stats ->
       files_processed stats = length (candidates w files)
       /\ p ∉ candidates w files.

Lemma walk_left_alone `{OsPath} rewriter rewrite files w p :
  (forall file_path w,
     run (rewriter file_path) w = outcome (rewrite file_path) file_path w) ->
  excluded p = true ->
  left_alone p files w (run (walk rewriter files (mkStats 0 0 0 [])) w).
Proof.
  intros Hout Hp.
  destruct (run (walk rewriter files (mkStats 0 0 0 [])) w) as [r w'] eqn:Hrun.
  destruct (walk_frame rewriter rewrite Hout files _ _ _ _ p Hrun Hp)
    as (Hfs & _ & (es & Htr & Hes) & Hcount).
  unfold left_alone, events_since; simpl.
  split; [done|]. split.
  - intros m. rewrite Htr, drop_app_length. apply Hes.
  - intros stats ->. destruct (Hcount _ eq_refl) as [Hc _].
    split; [done|]. by apply excluded_not_candidate.
Qed.

(** C9: a file whose path has a [node_modules] or [.git] segment is never
    opened, keeps its content and is not among the files counted as
    processed, whatever its name. *)
Theorem excluded_files_left_alone `{OsPath} directory w p :
  py "node_modules" ∈ parts p \/ py ".git" ∈ parts p ->
  left_alone p (run (rglob directory) w).1 w
    (run (ReplaceImports.process_directory directory) w)
  /\ left_alone p (run (rglob directory) w).1 w
       (run (ReplaceImportsDeep.process_directory directory) w).
Proof.
  intros Hp. apply excluded_parts in Hp. split.
  - rewrite simple_process_directory.
    eapply walk_left_alone; [|done].
    apply replace_imports_in_file_outcome.
  - rewrite deep_process_directory.
    eapply walk_left_alone; [|done].
    apply replace_deep_imports_in_file_outcome.
Qed.

Definition vendored : Path := src_file "node_modules/lib/index.ts".

Definition vendored_world : world :=
  world_of [(vendored, File (Some package_import) true);
            (button, File (Some package_import) true)].

Lemma excluded_files_left_alone_witness :
  left_alone vendored
    (run (@rglob (@SRC_DIR unix)) vendored_world).1 vendored_world
    (run (@ReplaceImports.process_directory unix (@SRC_DIR unix))
       vendored_world)
  /\ left_alone vendored
       (run (@rglob (@SRC_DIR unix)) vendored_world).1 vendored_world
       (run (@ReplaceImportsDeep.process_directory unix (@SRC_DIR unix))
          vendored_world).
Proof.
  apply (@excluded_files_left_alone unix (@SRC_DIR unix) vendored_world
           vendored).
  left. apply str_in_elem_of. vm_compute. reflexivity.
Defined.

(** The error list of the statistics is never added to. *)
Lemma process_directory_errors_empty `{OsPath} directory w :
  (forall stats,
     (run (ReplaceImports.process_directory directory) w).1 = Returns stats ->
     errors stats = [])
  /\ (forall stats,
        (run (ReplaceImportsDeep.process_directory directory) w).1
        = Returns stats ->
        errors stats = []).
Proof.
  pose (p := mkPath [] [] [py ".git"]).
  assert (Hp : excluded p = true) by (by vm_compute).
  split; intros stats Hr.
  - rewrite simple_process_directory in Hr.
    destruct (run (walk _ _ _) w) as [r w'] eqn:Hrun.
    destruct (walk_frame _ _ replace_imports_in_file_outcome _ _ _ _ _ p
                Hrun Hp) as (_ & _ & _ & Hc).
    by destruct (Hc _ Hr).
  - rewrite deep_process_directory in Hr.
    destruct (run (walk _ _ _) w) as [r w'] eqn:Hrun.
    destruct (walk_frame _ _ replace_deep_imports_in_file_outcome _ _ _ _ _ p
                Hrun Hp) as (_ & _ & _ & Hc).
    by destruct (Hc _ Hr).
Qed.

(** A source tree with one file that cannot be read and one that holds a
    package-level import. *)
Definition broken : Path := src_file "broken.ts".

Definition broken_world : world :=
  world_of [(@SRC_DIR unix, Dir);
            (broken, File None true);
            (button, File (Some package_import) true)].

(** C7, on a run where reading a file fails: the error is printed, the
    file is counted as processed and skipped, the other file is still
    rewritten, but the error list stays empty and the summary lists no
    error. *)
Theorem read_error_not_recorded :
  let result := run (@ReplaceImports.main unix) broken_world in
  result.1 = Returns tt
  /\ Printed (ErrorReading broken) ∈ trace result.2
  /\ Printed (FilesProcessed 2) ∈ trace result.2
  /\ Printed (FilesModified 1) ∈ trace result.2
  /\ Printed (TotalReplacements 1) ∈ trace result.2
  /\ (forall n, Printed (ErrorsEncountered n) ∉ trace result.2)
  /\ (forall e, Printed (ErrorItem e) ∉ trace result.2)
  /\ exists stats,
       (run (@ReplaceImports.process_directory unix (@SRC_DIR unix))
          broken_world).1 = Returns stats
       /\ errors stats = [].
Proof.
  vm_compute.
  split; [reflexivity|].
  repeat (split; [elem_found|]).
  split; [intros n Hin; elem_absurd Hin|].
  split; [intros e Hin; elem_absurd Hin|].
  eexists. split; reflexivity.
Qed.

(** ** The scenario of the spec: Button.ts, two directories down *)

(** C1: for [src/components/widgets/Button.ts], the deep import of
    [types] with sub-path [user] is rewritten to [../../types/user]: two
    parent-directory markers for a directory two levels below the source
    root, then the package and the sub-path, with forward slashes. *)
Theorem button_import_rewritten cwd :
  let flavour := posix cwd in
  let file := joinpath SRC_DIR (py "components/widgets/Button.ts") in
  tail (parent file) = tail SRC_DIR ++ [py "components"; py "widgets"]
  /\ ReplaceImportsDeep.get_relative_path file (py "types") (py "user")
     = py "../../types/user"
  /\ split slash
       (ReplaceImportsDeep.get_relative_path file (py "types") (py "user"))
     = replicate 2 posixpath.dotdot ++ [py "types"; py "user"]
  /\ (backslash ∉
        ReplaceImportsDeep.get_relative_path file (py "types") (py "user"))
  /\ ReplaceImportsDeep.rewrite_content file button_content
     = (button_rewritten, 1)
  /\ (let result :=
        run (ReplaceImportsDeep.replace_deep_imports_in_file file)
          (world_of [(file, File (Some button_content) true)]) in
      result.1 = (true, 1)
      /\ fs result.2 !! file = Some (File (Some button_rewritten) true)
      /\ trace result.2 = [Opened file ModeR; Opened file ModeW]).
Proof.
  vm_compute.
  repeat (split; [reflexivity|]).
  split; [intros Hin; elem_absurd Hin|].
  repeat split; reflexivity.
Qed.

(** ** What a match looks like *)

(** [matches r w g g']: the text [w] is in the language of [r], and
    matching it takes the captured groups from [g] to [g']. *)
Inductive matches : regex -> str -> caps -> caps -> Prop :=
  | MLit l g : matches (RLit l) l g g
  | MSet cs c g : in_class cs c = true -> matches (RSet cs) [c] g g
  | MStar cs w g :
      Forall (fun c => in_class cs c = true) w -> matches (RStar cs) w g g
  | MCat r1 r2 w1 w2 g g1 g2 :
      matches r1 w1 g g1 -> matches r2 w2 g1 g2 ->
      matches (RCat r1 r2) (w1 ++ w2) g g2
  | MAltL r1 r2 w g g' : matches r1 w g g' -> matches (RAlt r1 r2) w g g'
  | MAltR r1 r2 w g g' : matches r2 w g g' -> matches (RAlt r1 r2) w g g'
  | MOptSome r w g g' : matches r w g g' -> matches (ROpt r) w g g'
  | MOptNone r g : matches (ROpt r) [] g g
  | MGroup i r w g g' :
      matches r w g g' -> matches (RGroup i r) w g ((i, w) :: g').

Lemma startswith_spec (p s : str) :
  startswith p s = true <-> exists s', s = p ++ s'.
Proof.
  revert s. induction p as [|a p IH]; intros s; simpl.
  - split; eauto.
  - destruct s as [|b s]; simpl.
    + split; [done|]. by intros [s' ?].
    + rewrite andb_true_iff, N.eqb_eq, IH. split.
      * intros [-> [s' ->]]. eauto.
      * intros [s' [= -> ->]]. eauto.
Qed.

Lemma startswith_app (p s : str) : startswith p (p ++ s) = true.
Proof. apply startswith_spec. eauto. Qed.

Lemma consumed_app (w s : str) : consumed (w ++ s) s = w.
Proof.
  unfold consumed. rewrite length_app.
  replace (length w + length s - length s) with (length w) by lia.
  by rewrite take_app_length.
Qed.

(** Whatever the matcher returns, it returns after matching a prefix of
    the subject that is in the language of the pattern. *)
Lemma rmatch_sound {R} (r : regex) : forall (s : str) g k (x : R),
  rmatch r s g k = Some x ->
  exists w s' g', s = w ++ s' /\ matches r w g g' /\ k s' g' = Some x.
Proof.
  induction r as [l|cs|cs|r1 IH1 r2 IH2|r1 IH1 r2 IH2|r1 IH1|i r1 IH1];
    intros s g k x Hm; simpl in Hm.
  - destruct (startswith l s) eqn:Hs; [|done].
    apply startswith_spec in Hs as [s' ->].
    rewrite drop_app_length in Hm. exists l, s', g. eauto using matches.
  - destruct s as [|c s]; [done|].
    destruct (in_class cs c) eqn:Hc; [|done].
    exists [c], s, g. eauto using matches.
  - revert Hm. induction s as [|c s IHs]; intros Hm.
    + exists [], [], g. eauto using matches.
    + destruct (in_class cs c) eqn:Hc.
      * match type of Hm with
        | match ?t with _ => _ end = _ => destruct t as [y|] eqn:Hstar
        end.
        -- injection Hm as ->.
           destruct (IHs eq_refl) as (w & s' & g' & -> & Hw & Hk).
           exists (c :: w), s', g'. split; [done|]. split; [|done].
           inversion Hw; subst. constructor. by constructor.
        -- exists [], (c :: s), g. eauto using matches.
      * exists [], (c :: s), g. eauto using matches.
  - apply IH1 in Hm as (w1 & s1 & g1 & -> & Hw1 & Hm).
    apply IH2 in Hm as (w2 & s2 & g2 & -> & Hw2 & Hk).
    exists (w1 ++ w2), s2, g2. rewrite <- app_assoc. eauto using matches.
  - destruct (rmatch r1 s g k) as [y|] eqn:H1.
    + simplify_eq. apply IH1 in H1 as (w & s' & g' & -> & Hw & Hk).
      exists w, s', g'. eauto using matches.
    + apply IH2 in Hm as (w & s' & g' & -> & Hw & Hk).
      exists w, s', g'. eauto using matches.
  - destruct (rmatch r1 s g k) as [y|] eqn:H1.
    + simplify_eq. apply IH1 in H1 as (w & s' & g' & -> & Hw & Hk).
      exists w, s', g'. eauto using matches.
    + exists [], s, g. eauto using matches.
  - apply IH1 in Hm as (w & s' & g' & -> & Hw & Hk).
    rewrite consumed_app in Hk. exists w, s', ((i, w) :: g').
    eauto using matches.
Qed.

Lemma match_at_sound r (s : str) n g :
  match_at r s = Some (n, g) ->
  exists w s', s = w ++ s' /\ matches r w [] g /\ n = length w.
Proof.
  unfold match_at. intros Hm.
  apply rmatch_sound in Hm as (w & s' & g' & -> & Hw & [= <- <-]).
  exists w, s'. split; [done|]. split; [done|].
  rewrite length_app. lia.
Qed.

Definition is_quote (c : char) : bool := in_class quotes c.
Definition quote_free (s : str) : Prop := Forall (fun c => is_quote c = false) s.
Definition whitespace (s : str) : Prop := Forall (fun c => is_space c = true) s.

(** The text that introduces a reference, up to the opening quote. *)
Inductive import_prefix : str -> Prop :=
  | PrefixFrom W :
      W <> [] -> whitespace W -> import_prefix (py "from" ++ W)
  | PrefixImport W1 W2 :
      whitespace W1 -> whitespace W2 ->
      import_prefix (py "import" ++ W1 ++ py "(" ++ W2).

(** The optional sub-path of a reference: a slash and at least one more
    character, none of them a quote. *)
Definition sub_part (S : str) : Prop :=
  S = [] \/ exists S', S = slash :: S' /\ S' <> [] /\ quote_free S'.

Ltac inv_matches :=
  repeat match goal with
         | H : matches (RCat _ _) _ _ _ |- _ => inversion H; subst; clear H
         | H : matches (RGroup _ _) _ _ _ |- _ => inversion H; subst; clear H
         | H : matches (RLit _) _ _ _ |- _ => inversion H; subst; clear H
         | H : matches (RSet _) _ _ _ |- _ => inversion H; subst; clear H
         | H : matches (RStar _) _ _ _ |- _ => inversion H; subst; clear H
         | H : matches (RPlus _) _ _ _ |- _ => inversion H; subst; clear H
         | H : matches (RAlt _ _) _ _ _ |- _ => inversion H; subst; clear H
         | H : matches (ROpt _) _ _ _ |- _ => inversion H; subst; clear H
         end.

Lemma non_quotes_quote_free (w : str) :
  Forall (fun c => in_class non_quotes c = true) w -> quote_free w.
Proof.
  apply Forall_impl. intros c Hc. unfold is_quote. simpl in *.
  by apply negb_true_iff in Hc.
Qed.

(** Reads the parts of a match off the goal that inversion leaves. *)
Ltac deep_shape_parts :=
  lazymatch goal with
  | |- context [((py "from" ++ ([?a] ++ ?w) ++ [?q])
                 ++ (py "@ankaa/" ++ ?pk)
                 ++ (py "/" ++ [?b] ++ ?v) ++ [?q']) ++ ?rest] =>
      exists (py "from" ++ a :: w), q, (slash :: b :: v), q', rest;
      split; [by apply (PrefixFrom (a :: w)); [|constructor]|];
      do 2 (split; [done|]);
      split; [right; exists (b :: v); split; [done|split; [done|]];
              apply non_quotes_quote_free; by constructor|]
  | |- context [((py "from" ++ ([?a] ++ ?w) ++ [?q])
                 ++ (py "@ankaa/" ++ ?pk) ++ [] ++ [?q']) ++ ?rest] =>
      exists (py "from" ++ a :: w), q, [], q', rest;
      split; [by apply (PrefixFrom (a :: w)); [|constructor]|];
      do 2 (split; [done|]);
      split; [by left|]
  | |- context [((py "import" ++ ?w1 ++ py "(" ++ ?w2 ++ [?q])
                 ++ (py "@ankaa/" ++ ?pk)
                 ++ (py "/" ++ [?b] ++ ?v) ++ [?q']) ++ ?rest] =>
      exists (py "import" ++ w1 ++ py "(" ++ w2), q, (slash :: b :: v),
        q', rest;
      split; [by apply PrefixImport|];
      do 2 (split; [done|]);
      split; [right; exists (b :: v); split; [done|split; [done|]];
              apply non_quotes_quote_free; by constructor|]
  | |- context [((py "import" ++ ?w1 ++ py "(" ++ ?w2 ++ [?q])
                 ++ (py "@ankaa/" ++ ?pk) ++ [] ++ [?q']) ++ ?rest] =>
      exists (py "import" ++ w1 ++ py "(" ++ w2), q, [], q', rest;
      split; [by apply PrefixImport|];
      do 2 (split; [done|]);
      split; [by left|]
  end.

Opaque py.

(** The shape of a match of the deep pattern. *)
Lemma deep_match_shape `{OsPath} package (s : str) n g :
  match_at (ReplaceImportsDeep.pattern package) s = Some (n, g) ->
  exists P q1 S q2 rest,
    import_prefix P /\ is_quote q1 = true /\ is_quote q2 = true
    /\ sub_part S
    /\ s = P ++ q1 :: py "@ankaa/" ++ package ++ S ++ q2 :: rest
    /\ n = length (P ++ q1 :: py "@ankaa/" ++ package ++ S ++ [q2])
    /\ group g 1 = Some (P ++ [q1])
    /\ group g 2 = (if S is [] then None else Some S)
    /\ group g 3 = Some [q2].
Proof.
  intros Hm. apply match_at_sound in Hm as (w & rest & -> & Hw & ->).
  unfold ReplaceImportsDeep.pattern in Hw. inv_matches.
  Transparent py.
  all: deep_shape_parts.
  all: split; [by rewrite <- !app_assoc|].
  all: split; [by rewrite <- !app_assoc|].
  all: split; [simpl; by rewrite <- ?app_assoc|done].
Qed.

Opaque py.

(** The shape of a match of the pattern of replace-imports.py. *)
Lemma simple_match_shape `{OsPath} package (s : str) n g :
  match_at (ReplaceImports.pattern package) s = Some (n, g) ->
  exists W q1 q2 rest,
    W <> [] /\ whitespace W /\ is_quote q1 = true /\ is_quote q2 = true
    /\ s = py "from" ++ W ++ q1 :: py "@ankaa/" ++ package ++ q2 :: rest
    /\ n = length (py "from" ++ W ++ q1 :: py "@ankaa/" ++ package ++ [q2])
    /\ group g 1 = Some (py "from" ++ W ++ [q1])
    /\ group g 2 = Some [q2].
Proof.
  intros Hm. apply match_at_sound in Hm as (w & rest & -> & Hw & ->).
  unfold ReplaceImports.pattern in Hw. inv_matches.
  Transparent py.
  lazymatch goal with
  | |- context [(py "from" ++ ([?a] ++ ?w) ++ [?q])
                ++ (py "@ankaa/" ++ package) ++ [?q']] =>
      exists (a :: w), q, q', rest
  end.
  split; [done|]. split; [by constructor|].
  do 2 (split; [done|]).
  split; [by rewrite <- !app_assoc|].
  split; [by rewrite <- !app_assoc|].
  done.
Qed.

(** ** What [finditer] reports *)

Lemma match_at_length r (s : str) n g :
  match_at r s = Some (n, g) -> n <= length s.
Proof.
  intros Hm. apply match_at_sound in Hm as (w & s' & -> & _ & ->).
  rewrite length_app. lia.
Qed.

(** Every match reported is a match of the pattern at its start. *)
Lemma finditer_from_sound r (s : str) : forall pos skip m,
  m ∈ finditer_from r s pos skip ->
  exists i n,
    i <= length s
    /\ match_at r (drop i s) = Some (n, m_caps m)
    /\ m_text m = take n (drop i s)
    /\ m_start m = pos + i.
Proof.
  induction s as [|c s IH]; intros pos skip m Hin.
  - destruct skip; simpl in Hin; [|by apply elem_of_nil in Hin].
    destruct (match_at r []) as [[n g]|] eqn:Hm;
      [|by apply elem_of_nil in Hin].
    apply elem_of_cons in Hin as [->|Hin]; [|by apply elem_of_nil in Hin].
    exists 0, n. simpl. split; [done|]. split; [done|]. split; [done|lia].
  - assert (Hrec : forall pos' skip',
               m ∈ finditer_from r s pos' skip' ->
               pos' = S pos ->
               exists i n,
                 i <= length (c :: s)
                 /\ match_at r (drop i (c :: s)) = Some (n, m_caps m)
                 /\ m_text m = take n (drop i (c :: s))
                 /\ m_start m = pos + i).
    { intros pos' skip' Hin' ->.
      apply IH in Hin' as (i & n & Hi & Hm & Ht & Hs).
      exists (S i), n. simpl. split; [lia|]. split; [done|].
      split; [done|lia]. }
    destruct skip; simpl in Hin; [|by eapply Hrec].
    destruct (match_at r (c :: s)) as [[n g]|] eqn:Hm; [|by eapply Hrec].
    apply elem_of_cons in Hin as [->|Hin]; [|by eapply Hrec].
    exists 0, n. simpl. split; [lia|]. split; [done|]. split; [done|lia].
Qed.

Lemma finditer_sound r (s : str) m :
  m ∈ finditer r s ->
  exists n,
    m_start m <= length s
    /\ match_at r (drop (m_start m) s) = Some (n, m_caps m)
    /\ m_text m = take n (drop (m_start m) s).
Proof.
  intros Hin. apply finditer_from_sound in Hin as (i & n & Hi & Hm & Ht & Hs).
  simpl in Hs. subst i. eauto.
Qed.

(** Where the pattern matches at no position, nothing is reported. *)
Lemma finditer_none r (s : str) :
  (forall i, match_at r (drop i s) = None) -> finditer r s = [].
Proof.
  intros Hnone. destruct (finditer r s) as [|m ms] eqn:Hf; [done|].
  assert (Hin : m ∈ finditer r s) by (rewrite Hf; by left).
  apply finditer_sound in Hin as (n & _ & Hm & _).
  by rewrite Hnone in Hm.
Qed.

(** The characters skipped after a match are not searched. *)
Lemma finditer_from_skip r : forall skip (s : str) pos,
  skip <= length s ->
  finditer_from r s pos skip = finditer_from r (drop skip s) (pos + skip) 0.
Proof.
  induction skip as [|skip IH]; intros s pos Hlen.
  - by rewrite Nat.add_0_r.
  - destruct s as [|c s]; simpl in Hlen; [lia|].
    simpl. rewrite IH by lia. f_equal. lia.
Qed.

(** The text before the first position where the pattern matches is
    passed over. *)
Lemma finditer_from_app r (a s : str) : forall pos,
  (forall i, i < length a -> match_at r (drop i (a ++ s)) = None) ->
  finditer_from r (a ++ s) pos 0 = finditer_from r s (pos + length a) 0.
Proof.
  induction a as [|c a IH]; intros pos Hnone.
  - simpl. by rewrite Nat.add_0_r.
  - simpl. pose proof (Hnone 0 ltac:(simpl; lia)) as H0. simpl in H0.
    rewrite H0. rewrite IH.
    + f_equal. lia.
    + intros i Hi. apply (Hnone (S i)). simpl. lia.
Qed.

(** A match at the head is reported, and the search goes on after it. *)
Lemma finditer_from_match r (s : str) pos n g :
  match_at r s = Some (n, g) -> 0 < n ->
  finditer_from r s pos 0
  = mkMatch pos (take n s) g :: finditer_from r (drop n s) (pos + n) 0.
Proof.
  intros Hm Hn. pose proof (match_at_length _ _ _ _ Hm) as Hlen.
  destruct s as [|c s]; simpl in Hlen; [lia|].
  cbn [finditer_from]. rewrite Hm. f_equal.
  destruct n as [|n]; [lia|]. simpl.
  rewrite finditer_from_skip by lia. f_equal. lia.
Qed.

(** ** Quotes *)

Definition count_quotes (s : str) : nat := length (List.filter is_quote s).

Lemma count_quotes_app (a b : str) :
  count_quotes (a ++ b) = count_quotes a + count_quotes b.
Proof. unfold count_quotes. by rewrite List.filter_app, length_app. Qed.

Lemma count_quotes_cons c (s : str) :
  count_quotes (c :: s) = (if is_quote c then 1 else 0) + count_quotes s.
Proof. unfold count_quotes. simpl. by destruct (is_quote c). Qed.

Lemma count_quotes_free (s : str) : quote_free s <-> count_quotes s = 0.
Proof.
  unfold quote_free. induction s as [|c s IH].
  - split; [done|constructor].
  - rewrite count_quotes_cons. split.
    + intros Hall. rewrite (Forall_inv Hall). simpl.
      apply IH. by apply Forall_inv_tail in Hall.
    + intros Hn. destruct (is_quote c) eqn:Hc; [simpl in Hn; lia|].
      constructor; [done|]. apply IH. simpl in Hn. lia.
Qed.

Lemma count_quotes_drop i (s : str) : count_quotes (drop i s) <= count_quotes s.
Proof.
  rewrite <- (take_drop i s) at 2. rewrite count_quotes_app. lia.
Qed.

Lemma quote_free_app (a b : str) :
  quote_free (a ++ b) <-> quote_free a /\ quote_free b.
Proof. apply Forall_app. Qed.

(** A text is cut in one way only at its first character of a kind. *)
Lemma first_cut (sep : char -> bool) (a a' b b' : str) c c' :
  a ++ c :: b = a' ++ c' :: b' ->
  Forall (fun x => sep x = false) a -> Forall (fun x => sep x = false) a' ->
  sep c = true -> sep c' = true ->
  a = a' /\ c = c' /\ b = b'.
Proof.
  revert a'. induction a as [|x a IH]; intros a' Heq Ha Ha' Hc Hc'.
  - destruct a' as [|y a']; simpl in Heq.
    + by simplify_eq.
    + simplify_eq. apply Forall_inv in Ha'. congruence.
  - destruct a' as [|y a']; simpl in Heq.
    + simplify_eq. apply Forall_inv in Ha. congruence.
    + injection Heq as -> Heq.
      apply Forall_inv_tail in Ha. apply Forall_inv_tail in Ha'.
      destruct (IH a' Heq Ha Ha' Hc Hc') as (-> & -> & ->). done.
Qed.

Lemma whitespace_quote_free (W : str) : whitespace W -> quote_free W.
Proof.
  apply Forall_impl. intros c Hc. unfold is_quote; simpl.
  unfold is_space in Hc. unfold mem_char, squote, dquote; simpl.
  destruct (N.eqb_spec c 39) as [->|]; [done|].
  destruct (N.eqb_spec c 34) as [->|]; [done|]. done.
Qed.

Lemma import_prefix_quote_free P : import_prefix P -> quote_free P.
Proof.
  intros [W _ HW|W1 W2 HW1 HW2].
  - apply quote_free_app. split; [by vm_compute; repeat constructor|].
    by apply whitespace_quote_free.
  - apply quote_free_app. split; [by vm_compute; repeat constructor|].
    apply quote_free_app. split; [by apply whitespace_quote_free|].
    apply quote_free_app. split; [by vm_compute; repeat constructor|].
    by apply whitespace_quote_free.
Qed.

(** ** Where the characters of a relative path come from

    Under the POSIX flavour every character of the path computed for a
    reference is a full stop, a slash, or a character of the source root,
    of the package or of the sub-path. *)

Section Provenance.
Variable ok : char -> bool.
Hypothesis ok_slash : ok slash = true.
Hypothesis ok_dot : ok dot = true.

Definition all_ok (s : str) : Prop := Forall (fun c => ok c = true) s.

Lemma all_ok_filter (f : str -> bool) (l : list str) :
  Forall all_ok l -> Forall all_ok (List.filter f l).
Proof.
  induction 1 as [|x l Hx Hl IH]; simpl; [constructor|].
  destruct (f x); [by constructor|done].
Qed.

Lemma split_ok sep (s : str) : all_ok s -> Forall all_ok (split sep s).
Proof.
  induction 1 as [|c s Hc Hs IH]; simpl.
  - repeat constructor.
  - destruct (c =? sep)%N.
    + constructor; [constructor|done].
    + destruct (split sep s) as [|w ws]; [repeat constructor; done|].
      pose proof (Forall_inv IH) as Hw; pose proof (Forall_inv_tail IH) as Hws.
      constructor; [by constructor|done].
Qed.

Lemma join_ok (sep : str) (l : list str) :
  all_ok sep -> Forall all_ok l -> all_ok (join sep l).
Proof.
  intros Hsep. induction 1 as [|w ws Hw Hws IH]; simpl; [constructor|].
  destruct ws as [|w' ws]; [done|].
  apply Forall_app. split; [done|]. apply Forall_app. split; done.
Qed.

Lemma splitroot_ok (s : str) :
  all_ok s ->
  all_ok (posixpath.splitroot s).1 /\ all_ok (posixpath.splitroot s).2.
Proof.
  intros Hs. unfold posixpath.splitroot.
  assert (H1 : all_ok [slash]) by (by repeat constructor).
  assert (H2 : all_ok [slash; slash]) by (by repeat constructor).
  destruct s as [|a s]; simpl; [split; [constructor|done]|].
  pose proof (Forall_inv Hs) as Ha; apply Forall_inv_tail in Hs.
  destruct (a =? slash)%N; simpl; [|split; [constructor|by constructor]].
  destruct s as [|b [|c s]]; simpl; [done| |].
  - destruct (b =? slash)%N; simpl; [split; [done|constructor]|done].
  - destruct ((b =? slash)%N && negb (c =? slash)%N); simpl; [|done].
    split; [done|]. by apply Forall_inv_tail in Hs.
Qed.

Definition path_ok (p : Path) : Prop :=
  all_ok (drv p) /\ all_ok (root p) /\ Forall all_ok (tail p).

Lemma parse_ok (s : str) : all_ok s -> path_ok (posixpath.parse s).
Proof.
  intros Hs. unfold posixpath.parse.
  destruct (splitroot_ok s Hs) as [Hr Hrel].
  destruct (posixpath.splitroot s) as [rt rel]; simpl in *.
  split; [constructor|]. split; [done|].
  simpl. apply all_ok_filter. by apply split_ok.
Qed.

Lemma to_str_ok (p : Path) : path_ok p -> all_ok (posixpath.to_str p).
Proof.
  intros (Hd & Hr & Ht). unfold posixpath.to_str.
  assert (Hj : all_ok (join [slash] (tail p)))
    by (apply join_ok; [by repeat constructor|done]).
  destruct (drv p ++ root p) as [|c anchor] eqn:Ha.
  - destruct (tail p); [by repeat constructor|done].
  - rewrite <- Ha. apply Forall_app. split; [|done].
    apply Forall_app. done.
Qed.

Lemma join2_ok (a b : str) :
  all_ok a -> all_ok b -> all_ok (posixpath.join2 a b).
Proof.
  intros Ha Hb. unfold posixpath.join2.
  destruct (startswith [slash] b); [done|].
  destruct (str_eqb a [] || posixpath.endswith_slash a).
  - apply Forall_app. done.
  - apply Forall_app. split; [done|]. apply Forall_app.
    split; [by repeat constructor|done].
Qed.

Lemma joinpath_ok (p : Path) (s : str) :
  path_ok p -> all_ok s -> path_ok (posixpath.joinpath p s).
Proof.
  intros Hp Hs. apply parse_ok, join2_ok; [by apply to_str_ok|done].
Qed.

Lemma norm_comps_ok rooted (comps : list str) : forall acc,
  Forall all_ok comps -> Forall all_ok acc ->
  Forall all_ok (posixpath.norm_comps rooted comps acc).
Proof.
  induction comps as [|comp rest IH]; intros acc Hc Hacc; simpl.
  - by apply Forall_rev.
  - pose proof (Forall_inv Hc) as Hcomp; pose proof (Forall_inv_tail Hc) as Hrest.
    destruct (str_eqb comp [] || str_eqb comp [dot]); [by apply IH|].
    match goal with |- context [if ?b then _ else _] => destruct b end.
    + apply IH; [done|by constructor].
    + apply IH; [done|]. destruct acc; [done|].
      by apply Forall_inv_tail in Hacc.
Qed.

Lemma replicate_slash_ok n : all_ok (replicate n slash).
Proof. induction n; simpl; by constructor. Qed.

Lemma normpath_ok (path : str) : all_ok path -> all_ok (posixpath.normpath path).
Proof.
  intros Hp. unfold posixpath.normpath.
  destruct path as [|c path]; [by repeat constructor|].
  match goal with
  | |- all_ok match ?l with [] => _ | _ => _ end =>
      assert (Hl : all_ok l); [|destruct l; [by repeat constructor|done]]
  end.
  apply Forall_app. split; [apply replicate_slash_ok|].
  apply join_ok; [by repeat constructor|].
  apply norm_comps_ok; [|constructor]. by apply split_ok.
Qed.

Lemma relpath_ok cwd (path start rel : str) :
  startswith [slash] path = true ->
  all_ok path ->
  posixpath.relpath cwd path start = Returns rel ->
  all_ok rel.
Proof.
  intros Habs Hp. unfold posixpath.relpath.
  destruct path as [|c path]; [done|].
  set (start_list := List.filter _ (split slash (posixpath.abspath cwd start))).
  set (path_list := List.filter _ (split slash (posixpath.abspath cwd (c :: path)))).
  assert (Hpl : Forall all_ok path_list).
  { apply all_ok_filter, split_ok. unfold posixpath.abspath. rewrite Habs.
    by apply normpath_ok. }
  set (i := length (posixpath.commonprefix start_list path_list)).
  assert (Hrl : Forall all_ok
                  (replicate (length start_list - i) posixpath.dotdot
                   ++ drop i path_list)).
  { apply Forall_app. split.
    - apply Forall_replicate. by repeat constructor.
    - by apply Forall_drop. }
  destruct (replicate _ _ ++ drop i path_list) as [|x l] eqn:Hl.
  - intros [= <-]. by repeat constructor.
  - intros Heq.
    assert (rel = join [slash] (x :: l)) as -> by congruence.
    apply join_ok; [by repeat constructor|done].
Qed.

(** Paths that [pathlib] joins to a rooted path print with a leading
    slash. *)
Lemma to_str_parse_rooted (s : str) :
  startswith [slash] s = true ->
  startswith [slash] (posixpath.to_str (posixpath.parse s)) = true.
Proof.
  intros Hs. apply startswith_spec in Hs as [s' ->]. simpl app.
  rename s' into s.
  unfold posixpath.parse, posixpath.splitroot.
  change (slash =? slash)%N with true. cbv iota.
  destruct s as [|b [|c s]]; [done| |].
  - by destruct (b =? slash)%N.
  - by destruct ((b =? slash)%N && negb (c =? slash)%N).
Qed.

Lemma join2_rooted (a b : str) :
  startswith [slash] a = true ->
  startswith [slash] (posixpath.join2 a b) = true.
Proof.
  intros Ha. unfold posixpath.join2.
  destruct (startswith [slash] b) eqn:Hb; [done|].
  destruct a as [|x a]; [done|].
  by destruct (str_eqb (x :: a) [] || posixpath.endswith_slash (x :: a)).
Qed.

Lemma joinpath_rooted (p : Path) (s : str) :
  startswith [slash] (posixpath.to_str p) = true ->
  startswith [slash] (posixpath.to_str (posixpath.joinpath p s)) = true.
Proof. intros Hp. by apply to_str_parse_rooted, join2_rooted. Qed.

Lemma replace_char_ok a (s : str) :
  all_ok s -> all_ok (replace_char a slash s).
Proof.
  intros Hs. unfold replace_char.
  induction Hs as [|c s Hc Hs IH]; simpl; [constructor|].
  constructor; [|done]. by destruct (c =? a)%N.
Qed.

Hypothesis ok_root : path_ok (@SRC_DIR unix).

Lemma posix_get_relative_path_ok cwd file_path package sub_path :
  all_ok package -> all_ok sub_path ->
  all_ok (@ReplaceImportsDeep.get_relative_path (posix cwd) file_path
            package sub_path).
Proof.
  intros Hpk Hsub.
  assert (Hsrc : startswith [slash] (posixpath.to_str (@SRC_DIR unix)) = true)
    by (by vm_compute).
  assert (Ht : path_ok (@ReplaceImportsDeep.target_dir (posix cwd) package
                          sub_path)
               /\ startswith [slash]
                    (posixpath.to_str
                       (@ReplaceImportsDeep.target_dir (posix cwd) package
                          sub_path)) = true).
  { unfold ReplaceImportsDeep.target_dir.
    change (@SRC_DIR (posix cwd)) with (@SRC_DIR unix).
    change (@joinpath (posix cwd)) with posixpath.joinpath.
    destruct (nonempty sub_path).
    - split.
      + apply joinpath_ok; [|done]. by apply joinpath_ok.
      + apply joinpath_rooted. by apply joinpath_rooted.
    - split; [by apply joinpath_ok|by apply joinpath_rooted]. }
  destruct Ht as [Hok Hrooted].
  unfold ReplaceImportsDeep.get_relative_path.
  destruct (os_path_relpath _ _) as [rel|] eqn:Hr.
  - apply relpath_ok in Hr; [|done|by apply to_str_ok].
    destruct (negb _).
    + apply Forall_app. split; [by repeat constructor|].
      by apply replace_char_ok.
    + by apply replace_char_ok.
  - destruct (posix_target_dir_returns cwd package sub_path (parent file_path))
      as [rel Hrel]. congruence.
Qed.
End Provenance.

(** ** A converted reference is not matched again *)

(** A pattern for references: whatever it matches begins with text free
    of quotes, then a quote, then the [@] of the scope, and ends with a
    quote. *)
Definition reference_pattern (r : regex) : Prop :=
  forall (s : str) n g,
    match_at r s = Some (n, g) ->
    exists P q1 X q2 rest,
      quote_free P /\ is_quote q1 = true /\ is_quote q2 = true
      /\ s = P ++ q1 :: py "@" ++ X ++ q2 :: rest
      /\ n = length (P ++ q1 :: py "@" ++ X ++ [q2]).

Lemma deep_reference_pattern `{OsPath} package :
  reference_pattern (ReplaceImportsDeep.pattern package).
Proof.
  intros s n g Hm.
  apply deep_match_shape in Hm
    as (P & q1 & S & q2 & rest & HP & Hq1 & Hq2 & _ & -> & -> & _).
  exists P, q1, (py "ankaa/" ++ package ++ S), q2, rest.
  split; [by apply import_prefix_quote_free|]. do 2 (split; [done|]).
  split; [by rewrite <- !app_assoc|]. by rewrite <- !app_assoc.
Qed.

Lemma simple_reference_pattern `{OsPath} package :
  reference_pattern (ReplaceImports.pattern package).
Proof.
  intros s n g Hm.
  apply simple_match_shape in Hm
    as (W & q1 & q2 & rest & HW & Hws & Hq1 & Hq2 & -> & -> & _).
  exists (py "from" ++ W), q1, (py "ankaa/" ++ package), q2, rest.
  split; [by apply import_prefix_quote_free, PrefixFrom|].
  do 2 (split; [done|]).
  split; [by rewrite <- !app_assoc|]. by rewrite <- !app_assoc.
Qed.

(** The text a reference is converted to: the prefix and the quotes it
    had, around a path that begins with a full stop and holds no
    quote. *)
Definition converted (text : str) : Prop :=
  exists P q1 rel q2,
    text = P ++ q1 :: rel ++ [q2]
    /\ quote_free P /\ is_quote q1 = true /\ is_quote q2 = true
    /\ quote_free rel /\ startswith [dot] rel = true.

(** No match of the pattern for [j] starts where [text] starts in the
    content, and none lies within [text]. *)
Definition not_matched_again (pattern : str -> regex) (text : str) : Prop :=
  forall j before after m',
    m' ∈ finditer (pattern j) (before ++ text ++ after) ->
    m_start m' <> length before
    /\ ~ (length before <= m_start m'
          /\ m_end m' <= length before + length text).

Lemma is_quote_count c : is_quote c = true -> count_quotes [c] = 1.
Proof. intros Hc. by rewrite count_quotes_cons, Hc. Qed.

Lemma converted_not_matched_again pattern text :
  (forall j, reference_pattern (pattern j)) ->
  converted text ->
  not_matched_again pattern text.
Proof.
  intros Hpat (P & q1 & rel & q2 & -> & HP & Hq1 & Hq2 & Hrel & Hdot).
  apply startswith_spec in Hdot as [rel' ->].
  intros j before after m' Hin.
  apply finditer_sound in Hin as (n & Hi & Hm & Ht).
  pose proof (match_at_length _ _ _ _ Hm) as Hn.
  apply Hpat in Hm as (P' & q1' & X & q2' & rest & HP' & Hq1' & Hq2' & Hs & ->).
  set (text := P ++ q1 :: ([dot] ++ rel') ++ [q2]) in *.
  split.
  - intros Heq. rewrite Heq, drop_app_length in Hs.
    unfold text in Hs. rewrite <- app_assoc in Hs. simpl in Hs.
    apply first_cut with (sep := is_quote) in Hs as (_ & _ & Hs);
      [|done..].
    discriminate Hs.
  - intros [Hlo Hhi].
    assert (Hlen : length (m_text m')
                   = length (P' ++ q1' :: py "@" ++ X ++ [q2'])).
    { rewrite Ht, length_take. lia. }
    unfold m_end in Hhi. rewrite Hlen in Hhi.
    set (M := P' ++ q1' :: py "@" ++ X ++ [q2']) in *.
    set (i' := m_start m' - length before).
    assert (Hdrop : drop (m_start m') (before ++ text ++ after)
                    = drop i' text ++ after).
    { rewrite drop_app_ge by lia. fold i'.
      rewrite drop_app_le; [done|]. unfold i'. lia. }
    rewrite Hdrop in Hs.
    assert (Hs' : drop i' text ++ after = M ++ rest).
    { rewrite Hs. unfold M. rewrite <- !app_assoc. simpl.
      by rewrite <- !app_assoc. }
    assert (HM : take (length M) (drop i' text) = M).
    { apply (f_equal (take (length M))) in Hs'.
      rewrite take_app_le in Hs' by (rewrite length_drop; unfold i'; lia).
      by rewrite take_app_length in Hs'. }
    assert (Htext : text = (take i' text ++ P')
                           ++ q1' :: (py "@" ++ X ++ q2'
                                      :: drop (length M) (drop i' text))).
    { rewrite <- (take_drop i' text) at 1.
      rewrite <- (take_drop (length M) (drop i' text)) at 1.
      rewrite HM. unfold M. rewrite <- !app_assoc. simpl.
      by rewrite <- !app_assoc. }
    assert (Hcount : count_quotes text = 2).
    { unfold text. rewrite count_quotes_app, count_quotes_cons, Hq1.
      rewrite count_quotes_app, (is_quote_count q2) by done.
      apply count_quotes_free in HP, Hrel. rewrite HP, Hrel. done. }
    assert (Hfree : quote_free (take i' text ++ P')).
    { apply count_quotes_free. rewrite Htext in Hcount.
      rewrite !count_quotes_app, count_quotes_cons, Hq1' in Hcount.
      rewrite !count_quotes_app, count_quotes_cons, Hq2' in Hcount.
      rewrite count_quotes_app. lia. }
    unfold text in Htext at 1.
    apply first_cut with (sep := is_quote) in Htext as (_ & _ & Htext);
      [|done..].
    discriminate Htext.
Qed.

Definition not_quote (c : char) : bool := negb (is_quote c).

Lemma all_ok_quote_free (s : str) : all_ok not_quote s <-> quote_free s.
Proof.
  unfold all_ok, quote_free, not_quote. split; apply Forall_impl; intros c.
  - by rewrite negb_true_iff.
  - by rewrite negb_true_iff.
Qed.

(** Checks a predicate on every character of explicit strings. *)
Ltac check_chars :=
  repeat first [ split
               | apply Forall_nil
               | apply Forall_cons; [try (vm_compute; reflexivity)|] ].

Lemma source_root_quote_free : path_ok not_quote (@SRC_DIR unix).
Proof. unfold path_ok, all_ok. vm_compute tail. check_chars. Qed.

Lemma Forall_elem {A} (P : A -> Prop) (l : list A) x :
  Forall P l -> x ∈ l -> P x.
Proof.
  induction 1 as [|y l Hy Hl IH]; intros Hin; [by apply elem_of_nil in Hin|].
  apply elem_of_cons in Hin as [->|Hin]; auto.
Qed.

Lemma packages_quote_free package :
  package ∈ @PACKAGES -> quote_free package.
Proof.
  assert (Hall : Forall quote_free (@PACKAGES))
    by (unfold quote_free, PACKAGES; check_chars).
  by apply Forall_elem.
Qed.

Lemma lstrip_quote_free c (s : str) : quote_free s -> quote_free (lstrip c s).
Proof.
  induction 1 as [|x s Hx Hs IH]; simpl; [constructor|].
  destruct (x =? c)%N; [done|by constructor].
Qed.

(** Under the POSIX flavour the path computed for a reference to a
    configured package begins with a full stop and holds no quote. *)
Lemma posix_relative_path_shape cwd file_path package sub_path :
  package ∈ @PACKAGES -> quote_free sub_path ->
  quote_free (@ReplaceImportsDeep.get_relative_path (posix cwd) file_path
                package sub_path)
  /\ startswith [dot]
       (@ReplaceImportsDeep.get_relative_path (posix cwd) file_path package
          sub_path) = true.
Proof.
  intros Hpk Hsub. split.
  - apply all_ok_quote_free.
    apply posix_get_relative_path_ok;
      [done|done|apply source_root_quote_free| |];
      apply all_ok_quote_free; [by apply packages_quote_free|done].
  - destruct (posix_dotted cwd file_path package sub_path)
      as [[Hs|Hs] _];
      apply startswith_spec in Hs as [s' ->]; done.
Qed.

Lemma deep_new_text_converted cwd file_path package content m :
  package ∈ @PACKAGES ->
  m ∈ finditer (@ReplaceImportsDeep.pattern package) content ->
  converted (@ReplaceImportsDeep.new_text (posix cwd) file_path package m).
Proof.
  intros Hpk Hin. apply finditer_sound in Hin as (n & _ & Hm & _).
  apply (@deep_match_shape unix) in Hm
    as (P & q1 & S & q2 & rest & HP & Hq1 & Hq2 & HS & _ & _ & Hg1 & Hg2 & Hg3).
  unfold ReplaceImportsDeep.new_text, expand. rewrite Hg1, Hg2, Hg3.
  cbn [default from_option]. unfold id.
  set (sub_path := match (if S is [] then None else Some S) with
                   | Some sp => if nonempty sp then lstrip slash sp else []
                   | None => []
                   end).
  assert (Hsub : quote_free sub_path).
  { unfold sub_path. destruct HS as [->|(S' & -> & _ & HS')]; [constructor|].
    change (nonempty (slash :: S')) with true. cbv iota.
    apply lstrip_quote_free. constructor; [done|exact HS']. }
  assert (Hrel : (if nonempty sub_path
                  then @ReplaceImportsDeep.get_relative_path (posix cwd)
                         file_path package sub_path
                  else @ReplaceImportsDeep.get_relative_path (posix cwd)
                         file_path package [])
                 = @ReplaceImportsDeep.get_relative_path (posix cwd)
                     file_path package sub_path).
  { destruct sub_path; done. }
  rewrite Hrel.
  destruct (posix_relative_path_shape cwd file_path package sub_path Hpk Hsub)
    as [Hfree Hdot].
  exists P, q1,
    (@ReplaceImportsDeep.get_relative_path (posix cwd) file_path package
       sub_path), q2.
  split; [rewrite <- app_assoc; reflexivity|].
  split; [by apply import_prefix_quote_free|]. done.
Qed.

Lemma simple_replacement_converted cwd file_path package content m :
  package ∈ @PACKAGES ->
  m ∈ finditer (@ReplaceImports.pattern package) content ->
  converted (expand (m_caps m) 1
             ++ @ReplaceImports.get_relative_path (posix cwd) file_path
                  package
             ++ expand (m_caps m) 2).
Proof.
  intros Hpk Hin. apply finditer_sound in Hin as (n & _ & Hm & _).
  apply (@simple_match_shape unix) in Hm
    as (W & q1 & q2 & rest & HW & Hws & Hq1 & Hq2 & _ & _ & Hg1 & Hg2).
  unfold expand. rewrite Hg1, Hg2. cbn [default from_option]. unfold id.
  rewrite simple_is_deep.
  destruct (posix_relative_path_shape cwd file_path package [] Hpk)
    as [Hfree Hdot]; [constructor|].
  exists (py "from" ++ W), q1,
    (@ReplaceImportsDeep.get_relative_path (posix cwd) file_path package []),
    q2.
  split; [rewrite <- !app_assoc; reflexivity|].
  split; [by apply import_prefix_quote_free, PrefixFrom|]. done.
Qed.


(** ** The replacement template of replace-imports.py *)

Definition is_digit (c : char) : bool := ((48 <=? c) && (c <=? 57))%N.

(** A string that stands for itself inside a replacement template between
    two group references: it holds no backslash, and it does not begin with
    a digit, which would run into the group number before it. *)
Definition stands_for_itself (s : str) : Prop :=
(backslash ∉ s) /\ forall c, head s = Some c -> is_digit c = false.

Lemma packages_stand_for_themselves package :
  package ∈ @PACKAGES -> stands_for_itself package.
Proof.
  assert (Hall : Forall stands_for_itself (@PACKAGES)).
  { unfold PACKAGES.
    repeat (apply Forall_cons_2;
            [split; [intros Hin; vm_compute in Hin; elem_absurd Hin
                    |by intros c [= <-]]|]).
    apply Forall_nil_2. }
  by apply Forall_elem.
Qed.

Lemma dotted_stands_for_itself (s : str) :
  dotted s -> stands_for_itself s.
Proof.
  intros [[Hs|Hs] Hb]; (split; [done|]);
    apply startswith_spec in Hs as [s' ->]; by intros c [= <-].
Qed.

Lemma template_is_literal `{OsPath} file_path package :
  package ∈ @PACKAGES ->
  stands_for_itself (ReplaceImports.get_relative_path file_path package).
Proof.
  intros Hpk. rewrite simple_is_deep.
  pose proof (get_relative_path_cases file_path package []) as Hc.
  destruct (os_path_relpath _ _).
  - by apply dotted_stands_for_itself.
  - rewrite Hc. by apply packages_stand_for_themselves.
Qed.

(** ** Matching a reference *)

Lemma rmatch_lit_some {R} l (s : str) g (k : str -> caps -> option R) x :
  k s g = Some x -> rmatch (RLit l) (l ++ s) g k = Some x.
Proof. intros Hk. simpl. by rewrite startswith_app, drop_app_length. Qed.

Lemma rmatch_set_some {R} cs c (s : str) g (k : str -> caps -> option R) x :
  in_class cs c = true -> k s g = Some x ->
  rmatch (RSet cs) (c :: s) g k = Some x.
Proof. intros Hc Hk. simpl. by rewrite Hc. Qed.

(** The text [s] does not go on with a character of the class. *)
Definition stops (cs : charset) (s : str) : Prop :=
  match s with
  | [] => True
  | c :: _ => in_class cs c = false
  end.

(** A greedy repetition takes a whole run of the class when what follows
    then matches. *)
Lemma rmatch_star_some {R} cs (w s : str) g (k : str -> caps -> option R) x :
  Forall (fun c => in_class cs c = true) w -> stops cs s ->
  k s g = Some x ->
  rmatch (RStar cs) (w ++ s) g k = Some x.
Proof.
  intros Hw Hs Hk. induction Hw as [|c w Hc Hw IH].
  - destruct s as [|c s]; simpl in *; [done|]. by rewrite Hs.
  - simpl in *. by rewrite Hc, IH.
Qed.

Lemma rmatch_plus_some {R} cs c (w s : str) g
    (k : str -> caps -> option R) x :
  in_class cs c = true ->
  Forall (fun c => in_class cs c = true) w -> stops cs s ->
  k s g = Some x ->
  rmatch (RPlus cs) (c :: w ++ s) g k = Some x.
Proof.
  intros Hc Hw Hs Hk. unfold RPlus.
  change (rmatch (RSet cs) (c :: w ++ s) g
            (fun s' g' => rmatch (RStar cs) s' g' k) = Some x).
  apply rmatch_set_some; [done|]. by apply rmatch_star_some.
Qed.

Lemma consumed_eq (s w s' : str) : s = w ++ s' -> consumed s s' = w.
Proof. intros ->. apply consumed_app. Qed.

Lemma is_quote_cases q : is_quote q = true -> q = squote \/ q = dquote.
Proof.
  unfold is_quote, quotes, in_class, mem_char, existsb.
  destruct (N.eqb_spec q squote) as [->|_]; [by left|].
  destruct (N.eqb_spec q dquote) as [->|_]; [by right|]. done.
Qed.

Lemma quote_stops_space q (s : str) : is_quote q = true -> stops CsSpace (q :: s).
Proof. by intros [->| ->]%is_quote_cases. Qed.

Lemma quote_stops_non_quotes q (s : str) :
  is_quote q = true -> stops non_quotes (q :: s).
Proof. unfold is_quote, stops; simpl. by intros ->. Qed.

Lemma quote_free_non_quotes (w : str) :
  quote_free w -> Forall (fun c => in_class non_quotes c = true) w.
Proof.
  apply Forall_impl. intros c Hc. unfold is_quote in Hc. simpl in *.
  by rewrite Hc.
Qed.

Lemma rmatch_cat_some {R} r1 r2 (s : str) g (k : str -> caps -> option R) x :
  rmatch r1 s g (fun s' g' => rmatch r2 s' g' k) = Some x ->
  rmatch (RCat r1 r2) s g k = Some x.
Proof. done. Qed.

Lemma rmatch_group_some {R} i r (s : str) g (k : str -> caps -> option R) x :
  rmatch r s g (fun s' g' => k s' ((i, consumed s s') :: g')) = Some x ->
  rmatch (RGroup i r) s g k = Some x.
Proof. done. Qed.

Lemma rmatch_opt_some {R} r (s : str) g (k : str -> caps -> option R) x :
  rmatch r s g k = Some x -> rmatch (ROpt r) s g k = Some x.
Proof. intros Hr. simpl. by rewrite Hr. Qed.

Lemma rmatch_alt_l {R} r1 r2 (s : str) g (k : str -> caps -> option R) x :
  rmatch r1 s g k = Some x -> rmatch (RAlt r1 r2) s g k = Some x.
Proof. intros Hr. simpl. by rewrite Hr. Qed.

Lemma rmatch_alt_r {R} r1 r2 (s : str) g (k : str -> caps -> option R) x :
  rmatch r1 s g k = None -> rmatch r2 s g k = Some x ->
  rmatch (RAlt r1 r2) s g k = Some x.
Proof. intros Hr1 Hr2. simpl. by rewrite Hr1. Qed.

Lemma rmatch_lit_none {R} l r (s : str) g (k : str -> caps -> option R) :
  startswith l s = false -> rmatch (RCat (RLit l) r) s g k = None.
Proof. intros Hs. simpl. by rewrite Hs. Qed.

Lemma from_not_import (s : str) :
  startswith (py "from") (py "import" ++ s) = false.
Proof. reflexivity. Qed.

Lemma paren_stops_space (s : str) : stops CsSpace (py "(" ++ s).
Proof. reflexivity. Qed.

Lemma slash_literal : py "/" = [slash].
Proof. reflexivity. Qed.

Opaque py.

(** The rest of the deep pattern, after group 1, on the text that follows
    the opening quote. *)
Lemma deep_match_tail {R} package (S' : str) q' (rest : str) g
    (k : str -> caps -> option R) x :
  is_quote q' = true -> S' <> [] -> quote_free S' ->
  k rest ((3, [q']) :: (2, slash :: S') :: g) = Some x ->
  rmatch
    (RCat (RLit (py "@ankaa/" ++ package))
       (RCat (ROpt (RGroup 2 (RCat (RLit (py "/")) (RPlus non_quotes))))
          (RGroup 3 (RSet quotes))))
    ((py "@ankaa/" ++ package) ++ slash :: S' ++ q' :: rest) g k = Some x.
Proof.
  intros Hq' HS' Hfree Hk.
  destruct S' as [|c S'']; [done|].
  pose proof (Forall_inv Hfree) as Hc.
  apply Forall_inv_tail in Hfree.
  apply rmatch_cat_some, rmatch_lit_some. cbv beta.
  apply rmatch_cat_some, rmatch_opt_some, rmatch_group_some, rmatch_cat_some.
  rewrite slash_literal.
  change (slash :: (c :: S'') ++ q' :: rest)
    with ([slash] ++ c :: S'' ++ q' :: rest).
  apply rmatch_lit_some. cbv beta.
  apply rmatch_plus_some.
  - unfold is_quote in Hc. simpl in *. by rewrite Hc.
  - by apply quote_free_non_quotes.
  - by apply quote_stops_non_quotes.
  - apply rmatch_group_some, rmatch_set_some; [done|].
    rewrite (consumed_eq (q' :: rest) [q'] rest) by done.
    by rewrite (consumed_eq _ (slash :: c :: S'') (q' :: rest)).
Qed.

Transparent py.

Opaque py.

(** A reference with a sub-path is matched as a whole, the groups being
    its prefix with the opening quote, its sub-path with the slash, and
    its closing quote. *)
Lemma deep_match_at_reference `{OsPath} package P q (S' : str) q' rest :
  import_prefix P -> is_quote q = true -> is_quote q' = true ->
  S' <> [] -> quote_free S' ->
  match_at (ReplaceImportsDeep.pattern package)
    (P ++ q :: (py "@ankaa/" ++ package) ++ slash :: S' ++ q' :: rest)
  = Some (length (P ++ q :: (py "@ankaa/" ++ package) ++ slash :: S' ++ [q']),
          [(3, [q']); (2, slash :: S'); (1, P ++ [q])]).
Proof.
  intros HP Hq Hq' HS' Hfree.
  set (T := (py "@ankaa/" ++ package) ++ slash :: S' ++ q' :: rest).
  assert (Hn : length (P ++ q :: T) - length rest
               = length (P ++ q :: (py "@ankaa/" ++ package)
                           ++ slash :: S' ++ [q'])).
  { unfold T. rewrite !length_app. simpl. rewrite !length_app. simpl.
    rewrite !length_app. simpl. lia. }
  unfold match_at, ReplaceImportsDeep.pattern.
  apply rmatch_cat_some, rmatch_group_some.
  destruct HP as [W HW Hws|W1 W2 Hw1 Hw2].
  - destruct W as [|c W]; [done|].
    pose proof (Forall_inv Hws) as Hc. apply Forall_inv_tail in Hws.
    apply rmatch_alt_l, rmatch_cat_some.
    rewrite <- app_assoc. apply rmatch_lit_some. cbv beta.
    apply rmatch_cat_some.
    change ((c :: W) ++ q :: T) with (c :: W ++ q :: T).
    apply rmatch_plus_some; [done|done|by apply quote_stops_space|].
    apply rmatch_set_some; [done|].
    rewrite (consumed_eq _ ((py "from" ++ c :: W) ++ [q]))
      by (by rewrite <- !app_assoc).
    unfold T. apply deep_match_tail; [done..|]. fold T.
    rewrite <- Hn. by rewrite <- !app_assoc.
  - rewrite <- !app_assoc in Hn |- *.
    apply rmatch_alt_r; [apply rmatch_lit_none, from_not_import|].
    apply rmatch_cat_some, rmatch_lit_some. cbv beta.
    apply rmatch_cat_some, rmatch_star_some;
      [done|apply paren_stops_space|].
    apply rmatch_cat_some, rmatch_lit_some. cbv beta.
    apply rmatch_cat_some, rmatch_star_some;
      [done|by apply quote_stops_space|].
    apply rmatch_set_some; [done|].
    rewrite (consumed_eq _ ((py "import" ++ W1 ++ py "(" ++ W2) ++ [q]))
      by (by rewrite <- !app_assoc).
    unfold T. apply deep_match_tail; [done..|]. fold T.
    rewrite <- Hn. by rewrite <- !app_assoc.
Qed.

Transparent py.

(** ** One reference in text without quotes *)

(** A text is cut in one way only before its trailing white space. *)
Lemma ws_tail_unique (a a' W W' : str) c c' :
  a ++ c :: W = a' ++ c' :: W' ->
  whitespace W -> whitespace W' ->
  is_space c = false -> is_space c' = false ->
  a = a' /\ c = c' /\ W = W'.
Proof.
  intros Heq HW HW' Hc Hc'.
  apply (f_equal (@rev char)) in Heq.
  rewrite !rev_app_distr in Heq. simpl in Heq.
  rewrite <- !app_assoc in Heq. simpl in Heq.
  apply first_cut with (sep := fun x => negb (is_space x)) in Heq
    as (Hw & -> & Ha).
  - split; [|split; [done|]].
    + apply (f_equal (@rev char)) in Ha. by rewrite !rev_involutive in Ha.
    + apply (f_equal (@rev char)) in Hw. by rewrite !rev_involutive in Hw.
  - apply Forall_rev. eapply Forall_impl; [|exact HW].
    intros x Hx. simpl. by rewrite Hx.
  - apply Forall_rev. eapply Forall_impl; [|exact HW'].
    intros x Hx. simpl. by rewrite Hx.
  - by rewrite Hc.
  - by rewrite Hc'.
Qed.

Lemma app_same_length_nil {A} (Y l : list A) : Y ++ l = l -> Y = [].
Proof.
  intros Heq. apply (f_equal length) in Heq. rewrite length_app in Heq.
  destruct Y; [done|]. simpl in Heq. lia.
Qed.

Lemma from_split (W : str) : py "from" ++ W = py "fro" ++ 109%N :: W.
Proof. reflexivity. Qed.

Lemma import_split (W : str) : py "import" ++ W = py "impor" ++ 116%N :: W.
Proof. reflexivity. Qed.

Lemma paren_split (W : str) : py "(" ++ W = 40%N :: W.
Proof. reflexivity. Qed.

Opaque py.

(** No text that introduces a reference ends with another one. *)
Lemma import_prefix_suffix (Y P : str) :
  import_prefix (Y ++ P) -> import_prefix P -> Y = [].
Proof.
  intros HX HP. remember (Y ++ P) as X eqn:Heq.
  destruct HX as [W' HW' Hws'|W1' W2' Hw1' Hw2'];
    destruct HP as [W HW Hws|W1 W2 Hw1 Hw2].
  - rewrite !from_split, app_assoc in Heq.
    apply ws_tail_unique in Heq as (Heq & _ & _); [|done..].
    symmetry in Heq. by apply app_same_length_nil in Heq.
  - rewrite from_split, paren_split, !app_assoc in Heq.
    apply ws_tail_unique in Heq as (_ & Heq & _); [|done..].
    discriminate Heq.
  - rewrite from_split, paren_split, !app_assoc in Heq.
    apply ws_tail_unique in Heq as (_ & Heq & _); [|done..].
    discriminate Heq.
  - rewrite !paren_split, !app_assoc in Heq.
    apply ws_tail_unique in Heq as (Heq & _ & _); [|done..].
    rewrite <- app_assoc, !import_split, app_assoc in Heq.
    apply ws_tail_unique in Heq as (Heq & _ & _); [|done..].
    symmetry in Heq. by apply app_same_length_nil in Heq.
Qed.

Transparent py.

(** Where the deep pattern can match in a text whose first quote is
    followed by at most one more. *)
Lemma deep_match_after_first_quote `{OsPath} package (A : str) q (R : str)
    i n g :
  quote_free A -> is_quote q = true -> count_quotes R <= 1 ->
  match_at (ReplaceImportsDeep.pattern package) (drop i (A ++ q :: R))
  = Some (n, g) ->
  i <= length A
  /\ import_prefix (drop i A)
  /\ exists S q2 rest,
       sub_part S /\ is_quote q2 = true
       /\ R = py "@ankaa/" ++ package ++ S ++ q2 :: rest.
Proof.
  intros HA Hq HR Hm.
  apply deep_match_shape in Hm
    as (P & q1 & S & q2 & rest & HP & Hq1 & Hq2 & HS & Hs & _).
  destruct (decide (i <= length A)) as [Hi|Hi].
  - rewrite drop_app_le in Hs by done.
    apply first_cut with (sep := is_quote) in Hs as (HPA & _ & HRT);
      [|by apply Forall_drop|by apply import_prefix_quote_free|done..].
    split; [done|]. split; [by rewrite HPA|]. eauto 10.
  - exfalso.
    assert (Hc : 2 <= count_quotes (drop i (A ++ q :: R))).
    { rewrite Hs, count_quotes_app, count_quotes_cons, Hq1.
      rewrite !count_quotes_app, count_quotes_cons, Hq2. lia. }
    rewrite drop_app_ge in Hc by lia.
    destruct (i - length A) as [|j] eqn:Hj; [lia|]. simpl in Hc.
    pose proof (count_quotes_drop j R). lia.
Qed.

Lemma match_needs_quote `{OsPath} package (s : str) i :
  quote_free s ->
  match_at (ReplaceImportsDeep.pattern package) (drop i s) = None.
Proof.
  intros Hs.
  destruct (match_at _ _) as [[n g]|] eqn:Hm; [exfalso|done].
  apply deep_match_shape in Hm
    as (P & q1 & S & q2 & rest & _ & Hq1 & _ & _ & Heq & _).
  assert (Hc : 1 <= count_quotes (drop i s)).
  { rewrite Heq, count_quotes_app, count_quotes_cons, Hq1. lia. }
  pose proof (count_quotes_drop i s). apply count_quotes_free in Hs. lia.
Qed.

Lemma finditer_from_none r (s : str) pos :
  (forall i, match_at r (drop i s) = None) -> finditer_from r s pos 0 = [].
Proof.
  intros Hnone. destruct (finditer_from r s pos 0) as [|m ms] eqn:Hf; [done|].
  assert (Hin : m ∈ finditer_from r s pos 0) by (rewrite Hf; by left).
  apply finditer_from_sound in Hin as (i & n & _ & Hm & _).
  by rewrite Hnone in Hm.
Qed.

Lemma replace_first_unfold (old new s : str) :
  replace_first old new s
  = if startswith old s then new ++ drop (length old) s
    else match s with
         | [] => []
         | c :: s' => c :: replace_first old new s'
         end.
Proof. by destruct s. Qed.

(** [str.replace(old, new, 1)] rewrites one occurrence of [old] or
    none, never two. *)
Lemma replace_first_once (old new s : str) :
  replace_first old new s = s
  \/ exists a b, s = a ++ old ++ b /\ replace_first old new s = a ++ new ++ b.
Proof.
  induction s as [|c s IH].
  - rewrite replace_first_unfold. destruct (startswith old []) eqn:Hs.
    + right. exists [], (drop (length old) []). split; [|done].
      apply startswith_spec in Hs as [s' Hs]. symmetry in Hs.
      apply app_eq_nil in Hs as [-> ->]. done.
    + by left.
  - rewrite replace_first_unfold. destruct (startswith old (c :: s)) eqn:Hs.
    + right. apply startswith_spec in Hs as [s' Hs]. exists [], s'.
      rewrite Hs. simpl. rewrite drop_app_length. done.
    + destruct IH as [->|(a & b & -> & ->)]; [by left|].
      right. by exists (c :: a), b.
Qed.

(** [str.replace(old, new, 1)] rewrites [old] where it stands when it
    does not occur further to the left. *)
Lemma replace_first_at (old new a b : str) :
  (forall i, i < length a -> startswith old (drop i (a ++ old ++ b)) = false) ->
  replace_first old new (a ++ old ++ b) = a ++ new ++ b.
Proof.
  induction a as [|c a IH]; intros Hno.
  - change ([] ++ old ++ b) with (old ++ b).
    rewrite replace_first_unfold, startswith_app, drop_app_length.
    reflexivity.
  - pose proof (Hno 0 ltac:(simpl; lia)) as H0.
    change (drop 0 ((c :: a) ++ old ++ b)) with (c :: a ++ old ++ b) in H0.
    change ((c :: a) ++ old ++ b) with (c :: a ++ old ++ b).
    rewrite replace_first_unfold, H0.
    change ((c :: a) ++ new ++ b) with (c :: a ++ new ++ b).
    f_equal. apply IH.
    intros i Hi. apply (Hno (S i)). simpl. lia.
Qed.

Lemma Forall_of_elem {A} (P : A -> Prop) (l : list A) :
  (forall x, x ∈ l -> P x) -> Forall P l.
Proof.
  induction l as [|y l IH]; intros Hall; constructor.
  - apply Hall. by left.
  - apply IH. intros x Hx. apply Hall. by right.
Qed.

(** When one package only is referred to, and once, the turns come down
    to the turn of that package. *)
Lemma turns_single pattern step packages package c c' :
  (forall k c0, finditer (pattern k) c0 = [] -> step k c0 = c0) ->
  package ∈ packages ->
  (forall k, k ∈ packages -> k <> package -> finditer (pattern k) c = []) ->
  (forall k, k ∈ packages -> finditer (pattern k) c' = []) ->
  length (finditer (pattern package) c) = 1 ->
  step package c = c' ->
  (turns pattern step packages c).1 = c'
  /\ sum_list (turns pattern step packages c).2 = 1.
Proof.
  intros Hstep Hin Hother Hafter Hone Hc'.
  induction packages as [|k rest IH]; [by apply elem_of_nil in Hin|].
  cbn [turns fst snd sum_list].
  destruct (decide (k = package)) as [->|Hne].
  - rewrite Hc', Hone.
    rewrite turns_no_match.
    + simpl. by rewrite sum_replicate_0.
    + intros k Hk. by apply Hstep.
    + apply Forall_of_elem. intros k Hk. apply Hafter. by right.
  - rewrite Hstep by (apply Hother; [by left|done]).
    rewrite (Hother k) by (by left || done). simpl.
    apply IH.
    + apply elem_of_cons in Hin as [->|Hin]; [done|exact Hin].
    + intros k' Hk'. apply Hother. by right.
    + intros k' Hk'. apply Hafter. by right.
Qed.

Definition is_sep (c : char) : bool := (c =? slash)%N || is_quote c.

Lemma packages_sep_free package :
  package ∈ @PACKAGES -> Forall (fun c => is_sep c = false) package.
Proof.
  assert (Hall : Forall (fun p : str => Forall (fun c => is_sep c = false) p)
                   (@PACKAGES))
    by (unfold PACKAGES; check_chars).
  by apply Forall_elem.
Qed.

Lemma scope_quote_free : quote_free (py "@ankaa/").
Proof. unfold quote_free. check_chars. Qed.

Lemma nonempty_cons c (s : str) : nonempty (c :: s) = true.
Proof. reflexivity. Qed.

(** Brings nested appends to the right-nested form. *)
Ltac norm_app :=
  repeat (rewrite <- app_assoc || rewrite <- app_comm_cons).

Ltac norm_app_in H :=
  repeat (rewrite <- app_assoc in H || rewrite <- app_comm_cons in H).

Section OneReference.
Context `{OsPath}.
Variables (file_path : Path) (package : str).
Variables (before after P sub : str) (q q' : char).
Hypothesis package_configured : package ∈ @PACKAGES.
Hypothesis before_free : quote_free before.
Hypothesis after_free : quote_free after.
Hypothesis prefix_ok : import_prefix P.
Hypothesis open_quote : is_quote q = true.
Hypothesis close_quote : is_quote q' = true.
Hypothesis sub_nonempty : sub <> [].
Hypothesis sub_free : quote_free sub.

(** The reference, and the content around it. *)
Definition reference : str :=
  P ++ q :: (py "@ankaa/" ++ package) ++ slash :: sub ++ [q'].

Definition referring : str := before ++ reference ++ after.

(** What the reference becomes for a relative path [rel]. *)
Definition rewritten (rel : str) : str :=
  before ++ (P ++ q :: rel ++ [q']) ++ after.

Lemma referring_cut :
  referring
  = (before ++ P)
    ++ q :: (py "@ankaa/" ++ package) ++ slash :: sub ++ q' :: after.
Proof.
  unfold referring, reference. norm_app. reflexivity.
Qed.

Lemma rewritten_cut rel :
  rewritten rel = (before ++ P) ++ q :: rel ++ q' :: after.
Proof.
  unfold rewritten. norm_app. reflexivity.
Qed.

Lemma before_prefix_free : quote_free (before ++ P).
Proof.
  apply quote_free_app. split; [done|by apply import_prefix_quote_free].
Qed.

Lemma tail_one_quote (X : str) :
  quote_free X -> count_quotes (X ++ q' :: after) <= 1.
Proof.
  intros HX. rewrite count_quotes_app, count_quotes_cons, close_quote.
  apply count_quotes_free in HX, after_free. lia.
Qed.

Lemma reference_tail_free :
  quote_free ((py "@ankaa/" ++ package) ++ slash :: sub).
Proof.
  apply quote_free_app. split.
  - apply quote_free_app. split; [apply scope_quote_free|].
    by apply packages_quote_free.
  - by constructor.
Qed.

(** No match starts in the text before the reference. *)
Lemma no_match_before k (R : str) i n g :
  count_quotes R <= 1 -> i < length before ->
  match_at (ReplaceImportsDeep.pattern k)
    (drop i ((before ++ P) ++ q :: R)) = Some (n, g) ->
  False.
Proof.
  intros HR Hi Hm.
  apply deep_match_after_first_quote in Hm as (_ & Hpre & _);
    [|apply before_prefix_free|done..].
  rewrite drop_app_le in Hpre by lia.
  apply (import_prefix_suffix (drop i before) P) in Hpre; [|done].
  apply (f_equal length) in Hpre. rewrite length_drop in Hpre.
  simpl in Hpre. lia.
Qed.

(** The content holds exactly one match for the package: the reference. *)
Lemma finditer_referring :
  finditer (ReplaceImportsDeep.pattern package) referring
  = [mkMatch (length before) reference
       [(3, [q']); (2, slash :: sub); (1, P ++ [q])]].
Proof.
  unfold finditer.
  assert (Hcut : referring = before ++ (reference ++ after)) by done.
  rewrite Hcut.
  rewrite finditer_from_app.
  - assert (Href : reference ++ after
                   = P ++ q :: (py "@ankaa/" ++ package)
                       ++ slash :: sub ++ q' :: after).
    { unfold reference. norm_app. reflexivity. }
    rewrite (finditer_from_match _ _ _ (length reference)
               [(3, [q']); (2, slash :: sub); (1, P ++ [q])]).
    + rewrite take_app_length, drop_app_length.
      rewrite finditer_from_none; [done|].
      intros i. by apply match_needs_quote.
    + rewrite Href. by apply deep_match_at_reference.
    + unfold reference. rewrite length_app. simpl. lia.
  - intros i Hi.
    destruct (match_at _ _) as [[n g]|] eqn:Hm; [exfalso|done].
    rewrite <- Hcut, referring_cut in Hm.
    eapply no_match_before; [|exact Hi|exact Hm].
    rewrite app_comm_cons, app_assoc. apply tail_one_quote.
    apply reference_tail_free.
Qed.

(** It holds no match for any other configured package. *)
Lemma finditer_referring_other k :
  k ∈ @PACKAGES -> k <> package ->
  finditer (ReplaceImportsDeep.pattern k) referring = [].
Proof.
  intros Hk Hne. apply finditer_none. intros i.
  destruct (match_at _ _) as [[n g]|] eqn:Hm; [exfalso|done].
  rewrite referring_cut in Hm.
  apply deep_match_after_first_quote in Hm
    as (_ & _ & S & q2 & rest & HS & Hq2 & Heq);
    [|apply before_prefix_free|done|].
  - rewrite <- !app_assoc in Heq. apply app_inv_head in Heq.
    assert (Hq2s : is_sep q2 = true)
      by (unfold is_sep; rewrite Hq2; apply orb_true_r).
    destruct HS as [->|(S' & -> & _ & _)]; simpl in Heq.
    + apply first_cut with (sep := is_sep) in Heq as (Heq & _ & _);
        [congruence|by apply packages_sep_free..|done|done].
    + apply first_cut with (sep := is_sep) in Heq as (Heq & _ & _);
        [congruence|by apply packages_sep_free..|done|done].
  - rewrite app_comm_cons, app_assoc. apply tail_one_quote.
    apply reference_tail_free.
Qed.

(** Once rewritten to a path that begins with a full stop and has no
    quote, it holds no match at all. *)
Lemma finditer_rewritten k (rel : str) :
  quote_free rel -> startswith [dot] rel = true ->
  finditer (ReplaceImportsDeep.pattern k) (rewritten rel) = [].
Proof.
  intros Hfree Hdot. apply startswith_spec in Hdot as [rel' ->].
  apply finditer_none. intros i.
  destruct (match_at _ _) as [[n g]|] eqn:Hm; [exfalso|done].
  rewrite rewritten_cut in Hm.
  apply deep_match_after_first_quote in Hm
    as (_ & _ & S & q2 & rest & _ & _ & Heq);
    [|apply before_prefix_free|done|by apply tail_one_quote].
  discriminate Heq.
Qed.

(** The reference does not occur further to the left. *)
Lemma reference_leftmost i :
  i < length before -> startswith reference (drop i referring) = false.
Proof.
  intros Hi. destruct (startswith _ _) eqn:Hs; [exfalso|done].
  apply startswith_spec in Hs as [s' Hs].
  rewrite referring_cut, drop_app_le in Hs by (rewrite length_app; lia).
  rewrite drop_app_le in Hs by lia.
  unfold reference in Hs. norm_app_in Hs.
  rewrite (app_assoc (drop i before) P) in Hs.
  apply first_cut with (sep := is_quote) in Hs as (Hs & _ & _);
    [| |by apply import_prefix_quote_free|done|done].
  - apply app_same_length_nil in Hs.
    apply (f_equal length) in Hs. rewrite length_drop in Hs.
    simpl in Hs. lia.
  - apply quote_free_app. split; [by apply Forall_drop|].
    by apply import_prefix_quote_free.
Qed.

(** The turn of the package puts the relative path in the place of the
    scoped name, between the same prefix and quotes. *)
Lemma deep_step_referring :
  deep_step file_path package referring
  = rewritten (ReplaceImportsDeep.get_relative_path file_path package
                 (lstrip slash sub)).
Proof.
  unfold deep_step. rewrite finditer_referring. cbn [foldl m_text].
  unfold ReplaceImportsDeep.new_text.
  cbn [m_caps expand group Nat.eqb default from_option]. unfold id.
  rewrite nonempty_cons.
  change (lstrip slash (slash :: sub)) with (lstrip slash sub).
  assert (Hrel : (if nonempty (lstrip slash sub)
                  then ReplaceImportsDeep.get_relative_path file_path package
                         (lstrip slash sub)
                  else ReplaceImportsDeep.get_relative_path file_path package
                         [])
                 = ReplaceImportsDeep.get_relative_path file_path package
                     (lstrip slash sub)).
  { by destruct (lstrip slash sub). }
  rewrite Hrel.
  unfold referring. rewrite replace_first_at by apply reference_leftmost.
  unfold rewritten. norm_app. reflexivity.
Qed.
End OneReference.

(** A content made of one reference with a sub-path to a configured
    package, in text without quotes, is rewritten in that one place: the
    scoped name gives way to the relative path, and the prefix and the
    quotes stay. *)
Lemma reference_rewritten cwd file_path package before after P sub q q' :
  package ∈ @PACKAGES ->
  quote_free before -> quote_free after ->
  import_prefix P -> is_quote q = true -> is_quote q' = true ->
  sub <> [] -> quote_free sub ->
  @ReplaceImportsDeep.rewrite_content (posix cwd) file_path
    (referring package before after P sub q q')
  = (rewritten before after P q q'
       (@ReplaceImportsDeep.get_relative_path (posix cwd) file_path package
          (lstrip slash sub)),
     1).
Proof.
  intros Hpk Hb Ha HP Hq Hq' Hsub Hfree.
  rewrite (@deep_rewrite_content_turns (posix cwd)). cbv zeta.
  destruct (posix_relative_path_shape cwd file_path package
              (lstrip slash sub) Hpk (lstrip_quote_free _ _ Hfree))
    as [Hrel Hdot].
  destruct (turns_single (@ReplaceImportsDeep.pattern)
              (@deep_step (posix cwd) file_path) (@PACKAGES) package
              (referring package before after P sub q q')
              (rewritten before after P q q'
                 (@ReplaceImportsDeep.get_relative_path (posix cwd) file_path
                    package (lstrip slash sub))))
    as [Hc Hn].
  - intros k c0. apply (@deep_step_no_match (posix cwd)).
  - done.
  - intros k Hk Hne. by apply (@finditer_referring_other unix).
  - intros k _. by apply (@finditer_rewritten unix).
  - by rewrite (@finditer_referring unix).
  - by apply (@deep_step_referring (posix cwd)).
  - by rewrite Hc, Hn.
Qed.

(** A dynamic import of a configured package with a sub-path, in text
    without quotes, is rewritten by the deep script; the path put in
    place of the scoped name is the one a static [from] import of the same
    package and sub-path gets, and the [import(] prefix and the two
    quotes stay as they were. *)
Lemma dynamic_import_rewritten cwd file_path package sub before after
    q q' W1 W2 W :
  package ∈ @PACKAGES ->
  quote_free before -> quote_free after ->
  is_quote q = true -> is_quote q' = true ->
  sub <> [] -> quote_free sub ->
  whitespace W1 -> whitespace W2 -> W <> [] -> whitespace W ->
  let rel :=
    @ReplaceImportsDeep.get_relative_path (posix cwd) file_path package
      (lstrip slash sub) in
  let scoped := py "@ankaa/" ++ package ++ slash :: sub in
  @ReplaceImportsDeep.rewrite_content (posix cwd) file_path
    (before ++ py "import" ++ W1 ++ py "(" ++ W2 ++ q :: scoped ++ q' :: after)
  = (before ++ py "import" ++ W1 ++ py "(" ++ W2 ++ q :: rel ++ q' :: after, 1)
  /\ @ReplaceImportsDeep.rewrite_content (posix cwd) file_path
       (before ++ py "from" ++ W ++ q :: scoped ++ q' :: after)
     = (before ++ py "from" ++ W ++ q :: rel ++ q' :: after, 1).
Proof.
  intros Hpk Hb Ha Hq Hq' Hsub Hfree Hw1 Hw2 HW Hws rel scoped.
  pose proof (reference_rewritten cwd file_path package before after
                (py "import" ++ W1 ++ py "(" ++ W2) sub q q' Hpk Hb Ha
                (PrefixImport W1 W2 Hw1 Hw2) Hq Hq' Hsub Hfree) as Hdyn.
  pose proof (reference_rewritten cwd file_path package before after
                (py "from" ++ W) sub q q' Hpk Hb Ha
                (PrefixFrom W HW Hws) Hq Hq' Hsub Hfree) as Hsta.
  unfold referring, reference, rewritten in Hdyn, Hsta.
  fold rel in Hdyn, Hsta.
  norm_app_in Hdyn. norm_app_in Hsta.
  unfold scoped. norm_app. split; [exact Hdyn|exact Hsta].
Qed.

(** replace-imports.py, whose pattern knows the [from] form and the bare
    package only, leaves a dynamic import as it is. *)
Example simple_script_ignores_dynamic_import :
  @ReplaceImports.rewrite_content unix button
    (py "const m = await import('@ankaa/types');")
  = (py "const m = await import('@ankaa/types');", 0).
Proof. vm_compute. reflexivity. Qed.

(** A second run over a content made of one reference, once rewritten,
    finds no match and changes nothing. *)
Lemma second_run_finds_nothing cwd file_path package before after P sub q q' :
  package ∈ @PACKAGES ->
  quote_free before -> quote_free after ->
  import_prefix P -> is_quote q = true -> is_quote q' = true ->
  sub <> [] -> quote_free sub ->
  @ReplaceImportsDeep.rewrite_content (posix cwd) file_path
    (@ReplaceImportsDeep.rewrite_content (posix cwd) file_path
       (referring package before after P sub q q')).1
  = ((@ReplaceImportsDeep.rewrite_content (posix cwd) file_path
        (referring package before after P sub q q')).1, 0).
Proof.
  intros Hpk Hb Ha HP Hq Hq' Hsub Hfree.
  rewrite reference_rewritten by done. cbn [fst].
  apply (@deep_unreferenced (posix cwd)).
  apply Forall_of_elem. intros k _.
  destruct (posix_relative_path_shape cwd file_path package
              (lstrip slash sub) Hpk (lstrip_quote_free _ _ Hfree))
    as [Hrel Hdot].
  by apply (@finditer_rewritten unix).
Qed.

(** * Further properties *)

(** ** What the rewriter reports and what it has done *)

(** The report of an outcome agrees with its effect: on [true] the
    file, which held [c], holds the rewritten text and the count is at
    least one; on [false] the count is zero and no entry changed. *)
Definition reports_change (rewrite : str -> str * nat) (file_path : Path)
    (w : world) (result : (bool * nat) * world) : Prop :=
  (result.1.1 = true ->
   1 <= result.1.2
   /\ exists c,
        fs w !! file_path = Some (File (Some c) true)
        /\ (rewrite c).1 <> c
        /\ result.1.2 = (rewrite c).2
        /\ fs result.2
           = <[file_path := File (Some (rewrite c).1) true]> (fs w))
  /\ (result.1.1 = false -> result.1.2 = 0 /\ fs result.2 = fs w).

Lemma outcome_reports_change rewrite file_path w :
  (forall c, (rewrite c).1 <> c -> 0 < (rewrite c).2) ->
  reports_change rewrite file_path w (outcome rewrite file_path w).
Proof.
  intros Hcount. unfold reports_change, outcome.
  destruct (fs w !! file_path) as [[|[c|] wr]|] eqn:Hm; simpl; try done.
  destruct (negb (str_eqb (rewrite c).1 c)) eqn:Hne; simpl; [|done].
  apply str_eqb_neq in Hne.
  destruct wr; simpl; [|done].
  split; [|done]. intros _. split; [by apply Hcount|].
  by exists c.
Qed.

(** What the pair that a rewriter returns tells about the run: [true]
    comes with a count of at least one, after the file was read, its text
    found to change under the rewriting and the file opened for writing,
    nothing being printed, and the entry of the file then differs from
    what it was; [false] comes with a count of zero, and when the file
    was not opened for writing no entry has changed.  The entries of the
    other paths never change. *)
Definition flag_tells (rewrite : str -> str * nat) (file_path : Path)
    (w : world) (result : (bool * nat) * world) : Prop :=
  (result.1.1 = true ->
   1 <= result.1.2
   /\ (exists c,
         fs w !! file_path = Some (File (Some c) true)
         /\ (rewrite c).1 <> c
         /\ result.1.2 = (rewrite c).2)
   /\ events_since w result.2
      = [Opened file_path ModeR; Opened file_path ModeW]
   /\ fs result.2 !! file_path <> fs w !! file_path)
  /\ (result.1.1 = false ->
      result.1.2 = 0
      /\ (Opened file_path ModeW ∉ events_since w result.2 ->
          fs result.2 = fs w))
  /\ forall q, q <> file_path -> fs result.2 !! q = fs w !! q.

Lemma outcome_flag_tells rewrite file_path w :
  (forall c, (rewrite c).1 <> c -> 0 < (rewrite c).2) ->
  flag_tells rewrite file_path w (outcome rewrite file_path w).
Proof.
  intros Hcount. unfold flag_tells, outcome, events_since.
  destruct (fs w !! file_path) as [[|[c|] wr]|] eqn:Hm; cbn [fst snd fs trace].
  all: try (split; [done|]; split; [done|]; intros q _; done).
  destruct (negb (str_eqb (rewrite c).1 c)) eqn:Hne; cbn [fst snd fs trace];
    [|split; [done|]; split; [done|]; intros q _; done].
  apply str_eqb_neq in Hne.
  destruct wr; cbn [fst snd fs trace].
  - split; [|split; [done|]].
    + intros _. split; [by apply Hcount|]. split; [by exists c|].
      split; [by rewrite drop_app_length|].
      rewrite lookup_insert_eq. congruence.
    + intros q Hq. by rewrite lookup_insert_ne.
  - split; [done|]. split; [|intros q _; done].
    intros _. split; [done|]. intros Hno. exfalso. apply Hno.
    rewrite drop_app_length. elem_found.
Qed.

(** X1: A rewriter returns [(True, n)] only with [n] at least 1, after it
    has read the file, found that the rewriting changes its text, and
    opened the file for writing, without printing anything; the entry of
    the file then differs from what it was.  Otherwise it returns
    [(False, 0)], and if it has not opened the file for writing no file
    has changed, so that a missing file is never created.  Whatever it
    returns, no other file has changed. *)
Theorem modified_flag_tells_change `{OsPath} file_path w :
  flag_tells (ReplaceImports.rewrite_content file_path) file_path w
    (run (ReplaceImports.replace_imports_in_file file_path) w)
  /\ flag_tells (ReplaceImportsDeep.rewrite_content file_path) file_path w
       (run (ReplaceImportsDeep.replace_deep_imports_in_file file_path) w).
Proof.
  split.
  - rewrite replace_imports_in_file_outcome.
    apply outcome_flag_tells. apply simple_changed_count.
  - rewrite replace_deep_imports_in_file_outcome.
    apply outcome_flag_tells. apply deep_changed_count.
Qed.

(** What a rewriter does when the file cannot be read. *)
Definition read_failure (file_path : Path) (w : world)
    (result : (bool * nat) * world) : Prop :=
  result.1 = (false, 0)
  /\ fs result.2 = fs w
  /\ trace result.2
     = trace w ++ [Opened file_path ModeR; Printed (ErrorReading file_path)].

(** X2: When the file cannot be read (it is missing, a directory, or its
    content cannot be decoded), both rewriters print one error line for
    it, return [(false, 0)] and do not open it for writing. *)
Theorem unreadable_file_reported `{OsPath} file_path w :
  (forall content writable,
     fs w !! file_path <> Some (File (Some content) writable)) ->
  read_failure file_path w
    (run (ReplaceImports.replace_imports_in_file file_path) w)
  /\ read_failure file_path w
       (run (ReplaceImportsDeep.replace_deep_imports_in_file file_path) w).
Proof.
  intros Hno.
  rewrite replace_imports_in_file_outcome,
    replace_deep_imports_in_file_outcome.
  unfold read_failure, outcome.
  destruct (fs w !! file_path) as [[|[c|] wr]|] eqn:Hm; simpl; try done.
  by destruct (Hno c wr).
Qed.

Lemma unreadable_file_reported_witness :
  read_failure button (world_of [])
    (run (@ReplaceImports.replace_imports_in_file unix button) (world_of []))
  /\ read_failure button (world_of [])
       (run (@ReplaceImportsDeep.replace_deep_imports_in_file unix button)
          (world_of [])).
Proof.
  apply (@unreadable_file_reported unix button (world_of [])).
  intros content writable. unfold world_of. simpl.
  rewrite lookup_empty. discriminate.
Defined.

(** ** What a walk opens, changes and counts *)

(** The counts of the per-file lines among the events [es]. *)
Definition replaced_counts (es : list event) : list nat :=
  omap (fun e => match e with
                 | Printed (Replaced _ n) => Some n
                 | _ => None
                 end) es.

Lemma replaced_counts_app (a b : list event) :
  replaced_counts (a ++ b) = replaced_counts a ++ replaced_counts b.
Proof. apply omap_app. Qed.

(** What an outcome adds to the record, and what it reports. *)
Lemma outcome_events rewrite file_path w r w' :
  (forall c, (rewrite c).1 <> c -> 0 < (rewrite c).2) ->
  outcome rewrite file_path w = (r, w') ->
  (r.1 = true -> 1 <= r.2)
  /\ (forall q, q <> file_path -> fs w' !! q = fs w !! q)
  /\ (forall q, file_in w' q = file_in w q)
  /\ exists es, trace w' = trace w ++ es
       /\ replaced_counts es = []
       /\ forall q m, Opened q m ∈ es -> q = file_path.
Proof.
  intros Hcount Ho.
  pose proof (outcome_reports_change rewrite file_path w Hcount) as [Ht _].
  rewrite Ho in Ht. simpl in Ht.
  split; [intros Hr; by destruct (Ht Hr)|].
  destruct (outcome_frame _ _ _ _ _ Ho) as (Hfs & Hkind & _).
  do 2 (split; [done|]).
  unfold outcome in Ho.
  destruct (fs w !! file_path) as [[|[c|] wr]|].
  all: try destruct (negb _).
  all: try destruct wr.
  all: simplify_eq; simpl.
  all: eexists; split; [reflexivity|]; split; [done|].
  all: intros q m Hin.
  all: repeat (apply elem_of_cons in Hin as [Hin|Hin]; [congruence|]).
  all: by apply elem_of_nil in Hin.
Qed.

Lemma candidates_ext w w' files :
  (forall q, file_in w' q = file_in w q) ->
  candidates w' files = candidates w files.
Proof.
  intros Hkind. unfold candidates. apply filter_ext_in_iff.
  intros q _. by rewrite Hkind.
Qed.

(** What a walk has done when it ends, whether it returns the statistics
    or raises. *)
Definition accounted `{OsPath} (files : list Path) (stats : Stats) (w : world)
    (result : raises Stats * world) : Prop :=
  exists es,
    trace result.2 = trace w ++ es
    /\ (forall q m, Opened q m ∈ es -> q ∈ candidates w files)
    /\ (forall q, q ∉ candidates w files -> fs result.2 !! q = fs w !! q)
    /\ (forall q, file_in result.2 q = file_in w q)
    /\ Forall (fun n => 1 <= n) (replaced_counts es)
    /\ length (replaced_counts es) <= length (candidates w files)
    /\ forall stats', result.1 = Returns stats' ->
         files_processed stats'
         = files_processed stats + length (candidates w files)
         /\ files_modified stats'
            = files_modified stats + length (replaced_counts es)
         /\ total_replacements stats'
            = total_replacements stats + sum_list (replaced_counts es).

Section Account.
Context `{OsPath}.
Variable rewriter : Path -> io (bool * nat).
Variable rewrite : Path -> str -> str * nat.
Hypothesis rewriter_outcome :
  forall file_path w,
    run (rewriter file_path) w = outcome (rewrite file_path) file_path w.
Hypothesis rewrite_counts :
  forall file_path c,
    (rewrite file_path c).1 <> c -> 0 < (rewrite file_path c).2.

Lemma accounted_skip f rest stats w result :
  (negb (excluded f) && file_in w f) = false ->
  accounted rest stats w result -> accounted (f :: rest) stats w result.
Proof.
  intros Hf. unfold accounted, candidates. cbn [List.filter]. by rewrite Hf.
Qed.

Lemma walk_accounted files : forall stats w,
  accounted files stats w (run (walk rewriter files stats) w).
Proof.
  induction files as [|f rest IH]; intros stats w.
  - exists []. simpl. rewrite app_nil_r.
    split; [done|]. split; [intros q m Hin; by apply elem_of_nil in Hin|].
    do 2 (split; [done|]). split; [constructor|]. split; [done|].
    intros stats' [= <-]. lia.
  - unfold run. cbn [walk].
    destruct (excluded f) eqn:Hex.
    { apply accounted_skip; [by rewrite Hex|]. apply IH. }
    unfold bind at 1. unfold is_file at 1. fold (file_in w f).
    destruct (file_in w f) eqn:Hfile; cbn [negb].
    2:{ apply accounted_skip; [by rewrite Hex, Hfile|]. apply IH. }
    assert (Hcand : candidates w (f :: rest) = f :: candidates w rest).
    { unfold candidates. cbn [List.filter]. by rewrite Hex, Hfile. }
    unfold bind at 1.
    pose proof (rewriter_outcome f w) as Ho. unfold run in Ho.
    destruct (rewriter f w) as [[modified count] w1] eqn:Hrw.
    symmetry in Ho.
    apply outcome_events in Ho
      as (Hn & Hfs & Hkind & es1 & Htr & Hrep & Hopen); [|by apply rewrite_counts].
    pose proof (candidates_ext w w1 rest Hkind) as Hc1.
    simpl in Hn.
    destruct modified.
    + destruct (relative_to f WEB_DIR) as [rel_file|].
      * unfold bind at 1, print, emit.
        set (w2 := {| fs := fs w1;
                      trace := trace w1 ++ [Printed (Replaced rel_file count)] |}).
        set (stats2 := mkStats _ _ _ _).
        destruct (IH stats2 w2)
          as (es2 & Htr' & Hopen' & Hfs' & Hkind' & Hall & Hlen & Hstats).
        unfold run in Htr', Hfs', Hkind', Hstats.
        assert (Hc2 : candidates w2 rest = candidates w rest).
        { rewrite <- Hc1. by apply candidates_ext. }
        rewrite Hc2 in *.
        exists (es1 ++ [Printed (Replaced rel_file count)] ++ es2).
        rewrite Hcand, !replaced_counts_app, Hrep.
        change (replaced_counts [Printed (Replaced rel_file count)])
          with [count].
        cbn [app].
        split; [rewrite Htr'; unfold w2; simpl; rewrite Htr;
                by rewrite <- !app_assoc|].
        split.
        { intros q m Hin. apply elem_of_app in Hin as [Hin|Hin].
          - apply Hopen in Hin as ->. by left.
          - apply elem_of_cons in Hin as [Hin|Hin]; [done|].
            right. by eapply Hopen'. }
        split.
        { intros q Hq. apply not_elem_of_cons in Hq as [Hqf Hq].
          rewrite Hfs' by done. unfold w2; simpl. by apply Hfs. }
        split; [intros q; rewrite Hkind'; unfold file_in, w2; simpl;
                apply Hkind|].
        split; [constructor; [by apply Hn|done]|].
        split; [simpl; lia|].
        intros stats' Hr. destruct (Hstats _ Hr) as (H1 & H2 & H3).
        rewrite H1, H2, H3. unfold stats2. simpl. lia.
      * exists es1. rewrite Hcand, Hrep. simpl.
        split; [done|].
        split; [intros q m Hin; apply Hopen in Hin as ->; by left|].
        split; [intros q Hq; apply not_elem_of_cons in Hq as [Hqf _];
                by apply Hfs|].
        split; [done|]. split; [constructor|]. split; [lia|]. done.
    + set (stats2 := mkStats _ _ _ _).
      destruct (IH stats2 w1)
        as (es2 & Htr' & Hopen' & Hfs' & Hkind' & Hall & Hlen & Hstats).
      unfold run in Htr', Hfs', Hkind', Hstats.
      rewrite Hc1 in *.
      exists (es1 ++ es2).
      rewrite Hcand, !replaced_counts_app, Hrep. cbn [app].
      split; [rewrite Htr', Htr; by rewrite <- !app_assoc|].
      split.
      { intros q m Hin. apply elem_of_app in Hin as [Hin|Hin].
        - apply Hopen in Hin as ->. by left.
        - right. by eapply Hopen'. }
      split.
      { intros q Hq. apply not_elem_of_cons in Hq as [Hqf Hq].
        rewrite Hfs' by done. by apply Hfs. }
      split; [intros q; by rewrite Hkind'|].
      split; [done|]. split; [simpl; lia|].
      intros stats' Hr. destruct (Hstats _ Hr) as (H1 & H2 & H3).
      rewrite H1, H2, H3. unfold stats2. simpl. lia.
Qed.
End Account.

(** A path the run has opened or whose entry it has changed. *)
Definition touched (q : Path) (w w' : world) : Prop :=
  (exists m, Opened q m ∈ events_since w w') \/ fs w' !! q <> fs w !! q.

(** A regular file below [directory] whose name matches [*.ts*] and whose
    path has no excluded segment. *)
Definition source_file `{OsPath} (directory : Path) (w : world) (q : Path)
    : Prop :=
  below directory q = true /\ matches_ts (name q) = true
  /\ excluded q = false /\ file_in w q = true.

Lemma candidates_source_file `{OsPath} directory w q :
  q ∈ candidates w (run (rglob directory) w).1 -> source_file directory w q.
Proof.
  unfold candidates, rglob, run. simpl. intros Hin.
  apply list_elem_of_In, filter_In in Hin as [Hin Hc].
  apply filter_In in Hin as [_ Hb].
  apply andb_true_iff in Hc as [Hex Hfile].
  apply andb_true_iff in Hb as [Hb Hts].
  apply negb_true_iff in Hex. done.
Qed.

Lemma accounted_touched `{OsPath} files stats w result q :
  accounted files stats w result ->
  touched q w result.2 -> q ∈ candidates w files.
Proof.
  intros (es & Htr & Hopen & Hfs & _) [[m Hm]|Hne].
  - unfold events_since in Hm. rewrite Htr, drop_app_length in Hm.
    by eapply Hopen.
  - destruct (decide (q ∈ candidates w files)) as [|Hq]; [done|].
    by destruct Hne; apply Hfs.
Qed.

(** X3: [process_directory] opens and changes nothing but regular files below
    the directory whose name matches [*.ts*] and whose path has no
    [node_modules] or [.git] segment: directories with a matching name,
    files with another name and everything outside the directory are
    neither opened nor changed. *)
Theorem only_source_files_touched `{OsPath} directory w q :
  (touched q w (run (ReplaceImports.process_directory directory) w).2
   \/ touched q w (run (ReplaceImportsDeep.process_directory directory) w).2)
  -> source_file directory w q.
Proof.
  intros [Ht|Ht]; apply candidates_source_file;
    [rewrite simple_process_directory in Ht
    |rewrite deep_process_directory in Ht];
    eapply accounted_touched; [|exact Ht| |exact Ht];
    eapply walk_accounted.
  - apply replace_imports_in_file_outcome.
  - apply simple_changed_count.
  - apply replace_deep_imports_in_file_outcome.
  - apply deep_changed_count.
Qed.

Lemma only_source_files_touched_witness :
  @source_file unix (@SRC_DIR unix) vendored_world button.
Proof.
  apply (@only_source_files_touched unix (@SRC_DIR unix) vendored_world
           button).
  left. right. vm_compute. discriminate.
Defined.

Lemma sum_list_at_least (l : list nat) :
  Forall (fun n => 1 <= n) l -> length l <= sum_list l.
Proof. induction 1; simpl; lia. Qed.

(** The figures of the statistics against what the walk has done and
    printed. *)
Definition figures_agree `{OsPath} (files : list Path) (w : world)
    (stats : Stats) (w' : world) : Prop :=
  files_processed stats = length (candidates w files)
  /\ files_modified stats = length (replaced_counts (events_since w w'))
  /\ total_replacements stats = sum_list (replaced_counts (events_since w w'))
  /\ files_modified stats <= files_processed stats
  /\ files_modified stats <= total_replacements stats
  /\ errors stats = [].

Lemma accounted_figures `{OsPath} files w result stats :
  accounted files (mkStats 0 0 0 []) w result ->
  result.1 = Returns stats ->
  errors stats = [] ->
  figures_agree files w stats result.2.
Proof.
  intros (es & Htr & _ & _ & _ & Hall & Hlen & Hstats) Hr He.
  destruct (Hstats _ Hr) as (H1 & H2 & H3). simpl in *.
  unfold figures_agree, events_since. rewrite Htr, drop_app_length.
  pose proof (sum_list_at_least _ Hall).
  repeat split; (done || lia).
Qed.

(** X4: When [process_directory] returns, [files_processed] is the number of
    source files it found, [files_modified] the number of per-file lines
    it printed and [total_replacements] the sum of the counts on those
    lines; no more files are modified than processed, every modified file
    accounts for at least one replacement, and the error list is empty. *)
Theorem statistics_agree `{OsPath} directory w :
  (forall stats,
     (run (ReplaceImports.process_directory directory) w).1 = Returns stats ->
     figures_agree (run (rglob directory) w).1 w stats
       (run (ReplaceImports.process_directory directory) w).2)
  /\ (forall stats,
        (run (ReplaceImportsDeep.process_directory directory) w).1
        = Returns stats ->
        figures_agree (run (rglob directory) w).1 w stats
          (run (ReplaceImportsDeep.process_directory directory) w).2).
Proof.
  destruct (process_directory_errors_empty directory w) as [He1 He2].
  split; intros stats Hr.
  - specialize (He1 _ Hr). rewrite simple_process_directory in *.
    apply accounted_figures; [|done|done].
    apply walk_accounted with (rewrite := ReplaceImports.rewrite_content).
    + apply replace_imports_in_file_outcome.
    + apply simple_changed_count.
  - specialize (He2 _ Hr). rewrite deep_process_directory in *.
    apply accounted_figures; [|done|done].
    apply walk_accounted with (rewrite := ReplaceImportsDeep.rewrite_content).
    + apply replace_deep_imports_in_file_outcome.
    + apply deep_changed_count.
Qed.

Lemma statistics_agree_witness :
  @figures_agree unix (run (@rglob (@SRC_DIR unix)) vendored_world).1
    vendored_world (mkStats 1 1 1 [])
    (run (@ReplaceImports.process_directory unix (@SRC_DIR unix))
       vendored_world).2.
Proof.
  apply (proj1 (@statistics_agree unix (@SRC_DIR unix) vendored_world)).
  vm_compute. reflexivity.
Defined.

#[global] Instance node_eq_dec : EqDecision node.
Proof. solve_decision. Defined.

(** The paths of [files] whose entry differs between [w] and [w']. *)
Definition changed (w w' : world) (files : list Path) : list Path :=
  List.filter (fun q => bool_decide (fs w' !! q <> fs w !! q)) files.

Lemma changed_ext w0 w w' files :
  (forall q, q ∈ files -> fs w0 !! q = fs w !! q) ->
  changed w0 w' files = changed w w' files.
Proof.
  intros Hsame. unfold changed. apply filter_ext_in_iff. intros q Hq.
  apply list_elem_of_In in Hq. by rewrite (Hsame q Hq).
Qed.

Lemma candidates_subset `{OsPath} w files q :
  q ∈ candidates w files -> q ∈ files.
Proof.
  unfold candidates. intros Hq.
  apply list_elem_of_In, filter_In in Hq as [Hq _].
  by apply list_elem_of_In.
Qed.

Section Changed.
Context `{OsPath}.
Variable rewriter : Path -> io (bool * nat).
Variable rewrite : Path -> str -> str * nat.
Hypothesis rewriter_outcome :
  forall file_path w,
    run (rewriter file_path) w = outcome (rewrite file_path) file_path w.
Hypothesis rewrite_counts :
  forall file_path c,
    (rewrite file_path c).1 <> c -> 0 < (rewrite file_path c).2.

Lemma walk_rest_frame rest stats w f :
  f ∉ rest ->
  fs (run (walk rewriter rest stats) w).2 !! f = fs w !! f.
Proof.
  intros Hf.
  destruct (walk_accounted rewriter rewrite rewriter_outcome rewrite_counts
              rest stats w) as (_ & _ & _ & Hfs & _).
  apply Hfs. intros Hin. by apply candidates_subset in Hin.
Qed.

Lemma walk_changed files : forall stats w stats',
  NoDup files ->
  (run (walk rewriter files stats) w).1 = Returns stats' ->
  files_modified stats'
  = files_modified stats
    + length (changed w (run (walk rewriter files stats) w).2 files).
Proof.
  induction files as [|f rest IH]; intros stats w stats' Hnd Hr.
  - simpl in Hr. injection Hr as <-. simpl. lia.
  - inversion Hnd as [|? ? Hf Hnd']; subst. clear Hnd. rename Hnd' into Hnd.
    assert (Hskip :
      (walk rewriter rest stats w).1 = Returns stats' ->
      files_modified stats'
      = files_modified stats
        + length (changed w (walk rewriter rest stats w).2 (f :: rest))).
    { intros Hr'. rewrite (IH _ _ _ Hnd Hr').
      unfold changed at 2. cbn [List.filter].
      pose proof (walk_rest_frame rest stats w f Hf) as Hkeep.
      unfold run in *. rewrite Hkeep.
      rewrite bool_decide_eq_false_2 by (intros Hne; by apply Hne). done. }
    unfold run in *. cbn [walk] in Hr |- *.
    destruct (excluded f) eqn:Hex; [by apply Hskip|].
    unfold bind at 1 in Hr. unfold bind at 1.
    unfold is_file at 1 in Hr. unfold is_file at 1.
    fold (file_in w f) in Hr |- *.
    destruct (file_in w f) eqn:Hfile; cbn [negb] in Hr |- *;
      [|by apply Hskip].
    clear Hskip.
    unfold bind at 1 in Hr. unfold bind at 1.
    pose proof (rewriter_outcome f w) as Ho. unfold run in Ho.
    pose proof (outcome_reports_change (rewrite f) f w (rewrite_counts f))
      as [Htrue Hfalse].
    rewrite <- Ho in Htrue, Hfalse.
    destruct (rewriter f w) as [[modified count] w1] eqn:Hrw.
    simpl in Htrue, Hfalse.
    destruct modified.
    + destruct (Htrue eq_refl) as (_ & c & Hold & Hne & _ & Hnew).
      destruct (relative_to f WEB_DIR) as [rel_file|]; [|done].
      unfold bind at 1, print, emit in Hr. unfold bind at 1, print, emit.
      set (w2 := {| fs := fs w1;
                    trace := trace w1 ++ [Printed (Replaced rel_file count)] |})
        in *.
      set (stats2 := mkStats _ _ _ _) in *.
      rewrite (IH _ _ _ Hnd Hr).
      pose proof (walk_rest_frame rest stats2 w2 f Hf) as Hkeep.
      unfold run in Hkeep.
      unfold changed at 2. cbn [List.filter].
      assert (Hw2 : fs w2 = fs w1) by reflexivity.
      rewrite Hkeep, Hw2, Hnew, lookup_insert_eq, Hold.
      rewrite bool_decide_eq_true_2 by (intros [= Heq]; by apply Hne).
      fold (changed w (walk rewriter rest stats2 w2).2 rest).
      rewrite (changed_ext w2 w).
      * unfold stats2. simpl. lia.
      * intros q Hq. rewrite Hw2, Hnew.
        apply lookup_insert_ne. by intros ->.
    + destruct (Hfalse eq_refl) as [_ Hsame].
      set (stats2 := mkStats _ _ _ _) in *.
      rewrite (IH _ _ _ Hnd Hr).
      pose proof (walk_rest_frame rest stats2 w1 f Hf) as Hkeep.
      unfold run in Hkeep.
      unfold changed at 2. cbn [List.filter].
      rewrite Hkeep, Hsame.
      rewrite bool_decide_eq_false_2 by (intros Hne; by apply Hne).
      rewrite (changed_ext w1 w) by (intros q _; by rewrite Hsame).
      unfold stats2, changed. simpl. lia.
Qed.

(** A walk raises only upon a file it has just rewritten and that does not
    lie under [WEB_DIR]: opening it for writing is the last thing
    recorded. *)
Lemma walk_raises files : forall stats w w',
  run (walk rewriter files stats) w = (RaisesValueError, w') ->
  exists f c es,
    f ∈ candidates w files
    /\ relative_to f WEB_DIR = RaisesValueError
    /\ fs w' !! f = Some (File (Some c) true)
    /\ trace w' = trace w ++ es ++ [Opened f ModeW].
Proof.
  induction files as [|f rest IH]; intros stats w w' Hr; [done|].
  unfold run in *. cbn [walk] in Hr.
  assert (Hskip : (negb (excluded f) && file_in w f) = false ->
                  candidates w (f :: rest) = candidates w rest).
  { intros Hf. unfold candidates. cbn [List.filter]. by rewrite Hf. }
  destruct (excluded f) eqn:Hex; [rewrite Hskip by done; by eapply IH|].
  unfold bind at 1 in Hr. unfold is_file at 1 in Hr.
  fold (file_in w f) in Hr.
  destruct (file_in w f) eqn:Hfile; cbn [negb] in Hr;
    [|rewrite Hskip by done; by eapply IH].
  clear Hskip.
  assert (Hcand : candidates w (f :: rest) = f :: candidates w rest).
  { unfold candidates. cbn [List.filter]. by rewrite Hex, Hfile. }
  rewrite Hcand.
  unfold bind at 1 in Hr.
  pose proof (rewriter_outcome f w) as Ho. unfold run in Ho.
  destruct (rewriter f w) as [[modified count] w1] eqn:Hrw.
  symmetry in Ho.
  pose proof Ho as Hev.
  apply outcome_events in Hev
    as (_ & _ & Hkind & es1 & Htr & _ & _); [|by apply rewrite_counts].
  pose proof (candidates_ext w w1 rest Hkind) as Hc1.
  destruct modified.
  - destruct (relative_to f WEB_DIR) as [rel_file|] eqn:Hrel.
    + unfold bind at 1, print, emit in Hr.
      destruct (IH _ _ _ Hr) as (g & c & es & Hg & Hgrel & Hfs & Hes).
      exists g, c, (es1 ++ [Printed (Replaced rel_file count)] ++ es).
      split; [right; by rewrite <- Hc1|]. split; [done|]. split; [done|].
      rewrite Hes. simpl. rewrite Htr. by rewrite <- !app_assoc.
    + unfold ret in Hr. injection Hr as <-. unfold outcome in Ho.
      destruct (fs w !! f) as [[|[c|] wr]|]; try done.
      destruct (negb _); [|done]. destruct wr; [|done].
      injection Ho as _ <-. simpl.
      exists f, (rewrite f c).1, [Opened f ModeR].
      split; [by left|]. split; [done|].
      split; [by rewrite lookup_insert_eq|done].
  - destruct (IH _ _ _ Hr) as (g & c & es & Hg & Hgrel & Hfs & Hes).
    exists g, c, (es1 ++ es).
    split; [right; by rewrite <- Hc1|]. split; [done|]. split; [done|].
    rewrite Hes, Htr. by rewrite <- !app_assoc.
Qed.
End Changed.

(** The entries of the file system of [w] that differ in [w']. *)
Definition changed_entries (w w' : world) : list Path :=
  changed w w' (fst <$> map_to_list (fs w)).

Lemma filter_filter_implied {A} (f g : A -> bool) (l : list A) :
  (forall x, x ∈ l -> f x = true -> g x = true) ->
  List.filter f (List.filter g l) = List.filter f l.
Proof.
  induction l as [|x l IH]; intros Himp; [done|].
  assert (IH' : List.filter f (List.filter g l) = List.filter f l).
  { apply IH. intros y Hy. apply Himp. by right. }
  simpl. destruct (g x) eqn:Hg; simpl.
  - by rewrite IH'.
  - destruct (f x) eqn:Hf; [|done].
    rewrite (Himp x) in Hg; [done|by left|done].
Qed.

Lemma NoDup_List_filter {A} (f : A -> bool) (l : list A) :
  NoDup l -> NoDup (List.filter f l).
Proof.
  induction 1 as [|x l Hx Hl IH]; simpl; [constructor|].
  destruct (f x); [|done]. constructor; [|done].
  intros Hin. apply Hx.
  apply list_elem_of_In, filter_In in Hin as [Hin _].
  by apply list_elem_of_In.
Qed.

Lemma rglob_NoDup directory w : NoDup (run (rglob directory) w).1.
Proof.
  unfold rglob, run. simpl. apply NoDup_List_filter.
  apply NoDup_fst_map_to_list.
Qed.

Lemma rglob_changed `{OsPath} directory w result stats :
  accounted (run (rglob directory) w).1 stats w result ->
  changed w result.2 (run (rglob directory) w).1
  = changed_entries w result.2.
Proof.
  intros Hacc. unfold changed_entries, changed, rglob, run. simpl.
  apply filter_filter_implied. intros q _ Hq.
  apply bool_decide_eq_true in Hq.
  assert (Hin : q ∈ candidates w (run (rglob directory) w).1).
  { eapply accounted_touched; [exact Hacc|]. by right. }
  apply candidates_subset in Hin. unfold rglob, run in Hin. simpl in Hin.
  apply list_elem_of_In, filter_In in Hin as [_ Hb]. done.
Qed.

(** [files_modified] is the number of entries that differ after the
    run. *)
Definition modified_are_changed (w : world) (result : raises Stats * world)
    : Prop :=
  forall stats,
    result.1 = Returns stats ->
    files_modified stats = length (changed_entries w result.2).

(** X5: When [process_directory] returns, the number of files it reports as
    modified is the number of files whose content differs from what it was
    before the run. *)
Theorem modified_files_are_the_changed_ones `{OsPath} directory w :
  modified_are_changed w (run (ReplaceImports.process_directory directory) w)
  /\ modified_are_changed w
       (run (ReplaceImportsDeep.process_directory directory) w).
Proof.
  split; intros stats Hr.
  - rewrite simple_process_directory in *.
    rewrite <- (rglob_changed directory w _ (mkStats 0 0 0 []))
      by (apply walk_accounted with (rewrite := ReplaceImports.rewrite_content);
          [apply replace_imports_in_file_outcome|apply simple_changed_count]).
    eapply (walk_changed _ ReplaceImports.rewrite_content
              replace_imports_in_file_outcome simple_changed_count
              _ (mkStats 0 0 0 [])); [apply rglob_NoDup|done].
  - rewrite deep_process_directory in *.
    rewrite <- (rglob_changed directory w _ (mkStats 0 0 0 []))
      by (apply walk_accounted
            with (rewrite := ReplaceImportsDeep.rewrite_content);
          [apply replace_deep_imports_in_file_outcome
          |apply deep_changed_count]).
    eapply (walk_changed _ ReplaceImportsDeep.rewrite_content
              replace_deep_imports_in_file_outcome deep_changed_count
              _ (mkStats 0 0 0 [])); [apply rglob_NoDup|done].
Qed.

Lemma modified_files_are_the_changed_ones_witness :
  files_modified (mkStats 1 1 1 [])
  = length (changed_entries vendored_world
              (run (@ReplaceImports.process_directory unix (@SRC_DIR unix))
                 vendored_world).2).
Proof.
  apply (proj1 (@modified_files_are_the_changed_ones unix (@SRC_DIR unix)
                  vendored_world)).
  vm_compute. reflexivity.
Defined.

(** ** A directory outside [WEB_DIR] *)

Section Outside.
Context `{OsPath}.
Variable rewriter : Path -> io (bool * nat).
Variable rewrite : Path -> str -> str * nat.
Hypothesis rewriter_outcome :
  forall file_path w,
    run (rewriter file_path) w = outcome (rewrite file_path) file_path w.

(** A walk over files of which none lies under [WEB_DIR] goes on as
    long as the rewriter changes nothing and stops at the first file that
    it overwrites. *)
Lemma walk_outside files : forall stats w r w',
  (forall f, f ∈ candidates w files ->
     relative_to f WEB_DIR = RaisesValueError) ->
  run (walk rewriter files stats) w = (r, w') ->
  exists es,
    trace w' = trace w ++ es
    /\ replaced_counts es = []
    /\ match r with
       | Returns stats' =>
           files_modified stats' = files_modified stats
           /\ total_replacements stats' = total_replacements stats
           /\ fs w' = fs w
       | RaisesValueError =>
           exists f c es',
             f ∈ candidates w files
             /\ fs w !! f = Some (File (Some c) true)
             /\ (rewrite f c).1 <> c
             /\ fs w' = <[f := File (Some (rewrite f c).1) true]> (fs w)
             /\ es = es' ++ [Opened f ModeW]
       end.
Proof.
  induction files as [|f rest IH]; intros stats w r w' Hout Hr.
  - unfold run in Hr. cbn [walk] in Hr. unfold ret in Hr.
    injection Hr as <- <-. exists []. by rewrite app_nil_r.
  - unfold run in *. cbn [walk] in Hr.
    assert (Hskip : (negb (excluded f) && file_in w f) = false ->
                    candidates w (f :: rest) = candidates w rest).
    { intros Hf. unfold candidates. cbn [List.filter]. by rewrite Hf. }
    destruct (excluded f) eqn:Hex.
    { rewrite Hskip in * by done. by eapply IH. }
    unfold bind at 1 in Hr. unfold is_file at 1 in Hr.
    fold (file_in w f) in Hr.
    destruct (file_in w f) eqn:Hfile; cbn [negb] in Hr;
      [|rewrite Hskip in * by done; by eapply IH].
    clear Hskip.
    assert (Hcand : candidates w (f :: rest) = f :: candidates w rest).
    { unfold candidates. cbn [List.filter]. by rewrite Hex, Hfile. }
    rewrite Hcand in *.
    unfold bind at 1 in Hr.
    pose proof (rewriter_outcome f w) as Ho. unfold run in Ho.
    destruct (rewriter f w) as [[modified count] w1] eqn:Hrw.
    symmetry in Ho.
    assert (Hcases :
      (modified = true
       /\ exists c, fs w !! f = Some (File (Some c) true)
            /\ (rewrite f c).1 <> c
            /\ w1 = mkWorld (<[f := File (Some (rewrite f c).1) true]> (fs w))
                      (trace w ++ [Opened f ModeR; Opened f ModeW]))
      \/ (modified = false /\ fs w1 = fs w
          /\ exists es1, trace w1 = trace w ++ es1
               /\ replaced_counts es1 = [])).
    { unfold outcome in Ho.
      destruct (fs w !! f) as [[|[c|] wr]|] eqn:Hm.
      - right. injection Ho as <- <- <-. split; [done|]. split; [done|].
        by eexists.
      - destruct (negb (str_eqb (rewrite f c).1 c)) eqn:Hne.
        + apply str_eqb_neq in Hne. destruct wr.
          * left. injection Ho as <- <- <-. split; [done|]. by exists c.
          * right. injection Ho as <- <- <-. split; [done|].
            split; [done|]. by eexists.
        + right. injection Ho as <- <- <-. split; [done|]. split; [done|].
          by eexists.
      - right. injection Ho as <- <- <-. split; [done|]. split; [done|].
        by eexists.
      - right. injection Ho as <- <- <-. split; [done|]. split; [done|].
        by eexists. }
    destruct Hcases as [(-> & c & Hm & Hne & ->)|(-> & Hfs & es1 & Htr & Hes1)].
    + rewrite (Hout f) in Hr by (by left). unfold ret in Hr.
      injection Hr as <- <-. cbn [fs trace].
      exists [Opened f ModeR; Opened f ModeW]. split; [done|]. split; [done|].
      exists f, c, [Opened f ModeR]. split; [by left|]. done.
    + assert (Hc1 : candidates w1 rest = candidates w rest).
      { apply candidates_ext. intros q. unfold file_in. by rewrite Hfs. }
      destruct (IH _ _ _ _ ltac:(rewrite Hc1; intros g Hg; apply Hout;
                                 by right) Hr)
        as (es & Htr' & Hes & Hres).
      exists (es1 ++ es).
      split; [by rewrite Htr', Htr, <- app_assoc|].
      split; [by rewrite replaced_counts_app, Hes1, Hes|].
      destruct r as [stats'|].
      * destruct Hres as (Hmod & Htot & Hfs'). cbn in Hmod, Htot.
        by rewrite Hfs'.
      * destruct Hres as (g & c & es' & Hg & Hm & Hne & Hfs' & ->).
        exists g, c, (es1 ++ es'). rewrite Hc1 in Hg. rewrite Hfs in Hm, Hfs'.
        split; [by right|]. by rewrite <- app_assoc.
Qed.
End Outside.

(** How [process_directory] ends on a directory of which no source file
    lies under [WEB_DIR]: it prints no per-file line, and either it has
    changed nothing and returns statistics without a modified file, or
    it has overwritten one file with its rewritten content, the last
    thing it did, and raises. *)
Definition stops_at_first_change `{OsPath} (rewrite : Path -> str -> str * nat)
    (directory : Path) (w : world) (result : raises Stats * world) : Prop :=
  exists es,
    trace result.2 = trace w ++ es
    /\ replaced_counts es = []
    /\ match result.1 with
       | Returns stats =>
           files_modified stats = 0 /\ total_replacements stats = 0
           /\ fs result.2 = fs w
       | RaisesValueError =>
           exists f c es',
             source_file directory w f
             /\ fs w !! f = Some (File (Some c) true)
             /\ (rewrite f c).1 <> c
             /\ fs result.2 = <[f := File (Some (rewrite f c).1) true]> (fs w)
             /\ es = es' ++ [Opened f ModeW]
       end.

(** X6: On a directory of which no source file lies under [WEB_DIR],
    [process_directory] stops at the first file that it rewrites: up to
    there it has changed nothing; it overwrites that file with the
    rewritten content and then [relative_to] raises [ValueError], before
    any line is printed for the file and before the files after it are
    looked at.  When there is nothing to rewrite it returns statistics
    with no modified file. *)
Theorem process_directory_outside_web_dir `{OsPath} directory w :
  (forall f, source_file directory w f ->
     relative_to f WEB_DIR = RaisesValueError) ->
  stops_at_first_change ReplaceImports.rewrite_content directory w
    (run (ReplaceImports.process_directory directory) w)
  /\ stops_at_first_change ReplaceImportsDeep.rewrite_content directory w
       (run (ReplaceImportsDeep.process_directory directory) w).
Proof.
  intros Hout. split.
  - rewrite simple_process_directory.
    destruct (run (walk _ _ _) w) as [r w'] eqn:Hrun.
    apply (walk_outside _ ReplaceImports.rewrite_content
             replace_imports_in_file_outcome) in Hrun
      as (es & Htr & Hes & Hres).
    + exists es. do 2 (split; [done|]). cbn [fst snd].
      destruct r as [stats|]; [done|].
      destruct Hres as (f & c & es' & Hf & Hrest).
      exists f, c, es'. split; [by apply candidates_source_file|done].
    + intros f Hf. by apply Hout, candidates_source_file.
  - rewrite deep_process_directory.
    destruct (run (walk _ _ _) w) as [r w'] eqn:Hrun.
    apply (walk_outside _ ReplaceImportsDeep.rewrite_content
             replace_deep_imports_in_file_outcome) in Hrun
      as (es & Htr & Hes & Hres).
    + exists es. do 2 (split; [done|]). cbn [fst snd].
      destruct r as [stats|]; [done|].
      destruct Hres as (f & c & es' & Hf & Hrest).
      exists f, c, es'. split; [by apply candidates_source_file|done].
    + intros f Hf. by apply Hout, candidates_source_file.
Qed.

(** A directory outside [WEB_DIR] with one file to rewrite. *)
Definition elsewhere : Path := @path_of unix (py "/srv/app").

Definition elsewhere_world : world :=
  world_of [(@path_of unix (py "/srv/app/index.ts"),
             File (Some package_import) true)].

Lemma process_directory_outside_web_dir_witness :
  @stops_at_first_change unix (@ReplaceImports.rewrite_content unix)
    elsewhere elsewhere_world
    (run (@ReplaceImports.process_directory unix elsewhere) elsewhere_world)
  /\ (run (@ReplaceImports.process_directory unix elsewhere)
        elsewhere_world).1 = RaisesValueError.
Proof.
  split; [|vm_compute; reflexivity].
  apply (@process_directory_outside_web_dir unix elsewhere elsewhere_world).
  intros f (Hb & _). unfold relative_to.
  destruct f as [d r t]. unfold below in Hb. cbn [drv root tail] in *.
  apply andb_true_iff in Hb as [Hb Ht].
  apply andb_true_iff in Hb as [Hd Hr].
  unfold str_eqb in Hd, Hr.
  apply bool_decide_eq_true in Hd, Hr. subst d r.
  destruct t as [|x t]; [done|].
  vm_compute tail in Ht. cbn [strict_prefix] in Ht.
  apply andb_true_iff in Ht as [Hx _]. unfold str_eqb in Hx.
  apply bool_decide_eq_true in Hx. subst x.
  vm_compute. reflexivity.
Defined.

(** ** The two [main] functions *)

(** The lines [main] opens with, and the summary it ends with. *)
Definition banner `{OsPath} (title : string) : list event :=
  Printed <$> [Rule; Text title; Rule; WorkingDirectory WEB_DIR;
               SourceDirectory SRC_DIR; PackagesToReplace PACKAGES;
               Rule; Blank].

Definition summary (stats : Stats) : list event :=
  Printed <$> [Blank; Rule; Text "SUMMARY"; Rule;
               FilesProcessed (files_processed stats);
               FilesModified (files_modified stats);
               TotalReplacements (total_replacements stats);
               Rule; Text "Done!"].

Definition simple_title : string :=
  "Replacing @ankaa/* imports with local relative imports".
Definition deep_title : string :=
  "Replacing deep @ankaa/* imports with local relative imports".

(** The warnings of replace-imports.py: one for each package whose
    directory does not exist, in the order of [PACKAGES]. *)
Definition warnings `{OsPath} (w : world) (packages : list str)
    : list event :=
  (fun package => Printed (PackageNotFound (joinpath SRC_DIR package)))
  <$> List.filter
        (fun package =>
           negb (bool_decide (is_Some (fs w !! joinpath SRC_DIR package))))
        packages.

Lemma print_summary_no_errors `{OsPath} stats w :
  errors stats = [] ->
  run (print_summary stats) w
  = (tt, mkWorld (fs w) (trace w ++ summary stats)).
Proof.
  intros He. unfold print_summary. rewrite He.
  cbv [run bind print emit ret fs trace]. destruct w as [m t]. simpl.
  by rewrite <- !app_assoc.
Qed.

Lemma warning_loop `{OsPath} packages (k : io unit) w :
  foldr (fun package k =>
           let pkg_dir := joinpath SRC_DIR package in
           e <- path_exists pkg_dir ;;
           (if negb e then print (PackageNotFound pkg_dir) else ret tt) ;;
           k) k packages w
  = k (mkWorld (fs w) (trace w ++ warnings w packages)).
Proof.
  revert w. induction packages as [|package rest IH]; intros w.
  - unfold warnings. simpl. rewrite app_nil_r. by destruct w.
  - cbn [foldr]. cbv zeta. unfold bind at 1. unfold path_exists at 1.
    unfold bind at 1. unfold warnings. cbn [List.filter].
    destruct (bool_decide (is_Some (fs w !! joinpath SRC_DIR package)));
      cbn [negb].
    + unfold ret at 1. rewrite IH. done.
    + unfold print, emit. rewrite IH. cbn [fs trace fmap list_fmap].
      unfold warnings. cbn [fs]. by rewrite <- app_assoc.
Qed.

(** The source directory lies directly under [WEB_DIR]. *)
Definition nested `{OsPath} : Prop :=
  SRC_DIR = mkPath (drv WEB_DIR) (root WEB_DIR) (tail WEB_DIR ++ [py "src"]).

Lemma posix_nested cwd : @nested (posix cwd).
Proof. reflexivity. Qed.

Lemma str_eqb_eq (a b : str) : str_eqb a b = true <-> a = b.
Proof. unfold str_eqb. apply bool_decide_eq_true. Qed.

Lemma strict_prefix_strip (a b t : list str) :
  strict_prefix (a ++ b) t = true -> is_Some (strip_prefix a t).
Proof.
  revert t. induction a as [|x a IH]; intros t; simpl.
  - destruct t; eauto.
  - destruct t as [|y t]; [done|].
    intros Hp. apply andb_true_iff in Hp as [Hxy Hp].
    rewrite Hxy. by apply IH.
Qed.

Lemma below_relative_to `{OsPath} f :
  nested -> below SRC_DIR f = true ->
  exists rel, relative_to f WEB_DIR = Returns rel.
Proof.
  unfold nested, below, relative_to. intros ->. simpl.
  intros Hb. apply andb_true_iff in Hb as [Hb Hp].
  rewrite Hb. apply strict_prefix_strip in Hp as [rest ->]. eauto.
Qed.

(** How a run of [main] ends where [process_directory] returns: either
    the source directory is missing, which is all [main] says after the
    banner, or the files are processed and the summary gives the
    statistics of [process_directory], without any line about errors. *)
Definition completes `{OsPath} (process : Path -> io (raises Stats))
    (opening notes : list event) (w : world) (result : raises unit * world)
    : Prop :=
  result.1 = Returns tt
  /\ match fs w !! SRC_DIR with
     | None =>
         result.2
         = mkWorld (fs w)
             (trace w ++ opening ++ [Printed (SourceNotFound SRC_DIR)])
     | Some _ =>
         exists stats w',
           run (process SRC_DIR)
             (mkWorld (fs w)
                (trace w ++ opening ++ notes
                 ++ [Printed (Text "Processing files..."); Printed Blank]))
           = (Returns stats, w')
           /\ result.2 = mkWorld (fs w') (trace w' ++ summary stats)
     end.

Section Main.
Context `{OsPath}.
Hypothesis src_nested : nested.

Lemma simple_process_directory_returns w :
  exists stats,
    (run (ReplaceImports.process_directory SRC_DIR) w).1 = Returns stats
    /\ errors stats = [].
Proof.
  destruct (run (ReplaceImports.process_directory SRC_DIR) w) as [[stats|] w']
    eqn:Hrun.
  - exists stats. split; [done|].
    apply (proj1 (process_directory_errors_empty SRC_DIR w)).
    by rewrite Hrun.
  - rewrite simple_process_directory in Hrun.
    apply (walk_raises _ ReplaceImports.rewrite_content
             replace_imports_in_file_outcome simple_changed_count) in Hrun
      as (f & c & es & Hf & Hrel & _).
    apply candidates_source_file in Hf as [Hb _].
    destruct (below_relative_to f src_nested Hb) as [rel Hret]. congruence.
Qed.

Lemma deep_process_directory_returns w :
  exists stats,
    (run (ReplaceImportsDeep.process_directory SRC_DIR) w).1 = Returns stats
    /\ errors stats = [].
Proof.
  destruct (run (ReplaceImportsDeep.process_directory SRC_DIR) w)
    as [[stats|] w'] eqn:Hrun.
  - exists stats. split; [done|].
    apply (proj2 (process_directory_errors_empty SRC_DIR w)).
    by rewrite Hrun.
  - rewrite deep_process_directory in Hrun.
    apply (walk_raises _ ReplaceImportsDeep.rewrite_content
             replace_deep_imports_in_file_outcome deep_changed_count) in Hrun
      as (f & c & es & Hf & Hrel & _).
    apply candidates_source_file in Hf as [Hb _].
    destruct (below_relative_to f src_nested Hb) as [rel Hret]. congruence.
Qed.

Lemma simple_main_completes w :
  completes ReplaceImports.process_directory
    (banner simple_title) (warnings w PACKAGES) w
    (run ReplaceImports.main w).
Proof.
  unfold completes, run, ReplaceImports.main.
  set (loop := foldr _ _ PACKAGES).
  cbv [bind print emit path_exists]. cbn [fs trace].
  destruct (fs w !! SRC_DIR) as [n|] eqn:Hsrc.
  - rewrite bool_decide_eq_true_2 by eauto. cbn [negb].
    unfold loop. rewrite warning_loop. cbv [ret]. cbn [fs trace].
    match goal with
    | |- context [ReplaceImports.process_directory SRC_DIR ?w0] =>
        destruct (simple_process_directory_returns w0) as (stats & Hr & He);
        assert (Hw0 : w0 = mkWorld (fs w)
                  (trace w ++ banner simple_title ++ warnings w PACKAGES
                   ++ [Printed (Text "Processing files..."); Printed Blank]))
          by (f_equal; unfold banner, warnings; cbn [fs fmap list_fmap];
              rewrite <- !app_assoc; reflexivity);
        rewrite Hw0 in *
    end.
    unfold run in Hr.
    destruct (ReplaceImports.process_directory SRC_DIR _) as [r w'] eqn:Hrun.
    simpl in Hr. subst r.
    pose proof (print_summary_no_errors stats w' He) as Hsum.
    unfold run in Hsum. rewrite Hsum. unfold ret. cbn [fst snd].
    split; [done|]. by exists stats, w'.
  - rewrite bool_decide_eq_false_2 by (by intros [? ?]). cbn [negb].
    unfold ret. cbn [fst snd]. split; [done|].
    unfold banner. cbn [fs trace fmap list_fmap].
    f_equal. by rewrite <- !app_assoc.
Qed.

Lemma deep_main_completes w :
  completes ReplaceImportsDeep.process_directory
    (banner deep_title) [] w
    (run ReplaceImportsDeep.main w).
Proof.
  unfold completes, run, ReplaceImportsDeep.main.
  cbv [bind print emit path_exists]. cbn [fs trace].
  destruct (fs w !! SRC_DIR) as [n|] eqn:Hsrc.
  - rewrite bool_decide_eq_true_2 by eauto. cbn [negb]. cbn [fs trace].
    match goal with
    | |- context [ReplaceImportsDeep.process_directory SRC_DIR ?w0] =>
        destruct (deep_process_directory_returns w0) as (stats & Hr & He);
        assert (Hw0 : w0 = mkWorld (fs w)
                  (trace w ++ banner deep_title ++ []
                   ++ [Printed (Text "Processing files..."); Printed Blank]))
          by (f_equal; unfold banner, warnings; cbn [fs fmap list_fmap];
              rewrite <- !app_assoc; reflexivity);
        rewrite Hw0 in *
    end.
    unfold run in Hr.
    destruct (ReplaceImportsDeep.process_directory SRC_DIR _) as [r w']
      eqn:Hrun.
    simpl in Hr. subst r.
    pose proof (print_summary_no_errors stats w' He) as Hsum.
    unfold run in Hsum. rewrite Hsum. unfold ret. cbn [fst snd].
    split; [done|]. by exists stats, w'.
  - rewrite bool_decide_eq_false_2 by (by intros [? ?]). cbn [negb].
    unfold ret. cbn [fst snd]. split; [done|].
    unfold banner. cbn [fs trace fmap list_fmap].
    f_equal. by rewrite <- !app_assoc.
Qed.
End Main.

(** How [main] goes on once it has found the source directory: it
    prints the opening lines and the notes, announces the processing and
    runs [process] on the source directory; when that returns, the summary
    of its statistics follows, and when it raises, nothing more is
    printed and [main] raises as well. *)
Definition runs_through `{OsPath} (process : Path -> io (raises Stats))
    (opening notes : list event) (w : world) (result : raises unit * world)
    : Prop :=
  let processed :=
    run (process SRC_DIR)
      (mkWorld (fs w)
         (trace w ++ opening ++ notes
          ++ [Printed (Text "Processing files..."); Printed Blank])) in
  match processed.1 with
  | Returns stats =>
      result
      = (Returns tt,
         mkWorld (fs processed.2) (trace processed.2 ++ summary stats))
  | RaisesValueError => result = (RaisesValueError, processed.2)
  end.

(** X7: When the source directory exists, [main] prints the banner,
    then, in replace-imports.py only, one warning for each package whose
    directory does not exist, in the order of [PACKAGES], then announces
    the processing and runs [process_directory] on the source directory.
    If that returns, [main] prints the summary with the three figures of
    the statistics returned, without any line about errors, and returns;
    if it raises, [main] prints nothing more and the exception goes
    on. *)
Theorem main_runs_through `{OsPath} w :
  is_Some (fs w !! SRC_DIR) ->
  runs_through ReplaceImports.process_directory
    (banner simple_title) (warnings w PACKAGES) w
    (run ReplaceImports.main w)
  /\ runs_through ReplaceImportsDeep.process_directory
       (banner deep_title) [] w (run ReplaceImportsDeep.main w).
Proof.
  intros Hsrc. split.
  - unfold runs_through, run, ReplaceImports.main.
    set (loop := foldr _ _ PACKAGES).
    cbv [bind print emit path_exists]. cbn [fs trace].
    rewrite bool_decide_eq_true_2 by done. cbn [negb].
    unfold loop. rewrite warning_loop. cbv [ret]. cbn [fs trace].
    match goal with
    | |- context [ReplaceImports.process_directory SRC_DIR ?w0] =>
        assert (Hw0 : w0 = mkWorld (fs w)
                  (trace w ++ banner simple_title ++ warnings w PACKAGES
                   ++ [Printed (Text "Processing files..."); Printed Blank]))
          by (f_equal; unfold banner, warnings; cbn [fs fmap list_fmap];
              rewrite <- !app_assoc; reflexivity);
        rewrite Hw0
    end.
    pose proof (proj1 (process_directory_errors_empty SRC_DIR
                         (mkWorld (fs w)
                            (trace w ++ banner simple_title
                             ++ warnings w PACKAGES
                             ++ [Printed (Text "Processing files...");
                                 Printed Blank])))) as He.
    unfold run in He.
    destruct (ReplaceImports.process_directory SRC_DIR _) as [r w'].
    destruct r as [stats|]; cbn [fst snd]; [|done].
    pose proof (print_summary_no_errors stats w' (He stats eq_refl)) as Hsum.
    unfold run in Hsum. by rewrite Hsum.
  - unfold runs_through, run, ReplaceImportsDeep.main.
    cbv [bind print emit path_exists]. cbn [fs trace].
    rewrite bool_decide_eq_true_2 by done. cbn [negb]. cbn [fs trace].
    match goal with
    | |- context [ReplaceImportsDeep.process_directory SRC_DIR ?w0] =>
        assert (Hw0 : w0 = mkWorld (fs w)
                  (trace w ++ banner deep_title ++ []
                   ++ [Printed (Text "Processing files..."); Printed Blank]))
          by (f_equal; unfold banner, warnings; cbn [fs fmap list_fmap];
              rewrite <- !app_assoc; reflexivity);
        rewrite Hw0
    end.
    pose proof (proj2 (process_directory_errors_empty SRC_DIR
                         (mkWorld (fs w)
                            (trace w ++ banner deep_title ++ []
                             ++ [Printed (Text "Processing files...");
                                 Printed Blank])))) as He.
    unfold run in He.
    destruct (ReplaceImportsDeep.process_directory SRC_DIR _) as [r w'].
    destruct r as [stats|]; cbn [fst snd]; [|done].
    pose proof (print_summary_no_errors stats w' (He stats eq_refl)) as Hsum.
    unfold run in Hsum. by rewrite Hsum.
Qed.

Lemma main_runs_through_witness :
  @runs_through unix (@ReplaceImports.process_directory unix)
    (@banner unix simple_title) (@warnings unix broken_world (@PACKAGES))
    broken_world (run (@ReplaceImports.main unix) broken_world)
  /\ @runs_through unix (@ReplaceImportsDeep.process_directory unix)
       (@banner unix deep_title) [] broken_world
       (run (@ReplaceImportsDeep.main unix) broken_world).
Proof.
  apply (@main_runs_through unix broken_world).
  exists Dir. vm_compute. reflexivity.
Defined.

(** What [main] leaves when it finds no source directory. *)
Definition stopped_at_once `{OsPath} (title : string) (w : world)
    (result : raises unit * world) : Prop :=
  result
  = (Returns tt,
     mkWorld (fs w)
       (trace w ++ banner title ++ [Printed (SourceNotFound SRC_DIR)])).

(** X8: When the source directory does not exist, [main] prints the banner
    and the error and returns: no file is opened or changed, no package
    directory is looked up and no summary is printed. *)
Theorem main_without_source_directory `{OsPath} w :
  fs w !! SRC_DIR = None ->
  stopped_at_once simple_title w (run ReplaceImports.main w)
  /\ stopped_at_once deep_title w (run ReplaceImportsDeep.main w).
Proof.
  intros Hsrc.
  unfold stopped_at_once, run, ReplaceImports.main, ReplaceImportsDeep.main.
  set (loop := foldr _ _ PACKAGES).
  cbv [bind print emit path_exists]. cbn [fs trace]. rewrite Hsrc.
  rewrite bool_decide_eq_false_2 by (by intros [? ?]). cbn [negb].
  unfold ret, banner. cbn [fs trace fmap list_fmap].
  split; f_equal; f_equal; by rewrite <- !app_assoc.
Qed.

Lemma main_without_source_directory_witness :
  @stopped_at_once unix simple_title (world_of [])
    (run (@ReplaceImports.main unix) (world_of []))
  /\ @stopped_at_once unix deep_title (world_of [])
       (run (@ReplaceImportsDeep.main unix) (world_of [])).
Proof.
  apply (@main_without_source_directory unix (world_of [])).
  apply lookup_empty.
Defined.

(** ** The relative path of a file below the source root *)

(** A directory or file name as [pathlib] keeps it in a parsed path. *)
Definition component (x : str) : Prop :=
  x <> [] /\ x <> [dot] /\ x <> posixpath.dotdot /\ slash ∉ x.

Lemma split_not_nil sep (s : str) : split sep s <> [].
Proof.
  induction s as [|c s IH]; simpl; [done|].
  destruct (c =? sep)%N; [done|]. by destruct (split sep s).
Qed.

Lemma split_sep_free sep (s : str) : sep ∉ s -> split sep s = [s].
Proof.
  induction s as [|c s IH]; intros Hs; simpl; [done|].
  apply not_elem_of_cons in Hs as [Hc Hs].
  destruct (c =? sep)%N eqn:Hcs; [apply N.eqb_eq in Hcs; congruence|].
  by rewrite IH.
Qed.

Lemma split_app_sep sep (a b : str) :
  sep ∉ a -> split sep (a ++ sep :: b) = a :: split sep b.
Proof.
  induction a as [|c a IH]; intros Ha; simpl.
  - by rewrite N.eqb_refl.
  - apply not_elem_of_cons in Ha as [Hc Ha].
    destruct (c =? sep)%N eqn:Hcs; [apply N.eqb_eq in Hcs; congruence|].
    by rewrite IH.
Qed.

Lemma join_cons_cons (sep : str) (x y : str) (l : list str) :
  join sep (x :: y :: l) = x ++ sep ++ join sep (y :: l).
Proof. reflexivity. Qed.

Lemma split_join sep (l : list str) :
  Forall (fun x => sep ∉ x) l -> l <> [] -> split sep (join [sep] l) = l.
Proof.
  induction 1 as [|x l Hx Hl IH]; intros Hne; [done|].
  destruct l as [|y l].
  - simpl. by apply split_sep_free.
  - rewrite join_cons_cons. cbn [app]. rewrite split_app_sep by done.
    by rewrite IH.
Qed.

Lemma join_app_slash (a b : list str) :
  a <> [] -> b <> [] ->
  join [slash] (a ++ b) = join [slash] a ++ slash :: join [slash] b.
Proof.
  intros Ha Hb. induction a as [|x a IH]; [done|].
  destruct a as [|y a].
  - destruct b as [|z b]; [done|]. reflexivity.
  - cbn [app]. rewrite !join_cons_cons. cbn [app] in IH. rewrite IH by done.
    by rewrite <- !app_assoc.
Qed.

Lemma component_slash_free (l : list str) :
  Forall component l -> Forall (fun x => slash ∉ x) l.
Proof. apply Forall_impl. by intros x (_ & _ & _ & Hx). Qed.

Lemma filter_all {A} (f : A -> bool) (l : list A) :
  Forall (fun x => f x = true) l -> List.filter f l = l.
Proof. induction 1 as [|x l Hx _ IH]; simpl; [done|]. by rewrite Hx, IH. Qed.

Lemma component_is_component (l : list str) :
  Forall component l -> List.filter posixpath.is_component l = l.
Proof.
  intros Hl. apply filter_all. eapply Forall_impl; [|exact Hl].
  intros x (Hx & Hd & _). unfold posixpath.is_component, str_eqb.
  by rewrite !bool_decide_eq_false_2.
Qed.

Lemma component_nonempty (l : list str) :
  Forall component l -> List.filter posixpath.nonempty l = l.
Proof.
  intros Hl. apply filter_all. eapply Forall_impl; [|exact Hl].
  intros x (Hx & _). unfold posixpath.nonempty, str_eqb.
  by rewrite bool_decide_eq_false_2.
Qed.

Lemma norm_comps_components rooted (comps : list str) : forall acc,
  Forall component comps ->
  posixpath.norm_comps rooted comps acc = rev acc ++ comps.
Proof.
  induction comps as [|x comps IH]; intros acc Hc; simpl.
  - by rewrite app_nil_r.
  - apply Forall_cons_1 in Hc as [(Hx & Hd & Hdd & _) Hc].
    unfold str_eqb. rewrite !bool_decide_eq_false_2 by done. simpl.
    rewrite IH by done. simpl. by rewrite <- app_assoc.
Qed.

(** The first character of a joined list of components is no slash. *)
Lemma join_not_rooted (l : list str) :
  Forall component l -> startswith [slash] (join [slash] l) = false.
Proof.
  intros Hl. destruct Hl as [|x l (Hx & _ & _ & Hs) _]; [done|].
  destruct x as [|c x]; [done|].
  apply not_elem_of_cons in Hs as [Hc _].
  assert (Hhd : forall rest, startswith [slash] (c :: rest) = false).
  { intros rest. cbn [startswith].
    rewrite (proj2 (N.eqb_neq slash c)) by congruence. done. }
  destruct l; [apply Hhd|]. rewrite join_cons_cons. apply Hhd.
Qed.

Lemma join_components_nonempty (l : list str) :
  Forall component l -> l <> [] -> join [slash] l <> [].
Proof.
  intros Hl Hne. destruct Hl as [|x l (Hx & _) _]; [done|].
  destruct x; [done|]. by destruct l.
Qed.

Lemma last_app_nonempty {A} (a b : list A) d :
  b <> [] -> List.last (a ++ b) d = List.last b d.
Proof.
  intros Hb. induction a as [|x a IH]; [done|].
  simpl. destruct (a ++ b) eqn:E; [|done].
  apply app_eq_nil in E as [_ ?]. done.
Qed.

Lemma last_elem_of {A} (b : list A) d : b <> [] -> List.last b d ∈ b.
Proof.
  induction b as [|x b IH]; [done|]. intros _.
  destruct b as [|y b]; [by left|]. right. by apply IH.
Qed.

Lemma join_not_ending_in_slash (l : list str) : forall prefix,
  Forall component l -> l <> [] ->
  posixpath.endswith_slash (prefix ++ join [slash] l) = false.
Proof.
  induction l as [|x l IH]; intros prefix Hl Hne; [done|].
  apply Forall_cons_1 in Hl as [(Hx & _ & _ & Hs) Hl].
  destruct l as [|y l].
  - simpl. unfold posixpath.endswith_slash.
    rewrite last_app_nonempty by done.
    apply N.eqb_neq. intros Heq. apply Hs. rewrite <- Heq.
    by apply last_elem_of.
  - rewrite join_cons_cons, !app_assoc. by apply IH.
Qed.

Lemma to_str_rooted (l : list str) :
  posixpath.to_str (mkPath [] [slash] l) = slash :: join [slash] l.
Proof. reflexivity. Qed.

Lemma split_rooted (l : list str) :
  Forall component l ->
  split slash (slash :: join [slash] l)
  = [] :: (if l is [] then [[]] else l).
Proof.
  intros Hl. simpl. f_equal. destruct l as [|x l]; [done|].
  apply split_join; [by apply component_slash_free|done].
Qed.

Lemma normpath_rooted (l : list str) :
  Forall component l ->
  posixpath.normpath (slash :: join [slash] l) = slash :: join [slash] l.
Proof.
  intros Hl. unfold posixpath.normpath.
  change (startswith [slash] (slash :: join [slash] l)) with true.
  change (startswith [slash; slash] (slash :: join [slash] l))
    with (startswith [slash] (join [slash] l)).
  rewrite join_not_rooted by done. cbn [andb Nat.eqb negb].
  rewrite split_rooted by done.
  destruct l as [|x l]; [reflexivity|].
  change (posixpath.norm_comps true ([] :: x :: l) [])
    with (posixpath.norm_comps true (x :: l) []).
  rewrite norm_comps_components by done. reflexivity.
Qed.

Lemma abspath_rooted cwd (l : list str) :
  Forall component l ->
  List.filter posixpath.nonempty
    (split slash (posixpath.abspath cwd (slash :: join [slash] l)))
  = l.
Proof.
  intros Hl. unfold posixpath.abspath.
  change (startswith [slash] (slash :: join [slash] l)) with true.
  cbv iota. rewrite normpath_rooted, split_rooted by done.
  destruct l as [|x l]; [reflexivity|].
  change (List.filter posixpath.nonempty ([] :: x :: l))
    with (List.filter posixpath.nonempty (x :: l)).
  by apply component_nonempty.
Qed.

Lemma commonprefix_app (s a b : list str) :
  posixpath.commonprefix (s ++ a) (s ++ b)
  = s ++ posixpath.commonprefix a b.
Proof.
  induction s as [|x s IH]; [done|]. simpl.
  unfold str_eqb. rewrite bool_decide_eq_true_2 by done. by rewrite IH.
Qed.

Lemma commonprefix_length (a b : list str) :
  length (posixpath.commonprefix a b) <= length a.
Proof.
  revert b. induction a as [|x a IH]; intros [|y b]; simpl; try lia.
  destruct (str_eqb x y); simpl; [|lia]. specialize (IH b). lia.
Qed.

(** [relpath] between two rooted paths given by their components. *)
Lemma relpath_rooted cwd (target start : list str) :
  Forall component target -> Forall component start ->
  posixpath.relpath cwd (posixpath.to_str (mkPath [] [slash] target))
    (posixpath.to_str (mkPath [] [slash] start))
  = let i := length (posixpath.commonprefix start target) in
    match replicate (length start - i) posixpath.dotdot ++ drop i target with
    | [] => Returns [dot]
    | rel_list => Returns (join [slash] rel_list)
    end.
Proof.
  intros Ht Hs. rewrite !to_str_rooted. unfold posixpath.relpath.
  rewrite !abspath_rooted by done. cbv zeta.
  by destruct (replicate _ _ ++ drop _ _).
Qed.

(** [p / s] for a rooted path and a relative one, given by their
    components. *)
Lemma joinpath_rooted_components (l subs : list str) :
  Forall component l -> Forall component subs -> subs <> [] ->
  posixpath.joinpath (mkPath [] [slash] l) (join [slash] subs)
  = mkPath [] [slash] (l ++ subs).
Proof.
  intros Hl Hsubs Hne. unfold posixpath.joinpath, posixpath.join2.
  rewrite to_str_rooted, join_not_rooted by done.
  change (str_eqb (slash :: join [slash] l) []) with false. cbn [orb].
  match goal with
  | |- posixpath.parse ?joined = _ =>
      assert (Hjoin : joined = slash :: join [slash] (l ++ subs))
  end.
  { destruct l as [|x l]; [reflexivity|].
    pose proof (join_not_ending_in_slash (x :: l) [slash] Hl) as He.
    cbn [app] in He. rewrite He by done.
    rewrite join_app_slash by done. reflexivity. }
  rewrite Hjoin.
  assert (Hall : Forall component (l ++ subs)) by (by apply Forall_app).
  assert (Hne' : l ++ subs <> []) by (by destruct l, subs).
  pose proof (join_not_rooted _ Hall) as Hhd.
  pose proof (split_join slash (l ++ subs)
                (component_slash_free _ Hall) Hne') as Hsplit.
  unfold posixpath.parse.
  assert (Hroot : posixpath.splitroot (slash :: join [slash] (l ++ subs))
                  = ([slash], join [slash] (l ++ subs))).
  { destruct (join [slash] (l ++ subs)) as [|b p1] eqn:E; [reflexivity|].
    cbn [startswith] in Hhd. rewrite andb_true_r in Hhd.
    assert (Hb : (b =? slash)%N = false) by (by rewrite N.eqb_sym).
    unfold posixpath.splitroot. rewrite N.eqb_refl.
    destruct p1 as [|c p3]; rewrite Hb; reflexivity. }
  rewrite Hroot, Hsplit. by rewrite component_is_component.
Qed.

(** A component that can stand in a sub-path as it is: it holds no
    backslash and does not begin with two full stops. *)
Definition plain (x : str) : Prop :=
  component x /\ (backslash ∉ x)
  /\ startswith posixpath.dotdot x = false.

(** The two predicates as checks on explicit names. *)
Definition is_plain (x : str) : bool :=
  negb (str_eqb x []) && negb (str_eqb x [dot])
  && negb (str_eqb x posixpath.dotdot) && negb (mem_char slash x)
  && negb (mem_char backslash x) && negb (startswith posixpath.dotdot x).

Lemma mem_char_false c (x : str) : mem_char c x = false -> c ∉ x.
Proof.
  unfold mem_char. induction x as [|d x IH]; simpl; intros Hm Hin.
  - by apply elem_of_nil in Hin.
  - apply orb_false_iff in Hm as [Hd Hm].
    apply elem_of_cons in Hin as [->|Hin]; [by rewrite N.eqb_refl in Hd|].
    by apply IH.
Qed.

Lemma is_plain_plain (x : str) : is_plain x = true -> plain x.
Proof.
  unfold is_plain. rewrite !andb_true_iff, !negb_true_iff.
  unfold str_eqb. rewrite !bool_decide_eq_false.
  intros [[[[[H1 H2] H3] H4] H5] H6].
  split; [|split]; [|by apply mem_char_false|done].
  repeat split; try done. by apply mem_char_false.
Qed.

Lemma packages_plain package : package ∈ @PACKAGES -> plain package.
Proof.
  assert (Hall : Forall plain (@PACKAGES)).
  { unfold PACKAGES.
    repeat (apply Forall_cons_2;
            [apply is_plain_plain; vm_compute; reflexivity|]).
    apply Forall_nil_2. }
  by apply Forall_elem.
Qed.

(** The components of the source root. *)
Definition source_components : list str := tail (@SRC_DIR unix).

Lemma source_components_ok : Forall component source_components.
Proof.
  unfold source_components. vm_compute tail.
  repeat (apply Forall_cons_2;
          [apply is_plain_plain; vm_compute; reflexivity|]).
  apply Forall_nil_2.
Qed.

Lemma posix_source_root cwd :
  @SRC_DIR (posix cwd) = mkPath [] [slash] source_components.
Proof. vm_compute. reflexivity. Qed.

Lemma plain_components (l : list str) : Forall plain l -> Forall component l.
Proof. apply Forall_impl. by intros x [Hx _]. Qed.

Lemma replace_char_absent a b (s : str) : a ∉ s -> replace_char a b s = s.
Proof.
  unfold replace_char. induction s as [|c s IH]; intros Hs; [done|].
  apply not_elem_of_cons in Hs as [Hc Hs]. cbn [fmap list_fmap].
  destruct (c =? a)%N eqn:E; [apply N.eqb_eq in E; congruence|].
  f_equal. by apply IH.
Qed.

Lemma elem_of_join c (l : list str) :
  c ∈ join [slash] l -> c = slash \/ exists x, x ∈ l /\ c ∈ x.
Proof.
  induction l as [|x l IH]; intros Hin; [by apply elem_of_nil in Hin|].
  destruct l as [|y l].
  - right. exists x. split; [by left|done].
  - rewrite join_cons_cons in Hin.
    apply elem_of_app in Hin as [Hin|Hin];
      [right; exists x; split; [by left|done]|].
    apply elem_of_cons in Hin as [->|Hin]; [by left|].
    destruct (IH Hin) as [->|(z & Hz & Hc)]; [by left|].
    right. exists z. split; [by right|done].
Qed.

Lemma startswith_dotdot_join (x : str) (l : list str) :
  x <> [] ->
  startswith posixpath.dotdot (join [slash] (x :: l))
  = startswith posixpath.dotdot x.
Proof.
  intros Hx. destruct x as [|c1 [|c2 x]]; [done| |].
  - destruct l as [|y l]; [done|].
    rewrite join_cons_cons. simpl. by rewrite !andb_false_r.
  - destruct l as [|y l]; reflexivity.
Qed.

(** The components of the relative path from a directory [dirs] below the
    source root to [target] below it: up to the deepest directory they
    share, then down. *)
Definition climb (dirs target : list str) : list str :=
  let i := length (posixpath.commonprefix dirs target) in
  replicate (length dirs - i) posixpath.dotdot ++ drop i target.

Definition climbs (dirs target : list str) : nat :=
  length dirs - length (posixpath.commonprefix dirs target).

(** What [get_relative_path] makes of them. *)
Definition relative_import (dirs target : list str) : str :=
  (if climbs dirs target is 0 then py "./" else [])
  ++ (if climb dirs target is [] then [dot]
      else join [slash] (climb dirs target)).

Section Depth.
Variable cwd : str.
Variables (dirs : list str) (file_name package : str) (subs : list str).
Hypothesis package_configured : package ∈ @PACKAGES.
Hypothesis dirs_components : Forall component dirs.
Hypothesis file_name_component : component file_name.
Hypothesis subs_plain : Forall plain subs.

Lemma file_path_components :
  @joinpath (posix cwd) (@SRC_DIR (posix cwd))
    (join [slash] (dirs ++ [file_name]))
  = mkPath [] [slash] (source_components ++ dirs ++ [file_name]).
Proof.
  rewrite posix_source_root.
  apply joinpath_rooted_components.
  - apply source_components_ok.
  - apply Forall_app. split; [done|]. by apply Forall_cons_2.
  - by destruct dirs.
Qed.

Lemma file_dir_components :
  parent (mkPath [] [slash] (source_components ++ dirs ++ [file_name]))
  = mkPath [] [slash] (source_components ++ dirs).
Proof.
  unfold parent. cbn [tail drv root].
  destruct (source_components ++ dirs ++ [file_name]) as [|x l] eqn:E.
  - apply app_eq_nil in E as [_ E]. apply app_eq_nil in E as [_ E]. done.
  - rewrite <- E, app_assoc. by rewrite removelast_last.
Qed.

Lemma target_dir_components :
  @ReplaceImportsDeep.target_dir (posix cwd) package (join [slash] subs)
  = mkPath [] [slash] (source_components ++ package :: subs).
Proof.
  pose proof (packages_plain _ package_configured) as [Hpk _].
  assert (Hp : @joinpath (posix cwd) (@SRC_DIR (posix cwd)) package
               = mkPath [] [slash] (source_components ++ [package])).
  { rewrite posix_source_root.
    apply (joinpath_rooted_components _ [package]); [|by apply Forall_cons_2|done].
    apply source_components_ok. }
  unfold ReplaceImportsDeep.target_dir. rewrite Hp.
  destruct subs as [|s subs'] eqn:Es.
  - reflexivity.
  - assert (Hne : nonempty (join [slash] (s :: subs')) = true).
    { unfold nonempty, str_eqb. rewrite bool_decide_eq_false_2; [done|].
      apply join_components_nonempty; [by apply plain_components|done]. }
    rewrite Hne.
    change (@joinpath (posix cwd)) with posixpath.joinpath.
    rewrite joinpath_rooted_components.
    + by rewrite <- app_assoc.
    + apply Forall_app. split; [apply source_components_ok|].
      by apply Forall_cons_2.
    + by apply plain_components.
    + done.
Qed.

Lemma relpath_components :
  @os_path_relpath (posix cwd)
    (mkPath [] [slash] (source_components ++ package :: subs))
    (mkPath [] [slash] (source_components ++ dirs))
  = Returns (if climb dirs (package :: subs) is [] then [dot]
             else join [slash] (climb dirs (package :: subs))).
Proof.
  pose proof (packages_plain _ package_configured) as [Hpk _].
  change (@os_path_relpath (posix cwd) ?p ?s)
    with (posixpath.relpath cwd (posixpath.to_str p) (posixpath.to_str s)).
  rewrite relpath_rooted.
  - cbv zeta. rewrite commonprefix_app, !length_app.
    replace (length source_components + length dirs
             - (length source_components
                + length (posixpath.commonprefix dirs (package :: subs))))
      with (length dirs
            - length (posixpath.commonprefix dirs (package :: subs))) by lia.
    rewrite drop_app_add'; [|done].
    fold (climb dirs (package :: subs)).
    by destruct (climb dirs (package :: subs)).
  - apply Forall_app. split; [apply source_components_ok|].
    apply Forall_cons_2; [done|by apply plain_components].
  - apply Forall_app. split; [apply source_components_ok|done].
Qed.

Lemma climb_plain :
  Forall (fun x => x = posixpath.dotdot \/ plain x)
    (climb dirs (package :: subs)).
Proof.
  unfold climb. cbv zeta. apply Forall_app. split.
  - apply Forall_replicate. by left.
  - apply Forall_drop. apply Forall_cons_2.
    + right. by apply packages_plain.
    + eapply Forall_impl; [|exact subs_plain]. intros x Hx. by right.
Qed.

Lemma climb_no_backslash :
  backslash ∉ join [slash] (climb dirs (package :: subs)).
Proof.
  intros Hin. apply elem_of_join in Hin as [Hin|(x & Hx & Hin)]; [done|].
  pose proof climb_plain as Hall.
  apply (Forall_elem _ _ _ Hall) in Hx as [->|(_ & Hb & _)]; [|done].
  vm_compute in Hin. elem_absurd Hin.
Qed.

Lemma get_relative_path_components :
  @ReplaceImportsDeep.get_relative_path (posix cwd)
    (@joinpath (posix cwd) (@SRC_DIR (posix cwd))
       (join [slash] (dirs ++ [file_name])))
    package (join [slash] subs)
  = relative_import dirs (package :: subs).
Proof.
  unfold ReplaceImportsDeep.get_relative_path. cbv zeta.
  rewrite file_path_components, file_dir_components, target_dir_components,
    relpath_components.
  unfold relative_import, climbs.
  pose proof climb_plain as Hall.
  pose proof climb_no_backslash as Hb.
  change (py "..") with posixpath.dotdot.
  unfold climb in *. cbv zeta in *.
  destruct (length dirs
            - length (posixpath.commonprefix dirs (package :: subs)))
    as [|n].
  - cbn [replicate app] in *.
    destruct (drop _ (package :: subs)) as [|x l] eqn:E; [reflexivity|].
    rewrite replace_char_absent by done.
    assert (Hx : plain x).
    { assert (Hd : Forall plain (x :: l)).
      { rewrite <- E. apply Forall_drop. apply Forall_cons_2; [|done].
        by apply packages_plain. }
      by apply Forall_cons_1 in Hd as [? _]. }
    destruct Hx as ((Hx & _) & _ & Hdd).
    by rewrite startswith_dotdot_join, Hdd.
  - cbn [replicate app] in *.
    rewrite replace_char_absent by done.
    rewrite startswith_dotdot_join by done. reflexivity.
Qed.
End Depth.

Lemma commonprefix_apart (dirs target : list str) :
  head dirs <> head target -> posixpath.commonprefix dirs target = [].
Proof.
  destruct dirs as [|d dirs], target as [|t target]; try done.
  intros Hne. simpl. unfold str_eqb.
  rewrite bool_decide_eq_false_2; [done|]. intros ->. by apply Hne.
Qed.

Lemma relative_import_apart (dirs target : list str) :
  target <> [] -> head dirs <> head target ->
  relative_import dirs target
  = (if dirs is [] then py "./" else [])
    ++ join [slash] (replicate (length dirs) posixpath.dotdot ++ target).
Proof.
  intros Ht Hne. unfold relative_import, climbs, climb. cbv zeta.
  rewrite commonprefix_apart by done.
  cbn [length drop]. rewrite Nat.sub_0_r.
  destruct dirs as [|d dirs].
  - cbn [length replicate app]. by destruct target.
  - reflexivity.
Qed.

(** X9: Under the POSIX flavour, for a file that lies [n] directories below
    the source root and not inside the directory of the package itself,
    the relative path is [n] parent-directory markers followed by the
    package and the sub-path, joined by slashes; for a file directly in
    the source root it is [./] followed by the package and the
    sub-path. *)
Theorem relative_path_by_depth cwd dirs file_name package subs :
  package ∈ @PACKAGES ->
  Forall component dirs -> component file_name -> Forall plain subs ->
  head dirs <> Some package ->
  let flavour := posix cwd in
  let file_path := joinpath SRC_DIR (join [slash] (dirs ++ [file_name])) in
  ReplaceImportsDeep.get_relative_path file_path package (join [slash] subs)
  = (if dirs is [] then py "./" else [])
    ++ join [slash]
         (replicate (length dirs) posixpath.dotdot ++ package :: subs)
  /\ ReplaceImports.get_relative_path file_path package
     = (if dirs is [] then py "./" else [])
       ++ join [slash] (replicate (length dirs) posixpath.dotdot ++ [package]).
Proof.
  intros Hpk Hdirs Hname Hsubs Hhead flavour file_path. split.
  - unfold file_path, flavour.
    rewrite get_relative_path_components by done.
    by apply relative_import_apart.
  - rewrite simple_is_deep.
    change (ReplaceImportsDeep.get_relative_path ?f ?p [])
      with (ReplaceImportsDeep.get_relative_path f p (join [slash] [])).
    unfold file_path, flavour.
    rewrite get_relative_path_components by done.
    by apply relative_import_apart.
Qed.

Lemma is_plain_component (x : str) : is_plain x = true -> component x.
Proof. intros Hx. by apply is_plain_plain in Hx as [? _]. Qed.

Lemma relative_path_by_depth_witness :
  let file_path :=
    @joinpath unix (@SRC_DIR unix)
      (join [slash] ([py "components"; py "widgets"] ++ [py "Button.ts"])) in
  @ReplaceImportsDeep.get_relative_path unix file_path (py "types")
    (join [slash] [py "user"])
  = [] ++ join [slash]
            (replicate 2 posixpath.dotdot ++ [py "types"; py "user"])
  /\ @ReplaceImports.get_relative_path unix file_path (py "types")
     = [] ++ join [slash] (replicate 2 posixpath.dotdot ++ [py "types"]).
Proof.
  apply (relative_path_by_depth (py "/") [py "components"; py "widgets"]
           (py "Button.ts") (py "types") [py "user"]).
  - apply str_in_elem_of. vm_compute. reflexivity.
  - repeat (apply Forall_cons_2;
            [apply is_plain_component; vm_compute; reflexivity|]).
    apply Forall_nil_2.
  - apply is_plain_component. vm_compute. reflexivity.
  - repeat (apply Forall_cons_2;
            [apply is_plain_plain; vm_compute; reflexivity|]).
    apply Forall_nil_2.
  - vm_compute. discriminate.
Defined.

Lemma relative_import_own (package : str) (subs : list str) :
  relative_import [package] (package :: subs)
  = py "./" ++ (if subs is [] then [dot] else join [slash] subs).
Proof.
  unfold relative_import, climbs, climb. cbv zeta.
  cbn [posixpath.commonprefix]. unfold str_eqb.
  rewrite bool_decide_eq_true_2 by done.
  destruct subs; reflexivity.
Qed.

(** X10: Under the POSIX flavour, for a file directly in the directory of a
    package, an import of that package itself becomes [./.] and an import
    of a sub-path of it becomes [./] followed by the sub-path. *)
Theorem relative_path_in_own_package cwd file_name package subs :
  package ∈ @PACKAGES -> component file_name -> Forall plain subs ->
  let flavour := posix cwd in
  let file_path := joinpath SRC_DIR (join [slash] [package; file_name]) in
  ReplaceImportsDeep.get_relative_path file_path package (join [slash] subs)
  = py "./" ++ (if subs is [] then [dot] else join [slash] subs)
  /\ ReplaceImports.get_relative_path file_path package = py "./.".
Proof.
  intros Hpk Hname Hsubs flavour file_path.
  assert (Hdirs : Forall component [package]).
  { apply Forall_cons_2; [|done]. by apply packages_plain. }
  split.
  - unfold file_path, flavour.
    change [package; file_name] with ([package] ++ [file_name]).
    rewrite (get_relative_path_components cwd [package]) by done.
    apply relative_import_own.
  - rewrite simple_is_deep.
    change (ReplaceImportsDeep.get_relative_path ?f ?p [])
      with (ReplaceImportsDeep.get_relative_path f p (join [slash] [])).
    unfold file_path, flavour.
    change [package; file_name] with ([package] ++ [file_name]).
    rewrite (get_relative_path_components cwd [package]) by done.
    apply relative_import_own.
Qed.

Lemma relative_path_in_own_package_witness :
  let file_path :=
    @joinpath unix (@SRC_DIR unix) (join [slash] [py "types"; py "index.ts"]) in
  @ReplaceImportsDeep.get_relative_path unix file_path (py "types")
    (join [slash] [py "user"])
  = py "./" ++ join [slash] [py "user"]
  /\ @ReplaceImports.get_relative_path unix file_path (py "types") = py "./.".
Proof.
  apply (relative_path_in_own_package (py "/") (py "index.ts") (py "types")
           [py "user"]).
  - apply str_in_elem_of. vm_compute. reflexivity.
  - apply is_plain_component. vm_compute. reflexivity.
  - repeat (apply Forall_cons_2;
            [apply is_plain_plain; vm_compute; reflexivity|]).
    apply Forall_nil_2.
Defined.

(** ** The working directory *)

Lemma abspath_absolute cwd cwd' (x : str) :
  startswith [slash] x = true ->
  posixpath.abspath cwd x = posixpath.abspath cwd' x.
Proof. intros Hx. unfold posixpath.abspath. by rewrite Hx. Qed.

Lemma relpath_absolute cwd cwd' (path start : str) :
  startswith [slash] path = true -> startswith [slash] start = true ->
  posixpath.relpath cwd path start = posixpath.relpath cwd' path start.
Proof.
  intros Hp Hs. unfold posixpath.relpath.
  by rewrite (abspath_absolute cwd cwd' path),
    (abspath_absolute cwd cwd' start).
Qed.

Lemma posix_target_dir_rooted cwd package sub_path :
  startswith [slash]
    (posixpath.to_str
       (@ReplaceImportsDeep.target_dir (posix cwd) package sub_path))
  = true.
Proof.
  assert (Hsrc : startswith [slash] (posixpath.to_str (@SRC_DIR unix)) = true)
    by (by vm_compute).
  unfold ReplaceImportsDeep.target_dir.
  change (@SRC_DIR (posix cwd)) with (@SRC_DIR unix).
  change (@joinpath (posix cwd)) with posixpath.joinpath.
  destruct (nonempty sub_path).
  - apply joinpath_rooted. by apply joinpath_rooted.
  - by apply joinpath_rooted.
Qed.

Lemma posix_target_dir_fixed cwd cwd' package sub_path :
  @ReplaceImportsDeep.target_dir (posix cwd) package sub_path
  = @ReplaceImportsDeep.target_dir (posix cwd') package sub_path.
Proof.
  unfold ReplaceImportsDeep.target_dir.
  change (@SRC_DIR (posix cwd)) with (@SRC_DIR unix).
  change (@SRC_DIR (posix cwd')) with (@SRC_DIR unix).
  reflexivity.
Qed.

Lemma parent_rooted (p : Path) :
  drv p = [] -> root p = [slash] ->
  startswith [slash] (posixpath.to_str (parent p)) = true.
Proof.
  intros Hd Hr. unfold parent, posixpath.to_str.
  destruct (tail p); cbn [drv root]; by rewrite ?Hd, ?Hr.
Qed.

Lemma foldl_agree {A B} (f g : A -> B -> A) (l : list B) : forall a,
  (forall a x, f a x = g a x) -> foldl f a l = foldl g a l.
Proof.
  induction l as [|x l IH]; intros a Hfg; [done|].
  simpl. rewrite Hfg. by apply IH.
Qed.

Section Absolute.
Variables (cwd cwd' : str) (file_path : Path).
Hypothesis no_drive : drv file_path = [].
Hypothesis rooted : root file_path = [slash].

Lemma deep_get_relative_path_absolute package sub_path :
  @ReplaceImportsDeep.get_relative_path (posix cwd) file_path package sub_path
  = @ReplaceImportsDeep.get_relative_path (posix cwd') file_path package
      sub_path.
Proof.
  unfold ReplaceImportsDeep.get_relative_path. cbv zeta.
  rewrite (posix_target_dir_fixed cwd cwd').
  change (@os_path_relpath (posix cwd) ?p ?s)
    with (posixpath.relpath cwd (posixpath.to_str p) (posixpath.to_str s)).
  change (@os_path_relpath (posix cwd') ?p ?s)
    with (posixpath.relpath cwd' (posixpath.to_str p) (posixpath.to_str s)).
  rewrite (relpath_absolute cwd cwd'); [done| |by apply parent_rooted].
  apply posix_target_dir_rooted.
Qed.

Lemma simple_get_relative_path_absolute package :
  @ReplaceImports.get_relative_path (posix cwd) file_path package
  = @ReplaceImports.get_relative_path (posix cwd') file_path package.
Proof.
  rewrite !simple_is_deep. apply deep_get_relative_path_absolute.
Qed.

Lemma deep_rewrite_content_absolute content :
  @ReplaceImportsDeep.rewrite_content (posix cwd) file_path content
  = @ReplaceImportsDeep.rewrite_content (posix cwd') file_path content.
Proof.
  unfold ReplaceImportsDeep.rewrite_content. apply foldl_agree.
  intros acc package. unfold ReplaceImportsDeep.rewrite_package.
  destruct (finditer _ acc.1); [done|].
  apply foldl_agree. intros [c n] m'.
  unfold ReplaceImportsDeep.rewrite_match, ReplaceImportsDeep.new_text.
  cbv zeta. by rewrite !deep_get_relative_path_absolute.
Qed.

Lemma simple_rewrite_content_absolute content :
  @ReplaceImports.rewrite_content (posix cwd) file_path content
  = @ReplaceImports.rewrite_content (posix cwd') file_path content.
Proof.
  unfold ReplaceImports.rewrite_content. apply foldl_agree.
  intros [c n] package. unfold ReplaceImports.rewrite_package.
  cbv zeta. by rewrite simple_get_relative_path_absolute.
Qed.
End Absolute.

(** X11: Under the POSIX flavour, for a file given by an absolute path, as
    [rglob] yields them below the source directory, neither the relative
    paths nor the rewritten content and count depend on the directory
    the script is started from. *)
Theorem working_directory_irrelevant cwd cwd' file_path :
  drv file_path = [] -> root file_path = [slash] ->
  (forall package sub_path,
     @ReplaceImportsDeep.get_relative_path (posix cwd) file_path package
       sub_path
     = @ReplaceImportsDeep.get_relative_path (posix cwd') file_path package
         sub_path)
  /\ (forall package,
        @ReplaceImports.get_relative_path (posix cwd) file_path package
        = @ReplaceImports.get_relative_path (posix cwd') file_path package)
  /\ (forall content,
        @ReplaceImportsDeep.rewrite_content (posix cwd) file_path content
        = @ReplaceImportsDeep.rewrite_content (posix cwd') file_path content)
  /\ (forall content,
        @ReplaceImports.rewrite_content (posix cwd) file_path content
        = @ReplaceImports.rewrite_content (posix cwd') file_path content).
Proof.
  intros Hd Hr. split; [|split; [|split]]; intros.
  - by apply deep_get_relative_path_absolute.
  - by apply simple_get_relative_path_absolute.
  - by apply deep_rewrite_content_absolute.
  - by apply simple_rewrite_content_absolute.
Qed.

Lemma working_directory_irrelevant_witness :
  @ReplaceImportsDeep.rewrite_content (posix (py "/")) button button_content
  = @ReplaceImportsDeep.rewrite_content (posix (py "/home/kennedy")) button
      button_content.
Proof.
  assert (Hd : drv button = []) by (vm_compute; reflexivity).
  assert (Hr : root button = [slash]) by (vm_compute; reflexivity).
  exact (proj1 (proj2 (proj2
           (working_directory_irrelevant (py "/") (py "/home/kennedy") button
              Hd Hr))) button_content).
Defined.

(** ** What a turn of replace-imports.py replaces *)

(** [gaps] and [texts] in alternation, a gap first, then [last]. *)
Fixpoint weave (gaps texts : list str) (last : str) : str :=
  match gaps, texts with
  | gap :: gaps', text :: texts' => gap ++ text ++ weave gaps' texts' last
  | _, _ => last
  end.

Lemma weave_cons c (gaps texts : list str) (last : str) :
  length gaps = length texts ->
  exists gaps' last',
    length gaps' = length texts
    /\ (forall texts', length texts' = length texts ->
          c :: weave gaps texts' last = weave gaps' texts' last').
Proof.
  intros Hlen. destruct gaps as [|gap gaps].
  - exists [], (c :: last). split; [done|]. by intros [|? ?].
  - exists ((c :: gap) :: gaps), last. split; [done|].
    destruct texts as [|text texts]; [done|]. by intros [|? ?].
Qed.

(** [re.sub] against [re.finditer]: the subject is the matches found,
    in order, with gaps between them, and the result is the same gaps with
    the replacement of each match in its place. *)
Lemma sub_from_weave r repl (s : str) : forall pos skip,
  exists gaps last,
    length gaps = length (finditer_from r s pos skip)
    /\ drop skip s = weave gaps (m_text <$> finditer_from r s pos skip) last
    /\ sub_from r repl s skip
       = weave gaps ((fun m => repl (m_caps m)) <$> finditer_from r s pos skip)
           last.
Proof.
  induction s as [|c s IH]; intros pos skip.
  - destruct skip as [|skip]; simpl.
    + destruct (match_at r []) as [[n g]|].
      * exists [[]], []. simpl. destruct n; simpl; by rewrite ?app_nil_r.
      * by exists [], [].
    + by exists [], [].
  - destruct skip as [|skip]; cbn [finditer_from sub_from].
    + destruct (match_at r (c :: s)) as [[n g]|] eqn:Hm.
      * destruct n as [|n].
        -- destruct (IH (S pos) 0) as (gaps & last & Hlen & Hs & Hsub).
           cbn [pred]. rewrite drop_0 in Hs.
           set (ms := finditer_from r s (S pos) 0) in *.
           destruct (weave_cons c gaps (m_text <$> ms) last)
             as (gaps' & last' & Hlen' & Hw); [by rewrite length_fmap|].
           exists ([] :: gaps'), last'.
           rewrite length_fmap in Hlen'.
           split; [simpl; by rewrite Hlen'|].
           cbn [fmap list_fmap weave m_text m_caps take app drop].
           split.
           ++ rewrite <- Hw by done. by rewrite <- Hs.
           ++ rewrite <- Hw by (by rewrite !length_fmap). by rewrite <- Hsub.
        -- destruct (IH (S pos) n) as (gaps & last & Hlen & Hs & Hsub).
           cbn [pred].
           exists ([] :: gaps), last.
           split; [simpl; by rewrite Hlen|].
           cbn [fmap list_fmap weave m_text m_caps app].
           rewrite <- Hs, <- Hsub. split; [|done].
           simpl. by rewrite take_drop.
      * destruct (IH (S pos) 0) as (gaps & last & Hlen & Hs & Hsub).
        rewrite drop_0 in Hs |- *.
        set (ms := finditer_from r s (S pos) 0) in *.
        destruct (weave_cons c gaps (m_text <$> ms) last)
          as (gaps' & last' & Hlen' & Hw); [by rewrite length_fmap|].
        exists gaps', last'. rewrite length_fmap in Hlen'.
        split; [done|]. split.
        -- rewrite <- Hw by done. by rewrite <- Hs.
        -- rewrite <- Hw by (by rewrite !length_fmap). by rewrite <- Hsub.
    + destruct (IH (S pos) skip) as (gaps & last & Hlen & Hs & Hsub).
      by exists gaps, last.
Qed.

(** A reference as the pattern of replace-imports.py matches it: the
    whitespace after [from] and the two quotes. *)
Definition static_reference (package : str) (ref : str * char * char) : str :=
  py "from" ++ ref.1.1 ++ ref.1.2 :: py "@ankaa/" ++ package ++ [ref.2].

(** The same reference with the module specifier replaced. *)
Definition static_rewritten (rel_path : str) (ref : str * char * char)
    : str :=
  py "from" ++ ref.1.1 ++ ref.1.2 :: rel_path ++ [ref.2].

Definition well_quoted (ref : str * char * char) : Prop :=
  ref.1.1 <> [] /\ whitespace ref.1.1
  /\ is_quote ref.1.2 = true /\ is_quote ref.2 = true.

Lemma simple_matches_references `{OsPath} package content
    (repl : caps -> str) rel_path ms :
  (forall g, repl g = expand g 1 ++ rel_path ++ expand g 2) ->
  Forall (fun m => m ∈ finditer (ReplaceImports.pattern package) content) ms ->
  exists refs,
    Forall well_quoted refs
    /\ m_text <$> ms = static_reference package <$> refs
    /\ (fun m => repl (m_caps m)) <$> ms = static_rewritten rel_path <$> refs.
Proof.
  intros Hrepl. induction 1 as [|m ms Hm _ (refs & Hq & Ht & Hr)].
  - by exists [].
  - apply finditer_sound in Hm as (n & _ & Hm & Htext).
    pose proof Hm as Hshape.
    apply simple_match_shape in Hshape
      as (W & q1 & q2 & rest & HW & Hws & Hq1 & Hq2 & Hs & Hn & Hg1 & Hg2).
    exists ((W, q1, q2) :: refs).
    split; [by constructor|].
    cbn [fmap list_fmap]. rewrite Ht, Hr. split; f_equal.
    + rewrite Htext, Hs, Hn. unfold static_reference. cbn [fst snd].
      rewrite <- (app_nil_r (py "from" ++ W ++ q1 :: py "@ankaa/" ++ package ++ [q2]))
        at 1.
      replace (py "from" ++ W ++ q1 :: py "@ankaa/" ++ package ++ q2 :: rest)
        with ((py "from" ++ W ++ q1 :: py "@ankaa/" ++ package ++ [q2]) ++ rest).
      * rewrite app_nil_r. by rewrite take_app_length.
      * rewrite <- !app_assoc. cbn [app]. by rewrite <- !app_assoc.
    + rewrite Hrepl. unfold expand, static_rewritten. rewrite Hg1, Hg2.
      cbn [default from_option fst snd]. unfold id.
      rewrite <- !app_assoc. reflexivity.
Qed.

(** X12: One turn of the loop of replace-imports.py: the content is a
    sequence of references to the package, each of them [from], some
    whitespace, a quote, the scoped name of the package and a quote, with
    gaps between them; the turn leaves the gaps as they are, puts the
    relative path in the place of the scoped name in every reference,
    keeping [from], the whitespace and both quotes, and adds the number
    of references to the count. *)
Theorem simple_turn_rewrites_references `{OsPath} file_path package content
    total :
  exists gaps refs last,
    length gaps = length refs
    /\ length refs
       = length (finditer (ReplaceImports.pattern package) content)
    /\ Forall well_quoted refs
    /\ content = weave gaps (static_reference package <$> refs) last
    /\ ReplaceImports.rewrite_package file_path (content, total) package
       = (weave gaps
            (static_rewritten
               (ReplaceImports.get_relative_path file_path package) <$> refs)
            last,
          total + length refs).
Proof.
  rewrite simple_rewrite_package. unfold simple_step, re_sub, finditer.
  set (repl := fun g : caps =>
                 expand g 1
                 ++ ReplaceImports.get_relative_path file_path package
                 ++ expand g 2).
  destruct (sub_from_weave (ReplaceImports.pattern package) repl content 0 0)
    as (gaps & last & Hlen & Hs & Hsub).
  rewrite drop_0 in Hs.
  destruct (simple_matches_references package content repl
              (ReplaceImports.get_relative_path file_path package)
              (finditer (ReplaceImports.pattern package) content))
    as (refs & Hq & Ht & Hr); [done|by apply Forall_of_elem|].
  unfold finditer in Ht, Hr. rewrite Ht in Hs. rewrite Hr in Hsub.
  assert (Hrefs : length refs
                  = length (finditer_from (ReplaceImports.pattern package)
                              content 0 0)).
  { apply (f_equal length) in Ht. by rewrite !length_fmap in Ht. }
  exists gaps, refs, last.
  split; [by rewrite Hrefs|]. split; [done|]. split; [done|].
  split; [done|]. by rewrite Hsub, Hrefs.
Qed.

(** ** What the deep script makes of a match *)

(** X13: Every match that replace-imports-deep.py processes is a reference to
    the package: an import prefix ([from] and whitespace, or [import],
    a parenthesis and optional whitespace), a quote, the scoped name of
    the package, an optional sub-path and a quote.  Its replacement keeps
    the prefix and both quotes as they are and puts between them the
    relative path to the sub-path without its leading slashes. *)
Theorem deep_match_is_reference `{OsPath} file_path package content m :
  m ∈ finditer (ReplaceImportsDeep.pattern package) content ->
  exists P q1 S q2,
    import_prefix P /\ is_quote q1 = true /\ is_quote q2 = true
    /\ sub_part S
    /\ m_text m = P ++ q1 :: py "@ankaa/" ++ package ++ S ++ [q2]
    /\ take (length (m_text m)) (drop (m_start m) content) = m_text m
    /\ ReplaceImportsDeep.new_text file_path package m
       = P ++ q1
           :: ReplaceImportsDeep.get_relative_path file_path package
                (lstrip slash S)
           ++ [q2].
Proof.
  intros Hin. apply finditer_sound in Hin as (n & _ & Hm & Htext).
  pose proof Hm as Hshape.
  apply deep_match_shape in Hshape
    as (P & q1 & S & q2 & rest & HP & Hq1 & Hq2 & HS & Hs & Hn
        & Hg1 & Hg2 & Hg3).
  exists P, q1, S, q2. do 4 (split; [done|]).
  assert (Hd : drop (m_start m) content
               = (P ++ q1 :: py "@ankaa/" ++ package ++ S ++ [q2]) ++ rest).
  { rewrite Hs, <- !app_assoc. cbn [app]. by rewrite <- !app_assoc. }
  assert (Ht : m_text m = P ++ q1 :: py "@ankaa/" ++ package ++ S ++ [q2]).
  { by rewrite Htext, Hd, Hn, take_app_length. }
  split; [done|]. split.
  - by rewrite Hd, Ht, take_app_length.
  - unfold ReplaceImportsDeep.new_text, expand. rewrite Hg1, Hg2, Hg3.
    cbn [default from_option]. unfold id. cbv zeta.
    rewrite <- app_assoc. cbn [app]. f_equal. f_equal. f_equal.
    destruct HS as [->|(S' & -> & HS' & _)]; [reflexivity|].
    change (nonempty (slash :: S')) with true. cbv iota.
    destruct (nonempty (lstrip slash (slash :: S'))) eqn:Hne; [done|].
    unfold nonempty in Hne. apply negb_false_iff, str_eqb_eq in Hne.
    by rewrite Hne.
Qed.

(** The match in [button_content]. *)
Definition button_match : Match :=
  default (mkMatch 0 [] [])
    (head (finditer (@ReplaceImportsDeep.pattern (py "types")) button_content)).

Lemma deep_match_is_reference_witness :
  exists P q1 S q2,
    import_prefix P /\ is_quote q1 = true /\ is_quote q2 = true
    /\ sub_part S
    /\ m_text button_match = P ++ q1 :: py "@ankaa/" ++ py "types" ++ S ++ [q2]
    /\ take (length (m_text button_match))
         (drop (m_start button_match) button_content)
       = m_text button_match
    /\ @ReplaceImportsDeep.new_text unix button (py "types") button_match
       = P ++ q1
           :: @ReplaceImportsDeep.get_relative_path unix button (py "types")
                (lstrip slash S)
           ++ [q2].
Proof.
  apply (@deep_match_is_reference unix button (py "types") button_content
           button_match).
  vm_compute. left.
Defined.

(** ** The first match of a turn is replaced where it stands *)

(** The matcher finds a match wherever the pattern has one that the
    continuation accepts. *)
Lemma rmatch_complete {R} r (w : str) g g' :
  matches r w g g' ->
  forall (s' : str) (k : str -> caps -> option R) x,
    k s' g' = Some x -> exists y, rmatch r (w ++ s') g k = Some y.
Proof.
  induction 1 as [l g|cs c g Hc|cs w g Hw|r1 r2 w1 w2 g g1 g2 _ IH1 _ IH2
                  |r1 r2 w g g' _ IH|r1 r2 w g g' _ IH|r w g g' _ IH|r g
                  |i r w g g' _ IH];
    intros s' k x Hk.
  - simpl. rewrite startswith_app, drop_app_length. eauto.
  - simpl. rewrite Hc. eauto.
  - cbn [rmatch]. induction Hw as [|c w Hc _ IHw].
    + simpl. destruct s' as [|c s']; [eauto|].
      destruct (in_class cs c); [|eauto].
      match goal with |- context [match ?t with _ => _ end] =>
        destruct t; eauto end.
    + simpl. rewrite Hc. destruct IHw as [y Hy].
      cbn [rmatch] in Hy. rewrite Hy. eauto.
  - cbn [rmatch]. rewrite <- app_assoc.
    destruct (IH2 s' k x Hk) as [y Hy].
    by apply (IH1 (w2 ++ s') (fun s1 g1 => rmatch r2 s1 g1 k) y).
  - cbn [rmatch]. destruct (IH s' k x Hk) as [y ->]. eauto.
  - cbn [rmatch]. destruct (rmatch r1 (w ++ s') g k); [eauto|].
    by apply (IH s' k x).
  - cbn [rmatch]. destruct (IH s' k x Hk) as [y ->]. eauto.
  - cbn [rmatch]. simpl. destruct (rmatch r s' g k); eauto.
  - cbn [rmatch].
    apply (IH s' (fun s1 g1 => k s1 ((i, consumed (w ++ s') s1) :: g1)) x).
    by rewrite consumed_app.
Qed.

Lemma match_at_complete r (w s' : str) g :
  matches r w [] g -> exists n g', match_at r (w ++ s') = Some (n, g').
Proof.
  intros Hw. unfold match_at.
  destruct (rmatch_complete r w [] g Hw s'
              (fun s1 g1 => Some (length (w ++ s') - length s1, g1))
              (length (w ++ s') - length s', g) eq_refl) as [[n g'] Hy].
  eauto.
Qed.

(** Nothing matches before the first match reported. *)
Lemma finditer_from_first r (s : str) : forall pos m ms,
  finditer_from r s pos 0 = m :: ms ->
  pos <= m_start m
  /\ forall j, j < m_start m - pos -> match_at r (drop j s) = None.
Proof.
  induction s as [|c s IH]; intros pos m ms Hf.
  - simpl in Hf. destruct (match_at r []) as [[n g]|]; [|done].
    injection Hf as <- <-. simpl. split; [lia|]. intros j Hj. lia.
  - cbn [finditer_from] in Hf.
    destruct (match_at r (c :: s)) as [[n g]|] eqn:Hm.
    + injection Hf as <- <-. simpl. split; [lia|]. intros j Hj. lia.
    + apply IH in Hf as [Hpos Hnone]. split; [lia|].
      intros [|j] Hj; [done|]. simpl. apply Hnone. lia.
Qed.

Lemma finditer_first r (s : str) m ms :
  finditer r s = m :: ms ->
  forall j, j < m_start m -> match_at r (drop j s) = None.
Proof.
  intros Hf j Hj. apply finditer_from_first in Hf as [_ Hnone].
  apply Hnone. lia.
Qed.

(** The text of the first match does not stand further to the left. *)
Lemma first_match_leftmost r (s : str) m ms :
  finditer r s = m :: ms ->
  exists a b,
    s = a ++ m_text m ++ b /\ length a = m_start m
    /\ forall i, i < length a ->
         startswith (m_text m) (drop i (a ++ m_text m ++ b)) = false.
Proof.
  intros Hf.
  assert (Hin : m ∈ finditer r s) by (rewrite Hf; by left).
  apply finditer_sound in Hin as (n & Hlen & Hm & Htext).
  pose proof Hm as Hsound.
  apply match_at_sound in Hsound as (w & rest & Hd & Hw & ->).
  rewrite Hd, take_app_length in Htext.
  exists (take (m_start m) s), rest.
  assert (Hs : s = take (m_start m) s ++ m_text m ++ rest).
  { rewrite Htext, <- Hd. by rewrite take_drop. }
  split; [done|]. split; [rewrite length_take; lia|].
  intros i Hi. rewrite <- Hs. rewrite length_take in Hi.
  destruct (startswith (m_text m) (drop i s)) eqn:Hstart; [|done].
  apply startswith_spec in Hstart as [b' Hb'].
  rewrite Htext in Hb'.
  destruct (match_at_complete r w b' _ Hw) as (n' & g' & Hmatch).
  rewrite <- Hb' in Hmatch.
  rewrite (finditer_first r s m ms Hf i) in Hmatch; [done|lia].
Qed.

(** X14: For the first match that replace-imports-deep.py finds for a
    package, [str.replace] rewrites the very occurrence that was matched:
    the text before and after the match stays, the match is replaced by
    its new text and the count grows by one. *)
Theorem first_match_replaced_in_place `{OsPath} file_path package content
    total m ms :
  finditer (ReplaceImportsDeep.pattern package) content = m :: ms ->
  exists before after,
    content = before ++ m_text m ++ after
    /\ length before = m_start m
    /\ ReplaceImportsDeep.rewrite_match file_path package (content, total) m
       = (before ++ ReplaceImportsDeep.new_text file_path package m ++ after,
          total + 1)
    /\ (ms = [] ->
        ReplaceImportsDeep.rewrite_package file_path (content, total) package
        = (before ++ ReplaceImportsDeep.new_text file_path package m ++ after,
           total + 1)).
Proof.
  intros Hf.
  destruct (first_match_leftmost _ _ _ _ Hf) as (a & b & Hs & Hlen & Hleft).
  exists a, b. split; [done|]. split; [done|].
  assert (Hstep :
    ReplaceImportsDeep.rewrite_match file_path package (content, total) m
    = (a ++ ReplaceImportsDeep.new_text file_path package m ++ b, total + 1)).
  { unfold ReplaceImportsDeep.rewrite_match. cbv zeta. f_equal.
    rewrite Hs at 1. by apply replace_first_at. }
  split; [done|]. intros ->.
  unfold ReplaceImportsDeep.rewrite_package. cbn [fst]. rewrite Hf.
  cbn [foldl]. done.
Qed.

Lemma first_match_replaced_in_place_witness :
  exists before after,
    button_content = before ++ m_text button_match ++ after
    /\ length before = m_start button_match
    /\ @ReplaceImportsDeep.rewrite_match unix button (py "types")
         (button_content, 0) button_match
       = (before
          ++ @ReplaceImportsDeep.new_text unix button (py "types") button_match
          ++ after,
          0 + 1)
    /\ (@nil Match = [] ->
        @ReplaceImportsDeep.rewrite_package unix button
          (button_content, 0) (py "types")
        = (before
           ++ @ReplaceImportsDeep.new_text unix button (py "types")
                button_match
           ++ after,
           0 + 1)).
Proof.
  apply (@first_match_replaced_in_place unix button (py "types")
           button_content 0 button_match []).
  vm_compute. reflexivity.
Defined.

(** ** The deep pattern covers the pattern of replace-imports.py *)

Lemma package_level_matches `{OsPath} package c (W : str) q1 q2 :
  is_space c = true -> whitespace W ->
  is_quote q1 = true -> is_quote q2 = true ->
  matches (ReplaceImportsDeep.pattern package)
    ((py "from" ++ ([c] ++ W) ++ [q1])
     ++ (py "@ankaa/" ++ package) ++ [] ++ [q2])
    [] [(3, [q2]); (1, py "from" ++ ([c] ++ W) ++ [q1])].
Proof.
  intros Hc HW Hq1 Hq2. unfold ReplaceImportsDeep.pattern.
  eapply MCat.
  - apply MGroup, MAltL. eapply MCat; [apply MLit|].
    eapply MCat; [|by apply MSet].
    unfold RPlus. eapply MCat; [by apply MSet|by apply MStar].
  - eapply MCat; [apply MLit|].
    eapply MCat; [apply MOptNone|]. apply MGroup. by apply MSet.
Qed.

(** A package-level reference at the head of a text is matched by the
    deep pattern as it stands: the prefix in group 1, no sub-path, the
    closing quote in group 3. *)
Lemma deep_match_package_level `{OsPath} package (W : str) q1 q2 rest :
  W <> [] -> whitespace W -> is_quote q1 = true -> is_quote q2 = true ->
  exists g,
    match_at (ReplaceImportsDeep.pattern package)
      (py "from" ++ W ++ q1 :: py "@ankaa/" ++ package ++ q2 :: rest)
    = Some (length (py "from" ++ W ++ q1 :: py "@ankaa/" ++ package ++ [q2]),
            g)
    /\ group g 1 = Some (py "from" ++ W ++ [q1])
    /\ group g 2 = None
    /\ group g 3 = Some [q2].
Proof.
  intros HW Hws Hq1 Hq2.
  destruct W as [|c W]; [done|].
  apply Forall_cons_1 in Hws as [Hc Hws].
  set (word := (py "from" ++ ([c] ++ W) ++ [q1])
               ++ (py "@ankaa/" ++ package) ++ [] ++ [q2]).
  assert (Hword : py "from" ++ (c :: W) ++ q1
                    :: py "@ankaa/" ++ package ++ q2 :: rest
                  = word ++ rest).
  { unfold word. norm_app. reflexivity. }
  destruct (match_at_complete (ReplaceImportsDeep.pattern package) word rest _
              (package_level_matches package c W q1 q2 Hc Hws Hq1 Hq2))
    as (n' & g' & Hdeep).
  pose proof Hdeep as Hshape.
  apply deep_match_shape in Hshape
    as (P' & q1' & S' & q2' & rest' & HP' & Hq1' & Hq2' & HS' & Hs' & Hn'
        & Hg1' & Hg2' & Hg3').
  assert (Hcut : P' ++ q1' :: py "@ankaa/" ++ package ++ S' ++ q2' :: rest'
                 = (py "from" ++ c :: W)
                   ++ q1 :: py "@ankaa/" ++ package ++ q2 :: rest).
  { rewrite <- Hs'. unfold word. norm_app. reflexivity. }
  apply first_cut with (sep := is_quote) in Hcut as (HP & Hq & Htail);
    [|by apply import_prefix_quote_free| |done|done].
  2:{ apply quote_free_app. split; [by vm_compute; repeat constructor|].
      apply whitespace_quote_free. by constructor. }
  apply app_inv_head in Htail. apply app_inv_head in Htail.
  destruct HS' as [->|(S'' & -> & _ & _)]; [|exfalso].
  2:{ injection Htail as Hslash _. rewrite <- Hslash in Hq2.
      vm_compute in Hq2. discriminate. }
  injection Htail as -> ->. subst P' q1'.
  exists g'. rewrite Hword, Hdeep, Hn'. split; [|by rewrite <- app_assoc in Hg1'].
  do 2 f_equal.
Qed.

(** Where the pattern of replace-imports.py matches, so does the deep
    pattern, and as far. *)
Lemma simple_match_in_deep `{OsPath} package (s : str) n g :
  match_at (ReplaceImports.pattern package) s = Some (n, g) ->
  exists g',
    match_at (ReplaceImportsDeep.pattern package) s = Some (n, g')
    /\ group g' 1 = group g 1 /\ group g' 2 = None
    /\ group g' 3 = group g 2.
Proof.
  intros Hm. apply simple_match_shape in Hm
    as (W & q1 & q2 & rest & HW & Hws & Hq1 & Hq2 & -> & -> & Hg1 & Hg2).
  destruct (deep_match_package_level package W q1 q2 rest HW Hws Hq1 Hq2)
    as (g' & Hdeep & Hg1' & Hg2' & Hg3').
  exists g'. by rewrite Hg1, Hg2.
Qed.

(** X15: Wherever the pattern of replace-imports.py matches, the pattern of
    replace-imports-deep.py matches the same text, and the text the deep
    script builds for it is the one replace-imports.py puts there. *)
Theorem deep_pattern_covers_simple `{OsPath} file_path package content m :
  m ∈ finditer (ReplaceImports.pattern package) content ->
  exists g,
    match_at (ReplaceImportsDeep.pattern package) (drop (m_start m) content)
    = Some (length (m_text m), g)
    /\ ReplaceImportsDeep.new_text file_path package
         (mkMatch (m_start m) (m_text m) g)
       = expand (m_caps m) 1
         ++ ReplaceImports.get_relative_path file_path package
         ++ expand (m_caps m) 2.
Proof.
  intros Hin. apply finditer_sound in Hin as (n & _ & Hm & Htext).
  pose proof (match_at_length _ _ _ _ Hm) as Hlen.
  destruct (simple_match_in_deep _ _ _ _ Hm) as (g' & Hdeep & Hg1 & Hg2 & Hg3).
  exists g'. split.
  - rewrite Hdeep, Htext, length_take. do 2 f_equal. lia.
  - unfold ReplaceImportsDeep.new_text, expand. cbn [m_caps].
    rewrite Hg1, Hg2, Hg3. cbv zeta.
    change (nonempty []) with false. cbv iota.
    by rewrite simple_is_deep.
Qed.

Lemma deep_pattern_covers_simple_witness :
  let m := default (mkMatch 0 [] [])
             (head (finditer (@ReplaceImports.pattern (py "types"))
                      package_import)) in
  exists g,
    match_at (@ReplaceImportsDeep.pattern (py "types"))
      (drop (m_start m) package_import)
    = Some (length (m_text m), g)
    /\ @ReplaceImportsDeep.new_text unix button (py "types")
         (mkMatch (m_start m) (m_text m) g)
       = expand (m_caps m) 1
         ++ @ReplaceImports.get_relative_path unix button (py "types")
         ++ expand (m_caps m) 2.
Proof.
  apply (@deep_pattern_covers_simple unix button (py "types") package_import).
  vm_compute. left.
Defined.

(** ** A package-level import, in both scripts *)

Lemma simple_package_level_matches `{OsPath} package c (W : str) q1 q2 :
  is_space c = true -> whitespace W ->
  is_quote q1 = true -> is_quote q2 = true ->
  matches (ReplaceImports.pattern package)
    ((py "from" ++ ([c] ++ W) ++ [q1]) ++ (py "@ankaa/" ++ package) ++ [q2])
    [] [(2, [q2]); (1, py "from" ++ ([c] ++ W) ++ [q1])].
Proof.
  intros Hc HW Hq1 Hq2. unfold ReplaceImports.pattern.
  eapply MCat.
  - apply MGroup. eapply MCat; [apply MLit|].
    eapply MCat; [|by apply MSet].
    unfold RPlus. eapply MCat; [by apply MSet|by apply MStar].
  - eapply MCat; [apply MLit|]. apply MGroup. by apply MSet.
Qed.

(** A package-level reference at the head of a text is matched by the
    pattern of replace-imports.py as it stands. *)
Lemma simple_match_package_level `{OsPath} package (W : str) q1 q2 rest :
  W <> [] -> whitespace W -> is_quote q1 = true -> is_quote q2 = true ->
  exists g,
    match_at (ReplaceImports.pattern package)
      (py "from" ++ W ++ q1 :: py "@ankaa/" ++ package ++ q2 :: rest)
    = Some (length (py "from" ++ W ++ q1 :: py "@ankaa/" ++ package ++ [q2]),
            g)
    /\ group g 1 = Some (py "from" ++ W ++ [q1])
    /\ group g 2 = Some [q2].
Proof.
  intros HW Hws Hq1 Hq2.
  destruct W as [|c W]; [done|].
  pose proof Hws as Hall.
  apply Forall_cons_1 in Hws as [Hc Hws].
  set (word := (py "from" ++ ([c] ++ W) ++ [q1])
               ++ (py "@ankaa/" ++ package) ++ [q2]).
  assert (Hword : py "from" ++ (c :: W) ++ q1
                    :: py "@ankaa/" ++ package ++ q2 :: rest
                  = word ++ rest).
  { unfold word. norm_app. reflexivity. }
  destruct (match_at_complete (ReplaceImports.pattern package) word rest _
              (simple_package_level_matches package c W q1 q2 Hc Hws Hq1 Hq2))
    as (n' & g' & Hsimple).
  pose proof Hsimple as Hshape.
  apply simple_match_shape in Hshape
    as (W' & q1' & q2' & rest' & HW' & Hws' & Hq1' & Hq2' & Hs' & Hn'
        & Hg1' & Hg2').
  assert (Hcut : (py "from" ++ W')
                   ++ q1' :: py "@ankaa/" ++ package ++ q2' :: rest'
                 = (py "from" ++ c :: W)
                   ++ q1 :: py "@ankaa/" ++ package ++ q2 :: rest).
  { rewrite <- !app_assoc. rewrite <- Hs'. unfold word. norm_app.
    reflexivity. }
  assert (Hfree : forall X, whitespace X -> quote_free (py "from" ++ X)).
  { intros X HX. apply quote_free_app.
    split; [by vm_compute; repeat constructor|].
    by apply whitespace_quote_free. }
  apply first_cut with (sep := is_quote) in Hcut as (HP & Hq & Htail);
    [|by apply Hfree|by apply Hfree|done|done].
  apply app_inv_head in HP. apply app_inv_head in Htail.
  apply app_inv_head in Htail. injection Htail as -> ->. subst W' q1'.
  exists g'. rewrite Hword, Hsimple, Hn'. done.
Qed.

(** Where the deep pattern does not match, the pattern of
    replace-imports.py does not either. *)
Lemma simple_none_of_deep `{OsPath} package (s : str) :
  match_at (ReplaceImportsDeep.pattern package) s = None ->
  match_at (ReplaceImports.pattern package) s = None.
Proof.
  intros Hdeep.
  destruct (match_at (ReplaceImports.pattern package) s) as [[n g]|] eqn:Hm;
    [|done].
  apply simple_match_in_deep in Hm as (g' & Hm & _). congruence.
Qed.

(** [re.sub] passes over the text before the first position where the
    pattern matches, replaces a match at the head and goes on after it. *)
Lemma sub_from_app r repl (a s : str) :
  (forall i, i < length a -> match_at r (drop i (a ++ s)) = None) ->
  sub_from r repl (a ++ s) 0 = a ++ sub_from r repl s 0.
Proof.
  induction a as [|c a IH]; intros Hnone; [done|].
  pose proof (Hnone 0 ltac:(simpl; lia)) as H0. simpl in H0.
  simpl. rewrite H0. f_equal. apply IH.
  intros i Hi. apply (Hnone (S i)). simpl. lia.
Qed.

Lemma sub_from_skip r repl : forall skip (s : str),
  skip <= length s ->
  sub_from r repl s skip = sub_from r repl (drop skip s) 0.
Proof.
  induction skip as [|skip IH]; intros s Hlen; [done|].
  destruct s as [|c s]; simpl in Hlen; [lia|].
  simpl. apply IH. lia.
Qed.

Lemma sub_from_match r repl (s : str) n g :
  match_at r s = Some (n, g) -> 0 < n ->
  sub_from r repl s 0 = repl g ++ sub_from r repl (drop n s) 0.
Proof.
  intros Hm Hn. pose proof (match_at_length _ _ _ _ Hm) as Hlen.
  destruct s as [|c s]; simpl in Hlen; [lia|].
  cbn [sub_from]. rewrite Hm. f_equal.
  destruct n as [|n]; [lia|]. simpl. apply sub_from_skip. lia.
Qed.

Lemma sub_from_none r repl (s : str) :
  (forall i, match_at r (drop i s) = None) -> sub_from r repl s 0 = s.
Proof.
  intros Hnone. apply (sub_from_no_match r repl s 0).
  by apply finditer_from_none.
Qed.

(** What is reported to hold no match holds none at any position. *)
Lemma finditer_from_nil r (s : str) : forall pos,
  finditer_from r s pos 0 = [] -> forall i, match_at r (drop i s) = None.
Proof.
  induction s as [|c s IH]; intros pos Hf i.
  - rewrite drop_nil. simpl in Hf. by destruct (match_at r []) as [[? ?]|].
  - cbn [finditer_from] in Hf.
    destruct (match_at r (c :: s)) as [[n g]|] eqn:Hm; [done|].
    destruct i as [|i]; [done|]. simpl. by eapply IH.
Qed.

Lemma simple_finditer_nil_of_deep `{OsPath} package (s : str) :
  finditer (ReplaceImportsDeep.pattern package) s = [] ->
  finditer (ReplaceImports.pattern package) s = [].
Proof.
  intros Hdeep. apply finditer_none. intros i.
  apply simple_none_of_deep. by eapply finditer_from_nil.
Qed.

Section PackageLevel.
Context `{OsPath}.
Variables (file_path : Path) (package : str).
Variables (before after W : str) (q q' : char).
Hypothesis package_configured : package ∈ @PACKAGES.
Hypothesis before_free : quote_free before.
Hypothesis after_free : quote_free after.
Hypothesis space_nonempty : W <> [].
Hypothesis space_ok : whitespace W.
Hypothesis open_quote : is_quote q = true.
Hypothesis close_quote : is_quote q' = true.

(** The import, and the content around it. *)
Definition static_import : str :=
  py "from" ++ W ++ q :: py "@ankaa/" ++ package ++ [q'].

Definition importing : str := before ++ static_import ++ after.

Lemma from_prefix : import_prefix (py "from" ++ W).
Proof. by constructor. Qed.

Lemma importing_cut :
  importing
  = (before ++ py "from" ++ W)
    ++ q :: (py "@ankaa/" ++ package) ++ q' :: after.
Proof. unfold importing, static_import. norm_app. reflexivity. Qed.

Lemma importing_head_free : quote_free (before ++ py "from" ++ W).
Proof.
  apply quote_free_app. split; [done|].
  apply import_prefix_quote_free, from_prefix.
Qed.

Lemma importing_tail_one_quote :
  count_quotes ((py "@ankaa/" ++ package) ++ q' :: after) <= 1.
Proof.
  apply tail_one_quote; [done|done|].
  apply quote_free_app. split; [apply scope_quote_free|].
  by apply packages_quote_free.
Qed.

Lemma deep_none_before k i :
  i < length before ->
  match_at (ReplaceImportsDeep.pattern k) (drop i importing) = None.
Proof.
  intros Hi. destruct (match_at _ _) as [[n g]|] eqn:Hm; [exfalso|done].
  rewrite importing_cut in Hm.
  apply deep_match_after_first_quote in Hm as (_ & Hpre & _);
    [|apply importing_head_free|done|apply importing_tail_one_quote].
  rewrite drop_app_le in Hpre by lia.
  apply (import_prefix_suffix (drop i before) (py "from" ++ W)) in Hpre;
    [|apply from_prefix].
  apply (f_equal length) in Hpre. rewrite length_drop in Hpre.
  simpl in Hpre. lia.
Qed.

Lemma deep_none_other k i :
  k ∈ @PACKAGES -> k <> package ->
  match_at (ReplaceImportsDeep.pattern k) (drop i importing) = None.
Proof.
  intros Hk Hne. destruct (match_at _ _) as [[n g]|] eqn:Hm; [exfalso|done].
  rewrite importing_cut in Hm.
  apply deep_match_after_first_quote in Hm
    as (_ & _ & S & q2 & rest & HS & Hq2 & Heq);
    [|apply importing_head_free|done|apply importing_tail_one_quote].
  rewrite <- !app_assoc in Heq. apply app_inv_head in Heq.
  assert (Hq2s : is_sep q2 = true)
    by (unfold is_sep; rewrite Hq2; apply orb_true_r).
  assert (Hq's : is_sep q' = true)
    by (unfold is_sep; rewrite close_quote; apply orb_true_r).
  destruct HS as [->|(S' & -> & _ & _)]; simpl in Heq.
  - apply first_cut with (sep := is_sep) in Heq as (Heq & _ & _);
      [congruence|by apply packages_sep_free..|done|done].
  - apply first_cut with (sep := is_sep) in Heq as (Heq & _ & _);
      [congruence|by apply packages_sep_free..|done|done].
Qed.

Lemma static_import_length : 0 < length static_import.
Proof.
  unfold static_import. rewrite !length_app. simpl.
  rewrite !length_app. simpl. lia.
Qed.

(** Both patterns find the import and nothing else. *)
Lemma deep_finditer_importing :
  exists g,
    finditer (ReplaceImportsDeep.pattern package) importing
    = [mkMatch (length before) static_import g]
    /\ group g 1 = Some (py "from" ++ W ++ [q])
    /\ group g 2 = None /\ group g 3 = Some [q'].
Proof.
  destruct (deep_match_package_level package W q q' after)
    as (g & Hm & Hg); [done..|].
  exists g. split; [|done]. unfold finditer, importing.
  rewrite finditer_from_app by (intros i Hi; by apply deep_none_before).
  assert (Hs : static_import ++ after
               = py "from" ++ W ++ q :: py "@ankaa/" ++ package ++ q' :: after).
  { unfold static_import. norm_app. reflexivity. }
  rewrite (finditer_from_match _ _ _ (length static_import) g);
    [|by rewrite Hs|apply static_import_length].
  rewrite take_app_length, drop_app_length.
  rewrite finditer_from_none; [done|].
  intros i. by apply match_needs_quote.
Qed.

Lemma simple_finditer_importing :
  exists g,
    finditer (ReplaceImports.pattern package) importing
    = [mkMatch (length before) static_import g]
    /\ group g 1 = Some (py "from" ++ W ++ [q])
    /\ group g 2 = Some [q'].
Proof.
  destruct (simple_match_package_level package W q q' after)
    as (g & Hm & Hg); [done..|].
  exists g. split; [|done]. unfold finditer, importing.
  rewrite finditer_from_app
    by (intros i Hi; by apply simple_none_of_deep, deep_none_before).
  assert (Hs : static_import ++ after
               = py "from" ++ W ++ q :: py "@ankaa/" ++ package ++ q' :: after).
  { unfold static_import. norm_app. reflexivity. }
  rewrite (finditer_from_match _ _ _ (length static_import) g);
    [|by rewrite Hs|apply static_import_length].
  rewrite take_app_length, drop_app_length.
  rewrite finditer_from_none; [done|].
  intros i. by apply simple_none_of_deep, match_needs_quote.
Qed.

(** The turn of the package, in either script. *)
Lemma simple_step_importing :
  simple_step file_path package importing
  = rewritten before after (py "from" ++ W) q q'
      (ReplaceImports.get_relative_path file_path package).
Proof.
  destruct (simple_match_package_level package W q q' after)
    as (g & Hm & Hg1 & Hg2); [done..|].
  assert (Hs : static_import ++ after
               = py "from" ++ W ++ q :: py "@ankaa/" ++ package ++ q' :: after).
  { unfold static_import. norm_app. reflexivity. }
  unfold simple_step, re_sub, importing.
  rewrite sub_from_app
    by (intros i Hi; by apply simple_none_of_deep, deep_none_before).
  rewrite (sub_from_match _ _ _ (length static_import) g);
    [|by rewrite Hs|apply static_import_length].
  rewrite drop_app_length.
  rewrite sub_from_none
    by (intros i; by apply simple_none_of_deep, match_needs_quote).
  unfold expand. rewrite Hg1, Hg2. cbn [default from_option]. unfold id.
  unfold rewritten. norm_app. reflexivity.
Qed.

Lemma deep_step_importing :
  deep_step file_path package importing
  = rewritten before after (py "from" ++ W) q q'
      (ReplaceImports.get_relative_path file_path package).
Proof.
  destruct deep_finditer_importing as (g & Hf & Hg1 & Hg2 & Hg3).
  unfold deep_step. rewrite Hf. cbn [foldl m_text].
  unfold ReplaceImportsDeep.new_text, expand. cbn [m_caps].
  rewrite Hg1, Hg2, Hg3. cbn [default from_option]. unfold id. cbv zeta.
  change (nonempty []) with false. cbv iota.
  rewrite <- simple_is_deep.
  destruct (first_match_leftmost _ _ _ _ Hf)
    as (a & b & Hs & Hlen & Hleft).
  cbn [m_text m_start] in Hs, Hlen, Hleft.
  assert (Ha : a = before /\ b = after).
  { unfold importing in Hs. apply app_inj_1 in Hs as [Ha Hs]; [|done].
    apply app_inv_head in Hs. done. }
  destruct Ha as [-> ->].
  unfold importing. rewrite replace_first_at by done.
  unfold rewritten. norm_app. reflexivity.
Qed.
End PackageLevel.

(** X16: Under the POSIX flavour, a package-level [from] import of a
    configured package, in text without quotes, is rewritten by both
    scripts, and in the same way: the scoped name gives way to the
    relative path, [from], the whitespace and the two quotes stay, and
    one replacement is counted.  Neither script finds anything to replace
    in the result. *)
Theorem package_import_rewritten cwd file_path package before after W q q' :
  package ∈ @PACKAGES ->
  quote_free before -> quote_free after ->
  W <> [] -> whitespace W -> is_quote q = true -> is_quote q' = true ->
  let flavour := posix cwd in
  let rel := ReplaceImports.get_relative_path file_path package in
  let content :=
    before ++ (py "from" ++ W ++ q :: py "@ankaa/" ++ package ++ [q'])
    ++ after in
  let result := before ++ (py "from" ++ W ++ q :: rel ++ [q']) ++ after in
  ReplaceImports.rewrite_content file_path content = (result, 1)
  /\ ReplaceImportsDeep.rewrite_content file_path content = (result, 1)
  /\ ReplaceImports.rewrite_content file_path result = (result, 0)
  /\ ReplaceImportsDeep.rewrite_content file_path result = (result, 0).
Proof.
  intros Hpk Hb Ha HW Hws Hq Hq' flavour rel content result.
  assert (Hcontent : content = importing package before after W q q')
    by reflexivity.
  assert (Hresult : result = rewritten before after (py "from" ++ W) q q' rel)
    by reflexivity.
  clearbody content result. subst content result.
  destruct (posix_relative_path_shape cwd file_path package [] Hpk)
    as [Hfree Hdot]; [constructor|].
  rewrite <- (@simple_is_deep flavour) in Hfree, Hdot.
  fold rel in Hfree, Hdot.
  assert (Hnone : forall k,
            finditer (@ReplaceImportsDeep.pattern k)
              (rewritten before after (py "from" ++ W) q q' rel) = []).
  { intros k.
    apply (@finditer_rewritten unix before after (py "from" ++ W) q q');
      try done. by constructor. }
  assert (Hother : forall k, k ∈ @PACKAGES -> k <> package ->
            finditer (@ReplaceImportsDeep.pattern k)
              (importing package before after W q q') = []).
  { intros k Hk Hne. apply finditer_none. intros i.
    by apply (@deep_none_other unix package before after W q q'). }
  split; [|split; [|split]].
  - rewrite (@simple_rewrite_content_turns flavour). cbv zeta.
    destruct (turns_single (@ReplaceImports.pattern)
                (@simple_step flavour file_path) (@PACKAGES) package
                (importing package before after W q q')
                (rewritten before after (py "from" ++ W) q q' rel))
      as [Hc Hn].
    + intros k c0. apply (@simple_step_no_match flavour).
    + done.
    + intros k Hk Hne. apply (@simple_finditer_nil_of_deep unix).
      by apply Hother.
    + intros k _. by apply (@simple_finditer_nil_of_deep unix).
    + destruct (@simple_finditer_importing unix package before after W q q')
        as (g & -> & _); done.
    + by apply (@simple_step_importing flavour).
    + by rewrite Hc, Hn.
  - rewrite (@deep_rewrite_content_turns flavour). cbv zeta.
    destruct (turns_single (@ReplaceImportsDeep.pattern)
                (@deep_step flavour file_path) (@PACKAGES) package
                (importing package before after W q q')
                (rewritten before after (py "from" ++ W) q q' rel))
      as [Hc Hn].
    + intros k c0. apply (@deep_step_no_match flavour).
    + done.
    + done.
    + intros k _. done.
    + destruct (@deep_finditer_importing unix package before after W q q')
        as (g & -> & _); done.
    + by apply (@deep_step_importing flavour).
    + by rewrite Hc, Hn.
  - apply (@simple_unreferenced flavour). apply Forall_of_elem.
    intros k _. by apply (@simple_finditer_nil_of_deep unix).
  - apply (@deep_unreferenced flavour). apply Forall_of_elem.
    intros k _. done.
Qed.

Lemma package_import_rewritten_witness :
  let rel := @ReplaceImports.get_relative_path unix button (py "types") in
  let content :=
    py "import { t } "
    ++ (py "from" ++ py " " ++ squote :: py "@ankaa/" ++ py "types" ++ [squote])
    ++ py ";" in
  let result :=
    py "import { t } " ++ (py "from" ++ py " " ++ squote :: rel ++ [squote])
    ++ py ";" in
  @ReplaceImports.rewrite_content unix button content = (result, 1)
  /\ @ReplaceImportsDeep.rewrite_content unix button content = (result, 1)
  /\ @ReplaceImports.rewrite_content unix button result = (result, 0)
  /\ @ReplaceImportsDeep.rewrite_content unix button result = (result, 0).
Proof.
  apply (package_import_rewritten (py "/") button (py "types")
           (py "import { t } ") (py ";") (py " ") squote squote).
  - apply str_in_elem_of. vm_compute. reflexivity.
  - unfold quote_free. check_chars.
  - unfold quote_free. check_chars.
  - discriminate.
  - unfold whitespace. check_chars.
  - reflexivity.
  - reflexivity.
Defined.

(** ** What a whole run can touch *)

Definition printed_only (es : list event) : Prop :=
  forall q m, Opened q m ∉ es.

Lemma printed_only_fmap (ls : list line) : printed_only (Printed <$> ls).
Proof.
  intros q m Hin. apply list_elem_of_fmap_1 in Hin as (l & Hl & _). done.
Qed.

Lemma printed_only_app (a b : list event) :
  printed_only a -> printed_only b -> printed_only (a ++ b).
Proof.
  intros Ha Hb q m Hin. apply elem_of_app in Hin as [Hin|Hin].
  - by apply (Ha q m).
  - by apply (Hb q m).
Qed.

Lemma warnings_printed_only `{OsPath} w packages :
  printed_only (warnings w packages).
Proof.
  intros q m Hin. unfold warnings in Hin.
  apply list_elem_of_fmap_1 in Hin as (l & Hl & _). done.
Qed.

(** A path touched by a run that prints, processes a directory and prints
    again has been touched while the directory was processed. *)
Lemma touched_between (w w0 w' : world) (pre post : list event) q :
  fs w0 = fs w -> trace w0 = trace w ++ pre ->
  printed_only pre -> printed_only post ->
  (exists es, trace w' = trace w0 ++ es) ->
  touched q w (mkWorld (fs w') (trace w' ++ post)) -> touched q w0 w'.
Proof.
  intros Hfs Htr Hpre Hpost [es Hes] [[m Hm]|Hne].
  - left. exists m. unfold events_since in *. cbn [trace] in Hm.
    rewrite Hes, drop_app_length.
    rewrite Hes, Htr, <- !app_assoc, drop_app_length in Hm.
    apply elem_of_app in Hm as [Hm|Hm]; [by destruct (Hpre q m)|].
    apply elem_of_app in Hm as [Hm|Hm]; [done|by destruct (Hpost q m)].
  - right. cbn [fs] in Hne. by rewrite Hfs.
Qed.

Lemma source_file_same_files `{OsPath} directory (w w0 : world) q :
  fs w0 = fs w -> source_file directory w0 q -> source_file directory w q.
Proof.
  intros Hfs (Hb & Hts & Hex & Hfile). repeat split; try done.
  unfold file_in in *. by rewrite <- Hfs.
Qed.

Section Reach.
Context `{OsPath}.
Hypothesis src_nested : nested.

Lemma completes_reach process opening notes w result q :
  (forall w0 q,
     touched q w0 (run (process SRC_DIR) w0).2 ->
     source_file SRC_DIR w0 q) ->
  (forall w0, exists es,
     trace (run (process SRC_DIR) w0).2 = trace w0 ++ es) ->
  printed_only opening -> printed_only notes ->
  completes process opening notes w result ->
  touched q w result.2 -> source_file SRC_DIR w q.
Proof.
  intros Hreach Hgrow Hopening Hnotes [_ Hc] Ht.
  destruct (fs w !! SRC_DIR) as [n|].
  - destruct Hc as (stats & w' & Hrun & Hres). rewrite Hres in Ht.
    set (w0 := mkWorld (fs w) _) in Hrun.
    apply (source_file_same_files SRC_DIR w w0); [done|].
    assert (Hw' : w' = (run (process SRC_DIR) w0).2) by (by rewrite Hrun).
    apply Hreach. rewrite <- Hw'.
    apply (touched_between w w0 w'
             (opening ++ notes
              ++ [Printed (Text "Processing files..."); Printed Blank])
             (summary stats)); try done.
    + apply printed_only_app; [done|]. apply printed_only_app; [done|].
      apply (printed_only_fmap [Text "Processing files..."; Blank]).
    + apply printed_only_fmap.
    + rewrite Hw'. apply Hgrow.
  - rewrite Hc in Ht. destruct Ht as [[m Hm]|Hne]; [exfalso|done].
    unfold events_since in Hm. cbn [trace] in Hm.
    rewrite drop_app_length in Hm.
    apply elem_of_app in Hm as [Hm|Hm]; [by destruct (Hopening q m)|].
    apply elem_of_cons in Hm as [Hm|Hm]; [done|].
    by apply elem_of_nil in Hm.
Qed.

Lemma simple_reach w0 q :
  touched q w0 (run (ReplaceImports.process_directory SRC_DIR) w0).2 ->
  source_file SRC_DIR w0 q.
Proof.
  intros Ht. apply candidates_source_file.
  rewrite simple_process_directory in Ht.
  eapply accounted_touched; [|exact Ht].
  apply walk_accounted with (rewrite := ReplaceImports.rewrite_content).
  - apply replace_imports_in_file_outcome.
  - apply simple_changed_count.
Qed.

Lemma deep_reach w0 q :
  touched q w0 (run (ReplaceImportsDeep.process_directory SRC_DIR) w0).2 ->
  source_file SRC_DIR w0 q.
Proof.
  intros Ht. apply candidates_source_file.
  rewrite deep_process_directory in Ht.
  eapply accounted_touched; [|exact Ht].
  apply walk_accounted with (rewrite := ReplaceImportsDeep.rewrite_content).
  - apply replace_deep_imports_in_file_outcome.
  - apply deep_changed_count.
Qed.

Lemma simple_grows w0 :
  exists es,
    trace (run (ReplaceImports.process_directory SRC_DIR) w0).2
    = trace w0 ++ es.
Proof.
  rewrite simple_process_directory.
  destruct (walk_accounted ReplaceImports.replace_imports_in_file
              ReplaceImports.rewrite_content replace_imports_in_file_outcome
              simple_changed_count (run (rglob SRC_DIR) w0).1
              (mkStats 0 0 0 []) w0) as (es & Htr & _).
  by exists es.
Qed.

Lemma deep_grows w0 :
  exists es,
    trace (run (ReplaceImportsDeep.process_directory SRC_DIR) w0).2
    = trace w0 ++ es.
Proof.
  rewrite deep_process_directory.
  destruct (walk_accounted ReplaceImportsDeep.replace_deep_imports_in_file
              ReplaceImportsDeep.rewrite_content
              replace_deep_imports_in_file_outcome
              deep_changed_count (run (rglob SRC_DIR) w0).1
              (mkStats 0 0 0 []) w0) as (es & Htr & _).
  by exists es.
Qed.

Lemma main_reach w q :
  touched q w (run ReplaceImports.main w).2
  \/ touched q w (run ReplaceImportsDeep.main w).2 ->
  source_file SRC_DIR w q.
Proof.
  intros [Ht|Ht].
  - eapply (completes_reach ReplaceImports.process_directory);
      [apply simple_reach|apply simple_grows| |
      |by apply simple_main_completes|exact Ht].
    + apply printed_only_fmap.
    + apply warnings_printed_only.
  - eapply (completes_reach ReplaceImportsDeep.process_directory);
      [apply deep_reach|apply deep_grows| |
      |by apply deep_main_completes|exact Ht].
    + apply printed_only_fmap.
    + intros p m Hin. by apply elem_of_nil in Hin.
Qed.
End Reach.

(** X17: Under the POSIX flavour, whatever a run of [main] opens or
    changes is a regular file below the source directory whose name
    matches [*.ts*] and whose path has no [node_modules] or [.git]
    segment. *)
Theorem main_touches_source_files_only cwd w q :
  let flavour := posix cwd in
  touched q w (run ReplaceImports.main w).2
  \/ touched q w (run ReplaceImportsDeep.main w).2 ->
  source_file SRC_DIR w q.
Proof.
  intros flavour. apply main_reach, posix_nested.
Qed.

Lemma main_touches_source_files_only_witness :
  @source_file unix (@SRC_DIR unix) broken_world button.
Proof.
  apply (main_touches_source_files_only (py "/") broken_world button).
  left. right. vm_compute. discriminate.
Defined.

(** * The substitutions, and what a second run finds *)

(** ** Every match is substituted *)








(** The parts of a match of the deep pattern, and its new text. *)
Lemma deep_match_parts `{OsPath} file_path package content m :
  m ∈ finditer (ReplaceImportsDeep.pattern package) content ->
  exists P q1 S q2,
    import_prefix P /\ is_quote q1 = true /\ is_quote q2 = true
    /\ sub_part S
    /\ group (m_caps m) 2 = (if S is [] then None else Some S)
    /\ m_text m = P ++ q1 :: py "@ankaa/" ++ package ++ S ++ [q2]
    /\ ReplaceImportsDeep.new_text file_path package m
       = P ++ q1
           :: ReplaceImportsDeep.get_relative_path file_path package
                (lstrip slash S)
           ++ [q2].
Proof.
  intros Hin. apply finditer_sound in Hin as (n & _ & Hm & Htext).
  pose proof Hm as Hshape.
  apply deep_match_shape in Hshape
    as (P & q1 & S & q2 & rest & HP & Hq1 & Hq2 & HS & Hs & Hn
        & Hg1 & Hg2 & Hg3).
  exists P, q1, S, q2. do 5 (split; [done|]).
  assert (Hd : drop (m_start m) content
               = (P ++ q1 :: py "@ankaa/" ++ package ++ S ++ [q2]) ++ rest).
  { rewrite Hs, <- !app_assoc. cbn [app]. by rewrite <- !app_assoc. }
  split; [by rewrite Htext, Hd, Hn, take_app_length|].
  unfold ReplaceImportsDeep.new_text, expand. rewrite Hg1, Hg2, Hg3.
  cbn [default from_option]. unfold id. cbv zeta.
  rewrite <- app_assoc. cbn [app]. f_equal. f_equal. f_equal.
  destruct HS as [->|(S' & -> & HS' & _)]; [reflexivity|].
  change (nonempty (slash :: S')) with true. cbv iota.
  destruct (nonempty (lstrip slash (slash :: S'))) eqn:Hne; [done|].
  unfold nonempty in Hne. apply negb_false_iff, str_eqb_eq in Hne.
  by rewrite Hne.
Qed.





(** ** A converted reference and the matches of a later run *)

(** The characters an import prefix ends with: whitespace, or the opening
    parenthesis of a dynamic import. *)
Definition prefix_end (c : char) : bool := is_space c || (c =? 40)%N.

(** A text in which no import prefix can end. *)
Definition spaceless (s : str) : Prop :=
  Forall (fun c => prefix_end c = false) s.

Definition not_prefix_end (c : char) : bool := negb (prefix_end c).

Lemma all_ok_spaceless (s : str) : all_ok not_prefix_end s <-> spaceless s.
Proof.
  unfold all_ok, spaceless, not_prefix_end. split; apply Forall_impl; intros c.
  - by rewrite negb_true_iff.
  - by rewrite negb_true_iff.
Qed.

Lemma source_root_spaceless : path_ok not_prefix_end (@SRC_DIR unix).
Proof. unfold path_ok, all_ok. vm_compute tail. check_chars. Qed.

Lemma packages_spaceless package :
  package ∈ @PACKAGES -> spaceless package.
Proof.
  assert (Hall : Forall spaceless (@PACKAGES))
    by (unfold spaceless, PACKAGES; check_chars).
  by apply Forall_elem.
Qed.

Lemma scope_spaceless : spaceless (py "@ankaa/").
Proof. unfold spaceless. check_chars. Qed.

Lemma lstrip_spaceless c (s : str) : spaceless s -> spaceless (lstrip c s).
Proof.
  induction 1 as [|x s Hx Hs IH]; simpl; [constructor|].
  destruct (x =? c)%N; [done|by constructor].
Qed.

(** An import prefix holds whitespace or a parenthesis. *)
Lemma import_prefix_not_spaceless (X P : str) :
  import_prefix P -> ~ spaceless (X ++ P).
Proof.
  intros HP Hall. apply Forall_app in Hall as [_ Hall].
  destruct HP as [W HW Hws|W1 W2 _ _].
  - apply Forall_app in Hall as [_ Hall].
    destruct W as [|c W]; [done|].
    apply Forall_inv in Hall. apply Forall_inv in Hws.
    unfold prefix_end in Hall. by rewrite Hws in Hall.
  - apply Forall_app in Hall as [_ Hall].
    apply Forall_app in Hall as [_ Hall].
    apply Forall_app in Hall as [Hall _].
    apply Forall_inv in Hall. vm_compute in Hall. discriminate.
Qed.

(** Under the POSIX flavour the path computed for a sub-path without
    whitespace or parenthesis has none either. *)
Lemma posix_relative_path_spaceless cwd file_path package sub_path :
  package ∈ @PACKAGES -> spaceless sub_path ->
  spaceless (@ReplaceImportsDeep.get_relative_path (posix cwd) file_path
               package sub_path).
Proof.
  intros Hpk Hsub. apply all_ok_spaceless.
  apply posix_get_relative_path_ok;
    [done|done|apply source_root_spaceless| |];
    apply all_ok_spaceless; [by apply packages_spaceless|done].
Qed.

Section Converted.
Context `{OsPath}.
Variables (P rel : str) (q q2 : char).
Hypothesis prefix_ok : import_prefix P.
Hypothesis open_quote : is_quote q = true.
Hypothesis close_quote : is_quote q2 = true.
Hypothesis rel_free : quote_free rel.
Hypothesis rel_dot : startswith [dot] rel = true.
Hypothesis rel_spaceless : spaceless rel.

(** The converted reference. *)
Definition converted_text : str := P ++ q :: rel ++ [q2].

Lemma converted_text_length :
  length converted_text = length P + 1 + length rel + 1.
Proof.
  unfold converted_text. rewrite length_app. simpl. rewrite length_app.
  simpl. lia.
Qed.

(** No match begins inside it. *)
Lemma no_match_inside j (after : str) d n g :
  d < length converted_text ->
  match_at (ReplaceImportsDeep.pattern j) (drop d converted_text ++ after)
  = Some (n, g) ->
  False.
Proof.
  intros Hd Hm. rewrite converted_text_length in Hd.
  apply deep_match_shape in Hm
    as (P' & q1' & S' & q2' & rest & HP' & Hq1' & Hq2' & _ & Hs & _).
  apply startswith_spec in rel_dot as [rel' Hrel].
  unfold converted_text in Hs.
  destruct (decide (d <= length P)) as [Hle|Hgt].
  - rewrite drop_app_le in Hs by done. rewrite <- app_assoc in Hs.
    cbn [app] in Hs.
    apply first_cut with (sep := is_quote) in Hs as (_ & _ & Hs);
      [|apply Forall_drop; by apply import_prefix_quote_free
       |by apply import_prefix_quote_free|done|done].
    rewrite Hrel in Hs. discriminate Hs.
  - rewrite drop_app_ge in Hs by lia.
    destruct (d - length P) as [|e] eqn:He; [lia|].
    cbn [drop] in Hs.
    rewrite drop_app_le in Hs by lia. rewrite <- app_assoc in Hs.
    cbn [app] in Hs.
    apply first_cut with (sep := is_quote) in Hs as (Hs & _ & _);
      [|by apply Forall_drop|by apply import_prefix_quote_free|done|done].
    apply (import_prefix_not_spaceless (take e rel) P'); [done|].
    rewrite <- Hs, take_drop. exact rel_spaceless.
Qed.

(** No match for a configured package, with a sub-path free of
    whitespace and parenthesis, begins before it and reaches into it. *)
Lemma no_match_across j (B tail : str) n g :
  j ∈ @PACKAGES ->
  match_at (ReplaceImportsDeep.pattern j) (B ++ converted_text ++ tail)
  = Some (n, g) ->
  spaceless (expand g 2) ->
  length B < n ->
  False.
Proof.
  intros Hj Hm Hsub Hn.
  apply deep_match_shape in Hm
    as (P' & q1' & S' & q2' & rest & HP' & Hq1' & Hq2' & HS' & Hs & Hlen
        & _ & Hg2 & _).
  assert (HS : spaceless S').
  { unfold expand in Hsub. rewrite Hg2 in Hsub.
    destruct S'; [constructor|exact Hsub]. }
  apply startswith_spec in rel_dot as [rel' Hrel].
  apply (f_equal (drop (length B))) in Hs.
  rewrite drop_app_length in Hs.
  unfold converted_text in Hs. rewrite <- !app_assoc in Hs. cbn [app] in Hs.
  rewrite length_app in Hlen. cbn [length] in Hlen.
  rewrite !length_app in Hlen. cbn [length] in Hlen.
  destruct (decide (length B <= length P')) as [Hle|Hgt].
  - rewrite drop_app_le in Hs by done.
    apply first_cut with (sep := is_quote) in Hs as (_ & _ & Hs);
      [|by apply import_prefix_quote_free
       |apply Forall_drop; by apply import_prefix_quote_free|done|done].
    rewrite Hrel in Hs. discriminate Hs.
  - rewrite drop_app_ge in Hs by lia.
    destruct (length B - length P') as [|e] eqn:He; [lia|].
    cbn [drop] in Hs.
    rewrite (app_assoc (py "@ankaa/")), (app_assoc _ S') in Hs.
    assert (HX : spaceless ((py "@ankaa/" ++ j) ++ S')).
    { apply Forall_app. split; [|done]. apply Forall_app.
      split; [apply scope_spaceless|by apply packages_spaceless]. }
    assert (HXq : quote_free ((py "@ankaa/" ++ j) ++ S')).
    { apply quote_free_app. split.
      - apply quote_free_app. split; [apply scope_quote_free|].
        by apply packages_quote_free.
      - destruct HS' as [->|(S0 & -> & _ & HS0)]; [constructor|].
        by constructor. }
    rewrite drop_app_le in Hs
      by (rewrite !length_app; lia).
    apply first_cut with (sep := is_quote) in Hs as (Hs & _ & _);
      [|by apply import_prefix_quote_free|by apply Forall_drop|done|done].
    apply (import_prefix_not_spaceless
             (take e ((py "@ankaa/" ++ j) ++ S')) P); [done|].
    rewrite Hs, take_drop. exact HX.
Qed.

(** Where the deep pattern of a configured package matches in a content
    that holds the converted reference, with a sub-path free of
    whitespace and parenthesis, it ends before the reference or begins
    after it. *)
Lemma converted_apart_at j (before after : str) i n g :
  j ∈ @PACKAGES ->
  match_at (ReplaceImportsDeep.pattern j)
    (drop i (before ++ converted_text ++ after)) = Some (n, g) ->
  spaceless (expand g 2) ->
  i + n <= length before \/ length before + length converted_text <= i.
Proof.
  intros Hj Hm Hsub.
  destruct (decide (length before + length converted_text <= i)) as [|Hi];
    [by right|left].
  destruct (decide (i + n <= length before)) as [|Hn]; [done|exfalso].
  destruct (decide (length before <= i)) as [Hge|Hlt].
  - rewrite drop_app_ge in Hm by done.
    rewrite drop_app_le in Hm by lia.
    eapply no_match_inside; [|exact Hm]. lia.
  - rewrite drop_app_le in Hm by lia.
    eapply no_match_across; [exact Hj|exact Hm|exact Hsub|].
    rewrite length_drop. lia.
Qed.
End Converted.

(** A match stands apart from the text that begins at [length before]:
    it ends before the text begins, or begins where the text has
    ended. *)
Definition apart (m' : Match) (before text : str) : Prop :=
  m_end m' <= length before \/ length before + length text <= m_start m'.

(** Whatever the content around [text], no match of either script for a
    configured package overlaps it, a match of the deep pattern being
    one whose sub-path holds neither whitespace nor parenthesis. *)
Definition never_overlapped (text : str) : Prop :=
  forall j before after m',
    j ∈ @PACKAGES ->
    (m' ∈ finditer (@ReplaceImports.pattern j) (before ++ text ++ after) ->
     apart m' before text)
    /\ (m' ∈ finditer (@ReplaceImportsDeep.pattern j)
               (before ++ text ++ after) ->
        spaceless (expand (m_caps m') 2) ->
        apart m' before text).

Lemma match_end r (s : str) m :
  m ∈ finditer r s ->
  exists n,
    match_at r (drop (m_start m) s) = Some (n, m_caps m)
    /\ m_end m = m_start m + n.
Proof.
  intros Hin. apply finditer_sound in Hin as (n & Hi & Hm & Ht).
  exists n. split; [done|]. unfold m_end. rewrite Ht.
  pose proof (match_at_length _ _ _ _ Hm) as Hn.
  rewrite length_take. lia.
Qed.

Lemma converted_never_overlapped (P rel : str) q q2 :
  import_prefix P -> is_quote q = true -> is_quote q2 = true ->
  quote_free rel -> startswith [dot] rel = true -> spaceless rel ->
  never_overlapped (converted_text P rel q q2).
Proof.
  intros HP Hq Hq2 Hfree Hdot Hrel j before after m' Hj. split.
  - intros Hin. apply match_end in Hin as (n & Hm & Hend).
    apply (@simple_match_in_deep unix) in Hm as (g' & Hm & _ & Hg2 & _).
    unfold apart. rewrite Hend.
    eapply (@converted_apart_at unix); try done.
    unfold expand. rewrite Hg2. constructor.
  - intros Hin Hsub. apply match_end in Hin as (n & Hm & Hend).
    unfold apart. rewrite Hend.
    by eapply (@converted_apart_at unix).
Qed.

Lemma deep_new_text_never_overlapped cwd file_path package content m :
  package ∈ @PACKAGES ->
  m ∈ finditer (@ReplaceImportsDeep.pattern package) content ->
  spaceless (expand (m_caps m) 2) ->
  never_overlapped
    (@ReplaceImportsDeep.new_text (posix cwd) file_path package m).
Proof.
  intros Hpk Hin Hsub.
  destruct (@deep_match_parts (posix cwd) file_path package content m Hin)
    as (P & q1 & S & q2 & HP & Hq1 & Hq2 & HS & Hg2 & _ & ->).
  assert (HSs : spaceless S).
  { unfold expand in Hsub. rewrite Hg2 in Hsub.
    destruct S; [constructor|exact Hsub]. }
  assert (HSq : quote_free S).
  { destruct HS as [->|(S0 & -> & _ & HS0)]; [constructor|].
    by constructor. }
  destruct (posix_relative_path_shape cwd file_path package
              (lstrip slash S) Hpk (lstrip_quote_free _ _ HSq))
    as [Hfree Hdot].
  apply converted_never_overlapped; try done.
  apply posix_relative_path_spaceless; [done|by apply lstrip_spaceless].
Qed.

Lemma simple_replacement_never_overlapped cwd file_path package content m :
  package ∈ @PACKAGES ->
  m ∈ finditer (@ReplaceImports.pattern package) content ->
  never_overlapped
    (expand (m_caps m) 1
     ++ @ReplaceImports.get_relative_path (posix cwd) file_path package
     ++ expand (m_caps m) 2).
Proof.
  intros Hpk Hin. apply finditer_sound in Hin as (n & _ & Hm & _).
  apply (@simple_match_shape unix) in Hm
    as (W & q1 & q2 & rest & HW & Hws & Hq1 & Hq2 & _ & _ & Hg1 & Hg2).
  unfold expand. rewrite Hg1, Hg2. cbn [default from_option]. unfold id.
  rewrite simple_is_deep.
  destruct (posix_relative_path_shape cwd file_path package [] Hpk)
    as [Hfree Hdot]; [constructor|].
  assert (Heq : (py "from" ++ W ++ [q1])
                ++ @ReplaceImportsDeep.get_relative_path (posix cwd)
                     file_path package []
                ++ [q2]
                = converted_text (py "from" ++ W)
                    (@ReplaceImportsDeep.get_relative_path (posix cwd)
                       file_path package []) q1 q2).
  { unfold converted_text. rewrite <- !app_assoc. reflexivity. }
  rewrite Heq.
  apply converted_never_overlapped; try done.
  - by constructor.
  - apply posix_relative_path_spaceless; [done|constructor].
Qed.

(** The content on which a second run finds something to do. *)
Definition overlapping_content : str :=
  py "from '@ankaa/utils/from /'@ankaa/types'".

(** The claim C4 as stated fails for a sub-path that ends like an import
    prefix.  The first run converts the reference to [utils], the only
    one there is, and drops the slash that ends its sub-path; the end of
    the converted reference, which is 24 characters long, then reads as
    the beginning of a reference to [types], which the second run finds
    at offset 18 and rewrites. *)
Lemma second_run_counterexample :
  (fun package =>
     (fun m => (m_start m, m_text m))
     <$> finditer (@ReplaceImportsDeep.pattern package) overlapping_content)
  <$> @PACKAGES
  = [[]; []; [(0, py "from '@ankaa/utils/from /'")]; []; []; []]
  /\ @ReplaceImportsDeep.rewrite_content unix button overlapping_content
     = (py "from '../../utils/from '@ankaa/types'", 1)
  /\ (fun m => (m_start m, m_text m))
     <$> finditer (@ReplaceImportsDeep.pattern (py "types"))
           (py "from '../../utils/from '@ankaa/types'")
     = [(18, py "from '@ankaa/types'")]
  /\ length (py "from '../../utils/from '") = 24
  /\ @ReplaceImportsDeep.rewrite_content unix button
       (py "from '../../utils/from '@ankaa/types'")
     = (py "from '../../utils/from '../../types'", 1).
Proof. vm_compute. repeat split; reflexivity. Qed.

(** ** A second run of replace-imports.py *)

(** The pattern for [k] matches nowhere in [s]. *)
Definition clear (pattern : str -> regex) (k : str) (s : str) : Prop :=
  forall i, match_at (pattern k) (drop i s) = None.

(** [re.sub] either finds nothing and returns the subject, or copies the
    text before the first match and puts the replacement after it. *)
Lemma sub_from_head r repl (s : str) :
  ((forall i, match_at r (drop i s) = None) /\ sub_from r repl s 0 = s)
  \/ exists a s2 n g R,
       s = a ++ s2 /\ match_at r s2 = Some (n, g)
       /\ sub_from r repl s 0 = a ++ repl g ++ R.
Proof.
  induction s as [|c s IH].
  - cbn [sub_from]. destruct (match_at r []) as [[n g]|] eqn:Hm.
    + right. exists [], [], n, g, []. done.
    + left. split; [|done]. intros i. by rewrite drop_nil.
  - cbn [sub_from]. destruct (match_at r (c :: s)) as [[n g]|] eqn:Hm.
    + right. exists [], (c :: s), n, g. eexists. done.
    + destruct IH as [[Hnone ->]|(a & s2 & n & g & R & -> & Hm2 & ->)].
      * left. split; [|done]. intros [|i]; [done|apply Hnone].
      * right. exists (c :: a), s2, n, g, R. done.
Qed.

Lemma simple_match_positive `{OsPath} k (s : str) n g :
  match_at (ReplaceImports.pattern k) s = Some (n, g) -> 0 < n.
Proof.
  intros Hm. apply simple_match_shape in Hm
    as (W & q1 & q2 & rest & _ & _ & _ & _ & _ & -> & _).
  rewrite length_app. simpl. lia.
Qed.

Lemma simple_match_nil `{OsPath} k :
  match_at (ReplaceImports.pattern k) [] = None.
Proof.
  destruct (match_at _ _) as [[n g]|] eqn:Hm; [|done].
  apply simple_match_shape in Hm
    as (W & q1 & q2 & rest & _ & _ & _ & _ & Hs & _).
  by destruct (py "from" ++ W).
Qed.

Section SecondRun.
Variables (cwd : str) (file_path : Path) (j : str).
Hypothesis package_configured : j ∈ @PACKAGES.

(** What replace-imports.py puts in the place of a match for [j]. *)
Definition simple_replacement (g : caps) : str :=
  expand g 1
  ++ @ReplaceImports.get_relative_path (posix cwd) file_path j
  ++ expand g 2.

Lemma simple_replacement_converted_text (s : str) n g :
  match_at (@ReplaceImports.pattern j) s = Some (n, g) ->
  exists W q1 q2,
    simple_replacement g
    = converted_text (py "from" ++ W)
        (@ReplaceImports.get_relative_path (posix cwd) file_path j) q1 q2
    /\ import_prefix (py "from" ++ W)
    /\ is_quote q1 = true /\ is_quote q2 = true.
Proof.
  intros Hm. apply (@simple_match_shape unix) in Hm
    as (W & q1 & q2 & rest & HW & Hws & Hq1 & Hq2 & _ & _ & Hg1 & Hg2).
  exists W, q1, q2. split; [|split; [by constructor|done]].
  unfold simple_replacement, expand, converted_text. rewrite Hg1, Hg2.
  cbn [default from_option]. unfold id. by rewrite <- !app_assoc.
Qed.

(** A match of the pattern of a configured package stands apart from a
    replacement, whatever is around it. *)
Lemma simple_apart k (before after s : str) n0 g0 i n g :
  k ∈ @PACKAGES ->
  match_at (@ReplaceImports.pattern j) s = Some (n0, g0) ->
  match_at (@ReplaceImports.pattern k)
    (drop i (before ++ simple_replacement g0 ++ after)) = Some (n, g) ->
  i + n <= length before
  \/ length before + length (simple_replacement g0) <= i.
Proof.
  intros Hk Hm0 Hm.
  destruct (simple_replacement_converted_text s n0 g0 Hm0)
    as (W & q1 & q2 & Heq & HP & Hq1 & Hq2).
  rewrite Heq in *.
  destruct (posix_relative_path_shape cwd file_path j [] package_configured)
    as [Hfree Hdot]; [constructor|].
  rewrite <- (@simple_is_deep (posix cwd)) in Hfree, Hdot.
  apply (@simple_match_in_deep unix) in Hm as (g' & Hm & _ & Hg2 & _).
  assert (Hsp : spaceless
                  (@ReplaceImports.get_relative_path (posix cwd) file_path j)).
  { rewrite (@simple_is_deep (posix cwd)).
    apply posix_relative_path_spaceless; [done|constructor]. }
  assert (Hsub : spaceless (expand g' 2)).
  { unfold expand. rewrite Hg2. constructor. }
  exact (@converted_apart_at unix (py "from" ++ W) _ q1 q2 HP Hq1 Hq2 Hfree
           Hdot Hsp k before after i n g' Hk Hm Hsub).
Qed.

(** Where the pattern of a configured package matches after a turn, the
    package is another one than that of the turn, and its pattern
    matched before the turn already. *)
Lemma sub_from_sites k (s : str) : forall skip i n g,
  k ∈ @PACKAGES ->
  match_at (@ReplaceImports.pattern k)
    (drop i (sub_from (@ReplaceImports.pattern j) simple_replacement s skip))
  = Some (n, g) ->
  k <> j /\ exists i', match_at (@ReplaceImports.pattern k) (drop i' s) <> None.
Proof.
  induction s as [|c s IH]; intros skip i n g Hk Hm.
  - assert (Hnil : sub_from (@ReplaceImports.pattern j) simple_replacement
                     [] skip = []).
    { destruct skip; [|done]. cbn [sub_from].
      by rewrite (@simple_match_nil unix). }
    rewrite Hnil, drop_nil, (@simple_match_nil unix) in Hm. done.
  - destruct skip as [|skip]; cbn [sub_from] in Hm.
    + destruct (match_at (@ReplaceImports.pattern j) (c :: s))
        as [[n0 g0]|] eqn:Hj.
      * pose proof (@simple_match_positive unix _ _ _ _ Hj) as Hn0.
        destruct n0 as [|n0]; [lia|].
        pose proof (@simple_match_positive unix _ _ _ _ Hm) as Hn.
        destruct (simple_apart k [] _ _ _ _ i n g Hk Hj Hm) as [Hlt|Hge];
          [simpl in Hlt; lia|].
        simpl in Hge. rewrite drop_app_ge in Hm by done.
        destruct (IH _ _ _ _ Hk Hm) as (Hne & i' & Hi').
        split; [done|]. by exists (S i').
      * destruct i as [|i].
        -- rewrite drop_0 in Hm.
           assert (Hsite : match_at (@ReplaceImports.pattern k) (c :: s)
                           <> None).
           { destruct (sub_from_head (@ReplaceImports.pattern j)
                         simple_replacement s)
               as [[_ HR]|(a & s2 & n0 & g0 & R & Hs & Hm0 & HR)].
             - rewrite HR in Hm. by rewrite Hm.
             - rewrite HR in Hm.
               destruct (simple_apart k (c :: a) R _ _ _ 0 n g Hk Hm0 Hm)
                 as [Hlt|Hge]; [|simpl in Hge; lia].
               apply match_at_sound in Hm as (w & rest & Hw & Hmatch & ->).
               assert (Hpre : c :: a = w ++ drop (length w) (c :: a)).
               { rewrite <- (take_drop (length w) (c :: a)) at 1. f_equal.
                 change (c :: a ++ simple_replacement g0 ++ R)
                   with ((c :: a) ++ simple_replacement g0 ++ R) in Hw.
                 apply (f_equal (take (length w))) in Hw.
                 rewrite take_app_le in Hw by (simpl in *; lia).
                 by rewrite take_app_length in Hw. }
               rewrite Hs. change (c :: a ++ s2) with ((c :: a) ++ s2).
               rewrite Hpre, <- app_assoc.
               destruct (match_at_complete _ w
                           (drop (length w) (c :: a) ++ s2) _ Hmatch)
                 as (n' & g' & ->). done. }
           split; [|by exists 0].
           intros ->. by rewrite Hj in Hsite.
        -- simpl in Hm. destruct (IH _ _ _ _ Hk Hm) as (Hne & i' & Hi').
           split; [done|]. by exists (S i').
    + destruct (IH _ _ _ _ Hk Hm) as (Hne & i' & Hi').
      split; [done|]. by exists (S i').
Qed.

Lemma simple_step_clears (s : str) :
  clear (@ReplaceImports.pattern) j
    (@simple_step (posix cwd) file_path j s).
Proof.
  intros i.
  destruct (match_at _ _) as [[n g]|] eqn:Hm; [exfalso|done].
  unfold simple_step, re_sub in Hm.
  by destruct (sub_from_sites j s 0 i n g package_configured Hm).
Qed.

Lemma simple_step_keeps_clear k (s : str) :
  k ∈ @PACKAGES ->
  clear (@ReplaceImports.pattern) k s ->
  clear (@ReplaceImports.pattern) k
    (@simple_step (posix cwd) file_path j s).
Proof.
  intros Hk Hclear i.
  destruct (match_at _ _) as [[n g]|] eqn:Hm; [exfalso|done].
  unfold simple_step, re_sub in Hm.
  destruct (sub_from_sites k s 0 i n g Hk Hm) as (_ & i' & Hi').
  by rewrite Hclear in Hi'.
Qed.
End SecondRun.

(** After its turn a package is matched nowhere, and the turns that
    follow leave it so. *)
Lemma simple_turns_clear cwd file_path (packages : list str) :
  forall (c : str) k,
    (forall p, p ∈ packages -> p ∈ @PACKAGES) ->
    k ∈ @PACKAGES ->
    clear (@ReplaceImports.pattern) k c \/ k ∈ packages ->
    clear (@ReplaceImports.pattern) k
      (turns (@ReplaceImports.pattern) (@simple_step (posix cwd) file_path)
         packages c).1.
Proof.
  induction packages as [|p rest IH]; intros c k Hall Hk Hc.
  - destruct Hc as [Hc|Hc]; [done|by apply elem_of_nil in Hc].
  - cbn [turns fst]. apply IH; [intros q Hq; apply Hall; by right|done|].
    destruct Hc as [Hc|Hc].
    + left. apply simple_step_keeps_clear; [apply Hall; by left|done..].
    + apply elem_of_cons in Hc as [->|Hc]; [|by right].
      left. apply simple_step_clears. apply Hall. by left.
Qed.

(** Whatever the content, a second run of replace-imports.py finds no
    match and changes nothing. *)
Lemma simple_second_run cwd file_path (content : str) :
  @ReplaceImports.rewrite_content (posix cwd) file_path
    (@ReplaceImports.rewrite_content (posix cwd) file_path content).1
  = ((@ReplaceImports.rewrite_content (posix cwd) file_path content).1, 0).
Proof.
  apply (@simple_unreferenced (posix cwd)). apply Forall_of_elem.
  intros k Hk. apply finditer_none.
  rewrite (@simple_rewrite_content_turns (posix cwd)). cbn [fst].
  apply simple_turns_clear; [done|done|by right].
Qed.

(** ** A second run of replace-imports-deep.py *)

(** Two matches of the deep pattern of one package at the head of texts
    that agree as far as the first match goes are the same match. *)
Lemma deep_match_prefix `{OsPath} k (x y y' : str) n g :
  match_at (ReplaceImportsDeep.pattern k) (x ++ y) = Some (n, g) ->
  n <= length x ->
  exists g',
    match_at (ReplaceImportsDeep.pattern k) (x ++ y') = Some (n, g')
    /\ expand g' 2 = expand g 2.
Proof.
  intros Hm Hn.
  pose proof Hm as Hsound.
  apply match_at_sound in Hsound as (w & rest & Hw & Hmatch & ->).
  assert (Hx : x = w ++ drop (length w) x).
  { rewrite <- (take_drop (length w) x) at 1. f_equal.
    apply (f_equal (take (length w))) in Hw.
    rewrite take_app_le in Hw by done. by rewrite take_app_length in Hw. }
  destruct (match_at_complete _ w (drop (length w) x ++ y') _ Hmatch)
    as (n' & g' & Hm').
  rewrite app_assoc, <- Hx in Hm'.
  exists g'.
  apply deep_match_shape in Hm
    as (P & q1 & S & q2 & r1 & HP & Hq1 & Hq2 & HS & Hs & Hlen & _ & Hg2 & _).
  pose proof Hm' as Hshape.
  apply deep_match_shape in Hshape
    as (P' & q1' & S' & q2' & r1' & HP' & Hq1' & Hq2' & HS' & Hs' & Hlen'
        & _ & Hg2' & _).
  assert (Hwhole : x ++ y'
                   = (P ++ q1 :: py "@ankaa/" ++ k ++ S ++ [q2])
                     ++ drop (length w) x ++ y').
  { rewrite Hx at 1. rewrite <- app_assoc. f_equal.
    apply (f_equal (take (length w))) in Hw.
    rewrite take_app_length in Hw. rewrite <- Hw, Hs, Hlen.
    replace (P ++ q1 :: py "@ankaa/" ++ k ++ S ++ q2 :: r1)
      with ((P ++ q1 :: py "@ankaa/" ++ k ++ S ++ [q2]) ++ r1)
      by (rewrite <- !app_assoc; cbn [app]; by rewrite <- !app_assoc).
    by rewrite take_app_length. }
  rewrite Hs' in Hwhole.
  rewrite <- !app_assoc in Hwhole. cbn [app] in Hwhole.
  rewrite <- !app_assoc in Hwhole. cbn [app] in Hwhole.
  apply first_cut with (sep := is_quote) in Hwhole as (HPP & Hqq & Htail);
    [|by apply import_prefix_quote_free..|done|done].
  apply app_inv_head in Htail. apply app_inv_head in Htail.
  assert (HSq : forall S0, sub_part S0 -> quote_free S0).
  { intros S0 [->|(S1 & -> & _ & HS1)]; [constructor|by constructor]. }
  apply first_cut with (sep := is_quote) in Htail as (HSS & Hq2q & _);
    [|by apply HSq..|done|done].
  subst P' q1' S' q2'.
  split.
  - rewrite Hm'. do 2 f_equal. by rewrite Hlen', Hlen.
  - unfold expand. by rewrite Hg2, Hg2'.
Qed.

Section Before.
Context `{OsPath}.
Variables (P rel : str) (q q2 : char).
Hypothesis prefix_ok : import_prefix P.
Hypothesis open_quote : is_quote q = true.
Hypothesis rel_dot : startswith [dot] rel = true.

(** A match that begins before a converted reference reaches as far as
    its opening quote at most. *)
Lemma match_extent k (B tail : str) n g :
  k ∈ @PACKAGES ->
  match_at (ReplaceImportsDeep.pattern k)
    (B ++ converted_text P rel q q2 ++ tail) = Some (n, g) ->
  n <= length B + length P + 1.
Proof.
  intros Hk Hm.
  destruct (decide (n <= length B)) as [|Hn]; [lia|].
  apply deep_match_shape in Hm
    as (P' & q1' & S' & q2' & rest & HP' & Hq1' & Hq2' & HS' & Hs & Hlen & _).
  apply startswith_spec in rel_dot as [rel' Hrel].
  apply (f_equal (drop (length B))) in Hs.
  rewrite drop_app_length in Hs.
  unfold converted_text in Hs. rewrite <- !app_assoc in Hs. cbn [app] in Hs.
  rewrite length_app in Hlen. cbn [length] in Hlen.
  rewrite !length_app in Hlen. cbn [length] in Hlen.
  destruct (decide (length B <= length P')) as [Hle|Hgt].
  - rewrite drop_app_le in Hs by done.
    apply first_cut with (sep := is_quote) in Hs as (_ & _ & Hs);
      [|by apply import_prefix_quote_free
       |apply Forall_drop; by apply import_prefix_quote_free|done|done].
    rewrite Hrel in Hs. discriminate Hs.
  - rewrite drop_app_ge in Hs by lia.
    destruct (length B - length P') as [|e] eqn:He; [lia|].
    cbn [drop] in Hs.
    rewrite (app_assoc (py "@ankaa/")), (app_assoc _ S') in Hs.
    assert (HXq : quote_free ((py "@ankaa/" ++ k) ++ S')).
    { apply quote_free_app. split.
      - apply quote_free_app. split; [apply scope_quote_free|].
        by apply packages_quote_free.
      - destruct HS' as [->|(S0 & -> & _ & HS0)]; [constructor|].
        by constructor. }
    rewrite drop_app_le in Hs by (rewrite !length_app; lia).
    apply first_cut with (sep := is_quote) in Hs as (Hs & _ & _);
      [|by apply import_prefix_quote_free|by apply Forall_drop|done|done].
    apply (f_equal length) in Hs. rewrite length_drop, !length_app in Hs.
    lia.
Qed.

(** It is therefore a match in the content before the conversion as
    well, the reference having kept its prefix and its opening quote. *)
Lemma match_before_converted k (B tail X tail' : str) n g :
  k ∈ @PACKAGES ->
  match_at (ReplaceImportsDeep.pattern k)
    (B ++ converted_text P rel q q2 ++ tail) = Some (n, g) ->
  exists g',
    match_at (ReplaceImportsDeep.pattern k) (B ++ (P ++ q :: X) ++ tail')
    = Some (n, g')
    /\ expand g' 2 = expand g 2.
Proof.
  intros Hk Hm.
  pose proof (match_extent k B tail n g Hk Hm) as Hn.
  assert (Hnew : B ++ converted_text P rel q q2 ++ tail
                 = (B ++ P ++ [q]) ++ rel ++ q2 :: tail).
  { unfold converted_text. norm_app. reflexivity. }
  assert (Hold : B ++ (P ++ q :: X) ++ tail'
                 = (B ++ P ++ [q]) ++ X ++ tail').
  { norm_app. reflexivity. }
  rewrite Hnew in Hm. rewrite Hold.
  eapply deep_match_prefix; [exact Hm|].
  rewrite !length_app. simpl. lia.
Qed.
End Before.

(** [gaps] and [texts] in alternation as in [weave], the gaps holding no
    match: at no position of a gap, nor of [last], does the pattern match
    in what begins there. *)
Fixpoint gapped (r : regex) (gaps texts : list str) (last : str) : Prop :=
  match gaps, texts with
  | gap :: gaps', text :: texts' =>
      (forall p, p < length gap ->
         match_at r (drop p (gap ++ text ++ weave gaps' texts' last)) = None)
      /\ gapped r gaps' texts' last
  | _, _ => forall p, match_at r (drop p last) = None
  end.

Lemma gapped_cons r c (gaps texts : list str) (last : str) :
  length gaps = length texts ->
  match_at r (c :: weave gaps texts last) = None ->
  gapped r gaps texts last ->
  exists gaps' last',
    length gaps' = length texts
    /\ c :: weave gaps texts last = weave gaps' texts last'
    /\ gapped r gaps' texts last'.
Proof.
  intros Hlen Hc Hg. destruct gaps as [|gap gaps], texts as [|text texts];
    try done.
  - exists [], (c :: last). split; [done|]. split; [done|].
    intros [|p]; [done|apply Hg].
  - exists ((c :: gap) :: gaps), last. split; [done|]. split; [done|].
    destruct Hg as [Hhead Htail]. split; [|done].
    intros [|p] Hp; [done|]. apply Hhead. simpl in Hp. lia.
Qed.

(** What [finditer] reports stands in the subject in this way. *)
Lemma finditer_from_gapped r (s : str) :
  (forall (x : str) n g, match_at r x = Some (n, g) -> 0 < n) ->
  forall pos skip,
  exists gaps last,
    length gaps = length (finditer_from r s pos skip)
    /\ drop skip s = weave gaps (m_text <$> finditer_from r s pos skip) last
    /\ gapped r gaps (m_text <$> finditer_from r s pos skip) last.
Proof.
  intros Hpos.
  assert (Hnil : match_at r [] = None).
  { destruct (match_at r []) as [[n g]|] eqn:Hm; [|done].
    pose proof (Hpos _ _ _ Hm). apply match_at_length in Hm. simpl in Hm.
    lia. }
  induction s as [|c s IH]; intros pos skip.
  - exists [], []. destruct skip; cbn [finditer_from]; rewrite ?Hnil.
    + split; [done|]. split; [done|]. intros p. by rewrite drop_nil.
    + split; [done|]. split; [done|]. intros p. by rewrite drop_nil.
  - destruct skip as [|skip]; cbn [finditer_from].
    + destruct (match_at r (c :: s)) as [[n g]|] eqn:Hm.
      * pose proof (Hpos _ _ _ Hm) as Hn. destruct n as [|n]; [lia|].
        destruct (IH (S pos) n) as (gaps & last & Hlen & Hs & Hg).
        cbn [pred]. exists ([] :: gaps), last.
        split; [simpl; by rewrite Hlen|].
        cbn [fmap list_fmap weave m_text app gapped].
        split; [|split; [intros p Hp; simpl in Hp; lia|done]].
        rewrite <- Hs. rewrite drop_0.
        change (drop n s) with (drop (S n) (c :: s)).
        by rewrite take_drop.
      * destruct (IH (S pos) 0) as (gaps & last & Hlen & Hs & Hg).
        rewrite drop_0 in Hs |- *.
        set (ms := finditer_from r s (S pos) 0) in *.
        destruct (gapped_cons r c gaps (m_text <$> ms) last)
          as (gaps' & last' & Hlen' & Hw & Hg');
          [by rewrite length_fmap|by rewrite <- Hs|done|].
        exists gaps', last'. rewrite length_fmap in Hlen'.
        split; [done|]. split; [by rewrite <- Hw, <- Hs|done].
    + destruct (IH (S pos) skip) as (gaps & last & Hlen & Hs & Hg).
      by exists gaps, last.
Qed.

(** A text and what it is converted to: the same import prefix and
    opening quote, then a path that begins with a full stop and holds
    neither quote, whitespace nor parenthesis, and a quote. *)
Definition conversion (text new : str) : Prop :=
  exists P q X rel q2,
    import_prefix P /\ is_quote q = true /\ is_quote q2 = true
    /\ quote_free rel /\ startswith [dot] rel = true /\ spaceless rel
    /\ text = P ++ q :: X
    /\ new = converted_text P rel q q2.

Section InPlace.
Variable j : str.
Hypothesis package_configured : j ∈ @PACKAGES.
Variable new_text : Match -> str.

(** The matches of a turn: each a match of the pattern, converted as
    above. *)
Definition convertible (m : Match) : Prop :=
  conversion (m_text m) (new_text m)
  /\ exists g, matches (@ReplaceImportsDeep.pattern j) (m_text m) [] g.

(** A match of the pattern for [k] in a content whose first reference
    has been converted is one before the conversion as well, unless it
    begins in what was converted. *)
Lemma segment_sites k (gap text new Wn Wo : str) i n g :
  k ∈ @PACKAGES ->
  conversion text new ->
  match_at (@ReplaceImportsDeep.pattern k) (drop i (gap ++ new ++ Wn))
  = Some (n, g) ->
  (i < length gap
   /\ exists g',
        match_at (@ReplaceImportsDeep.pattern k) (drop i (gap ++ text ++ Wo))
        = Some (n, g')
        /\ expand g' 2 = expand g 2)
  \/ (length gap + length new <= i
      /\ match_at (@ReplaceImportsDeep.pattern k)
           (drop (i - length gap - length new) Wn) = Some (n, g)).
Proof.
  intros Hk (P & q & X & rel & q2 & HP & Hq & Hq2 & Hfree & Hdot & Hsp
             & -> & ->) Hm.
  destruct (decide (i < length gap)) as [Hlt|Hge].
  - left. split; [done|].
    rewrite drop_app_le in Hm by lia. rewrite drop_app_le by lia.
    by eapply (@match_before_converted unix).
  - right.
    destruct (decide (length gap + length (converted_text P rel q q2) <= i))
      as [Hfar|Hin].
    + split; [done|].
      rewrite drop_app_ge in Hm by lia. rewrite drop_app_ge in Hm by lia.
      exact Hm.
    + exfalso. rewrite drop_app_ge in Hm by lia.
      rewrite drop_app_le in Hm by lia.
      eapply (@no_match_inside unix P rel q q2); [done..| |exact Hm]. lia.
Qed.

(** The sites of a content in which every match of a turn has been
    replaced where it stood. *)
Lemma weave_sites k (ms : list Match) : forall gaps (last : str) i n g,
  k ∈ @PACKAGES ->
  length gaps = length ms ->
  Forall convertible ms ->
  match_at (@ReplaceImportsDeep.pattern k)
    (drop i (weave gaps (new_text <$> ms) last)) = Some (n, g) ->
  (exists i' g',
     match_at (@ReplaceImportsDeep.pattern k)
       (drop i' (weave gaps (m_text <$> ms) last)) = Some (n, g')
     /\ expand g' 2 = expand g 2)
  /\ ~ gapped (@ReplaceImportsDeep.pattern k) gaps (m_text <$> ms) last.
Proof.
  induction ms as [|m ms IH]; intros gaps last i n g Hk Hlen Hall Hm.
  - destruct gaps; [|done]. cbn [fmap list_fmap weave gapped] in *.
    split; [by exists i, g|]. intros Hg. by rewrite Hg in Hm.
  - destruct gaps as [|gap gaps]; [done|].
    apply Forall_cons_1 in Hall as [[Hconv _] Hall].
    cbn [fmap list_fmap weave gapped] in *.
    destruct (segment_sites k gap (m_text m) (new_text m)
                (weave gaps (new_text <$> ms) last)
                (weave gaps (m_text <$> ms) last) i n g Hk Hconv Hm)
      as [(Hi & g' & Hm' & Hg')|(Hi & Hm')].
    + split; [by exists i, g'|]. intros [Hhead _].
      by rewrite (Hhead i Hi) in Hm'.
    + destruct (IH gaps last _ n g Hk ltac:(simpl in Hlen; lia) Hall Hm')
        as ((i' & g' & Hm'' & Hg') & Hng).
      split; [|intros [_ Htail]; by apply Hng].
      exists (length gap + length (m_text m) + i'), g'. split; [|done].
      rewrite drop_app_ge by lia. rewrite drop_app_ge by lia.
      replace (length gap + length (m_text m) + i' - length gap
               - length (m_text m)) with i' by lia.
      exact Hm''.
Qed.

(** [str.replace] at work on the matches of a turn: when the gaps hold
    no match, each match is replaced where it stands. *)
Lemma foldl_in_place (ms : list Match) : forall gaps (last u : str),
  length gaps = length ms ->
  Forall convertible ms ->
  gapped (@ReplaceImportsDeep.pattern j) gaps (m_text <$> ms) last ->
  (forall i, i < length u ->
     match_at (@ReplaceImportsDeep.pattern j)
       (drop i (u ++ weave gaps (m_text <$> ms) last)) = None) ->
  foldl (fun c m => replace_first (m_text m) (new_text m) c)
    (u ++ weave gaps (m_text <$> ms) last) ms
  = u ++ weave gaps (new_text <$> ms) last.
Proof.
  induction ms as [|m ms IH]; intros gaps last u Hlen Hall Hg Hpre.
  - by destruct gaps.
  - destruct gaps as [|gap gaps]; [done|].
    apply Forall_cons_1 in Hall as [[Hconv [g0 Htext]] Hall].
    cbn [fmap list_fmap weave gapped foldl] in *.
    destruct Hg as [Hhead Htail].
    set (Wo := weave gaps (m_text <$> ms) last) in *.
    assert (Hnone : forall i, i < length (u ++ gap) ->
              match_at (@ReplaceImportsDeep.pattern j)
                (drop i ((u ++ gap) ++ m_text m ++ Wo)) = None).
    { intros i Hi. rewrite <- app_assoc.
      destruct (decide (i < length u)) as [Hu|Hu]; [by apply Hpre|].
      rewrite drop_app_ge by lia. apply Hhead.
      rewrite length_app in Hi. lia. }
    assert (Hrep : replace_first (m_text m) (new_text m)
                     (u ++ gap ++ m_text m ++ Wo)
                   = (u ++ gap) ++ new_text m ++ Wo).
    { rewrite (app_assoc u gap). apply replace_first_at.
      intros i Hi.
      destruct (startswith _ _) eqn:Hs; [exfalso|done].
      apply startswith_spec in Hs as [x Hx].
      destruct (match_at_complete _ (m_text m) x _ Htext) as (n & g & Hm).
      rewrite <- Hx in Hm. by rewrite (Hnone i Hi) in Hm. }
    rewrite Hrep.
    rewrite (app_assoc (u ++ gap)). unfold Wo.
    rewrite (IH gaps last ((u ++ gap) ++ new_text m));
      [by rewrite <- !app_assoc|simpl in Hlen; lia|done|done|].
    intros i Hi.
    destruct (match_at _ _) as [[n g]|] eqn:Hm; [exfalso|done].
    rewrite <- (app_assoc (u ++ gap)) in Hm.
    destruct (segment_sites j (u ++ gap) (m_text m) (new_text m)
                (weave gaps (m_text <$> ms) last) Wo i n g
                package_configured Hconv Hm)
      as [(Hi' & g' & Hm' & _)|(Hi' & _)].
    + by rewrite (Hnone i Hi') in Hm'.
    + repeat rewrite length_app in Hi. repeat rewrite length_app in Hi'. lia.
Qed.
End InPlace.

(** A content in which the sub-path of every reference to a configured
    package holds neither whitespace nor parenthesis. *)
Definition spaceless_references (s : str) : Prop :=
  forall k i n g,
    k ∈ @PACKAGES ->
    match_at (@ReplaceImportsDeep.pattern k) (drop i s) = Some (n, g) ->
    spaceless (expand g 2).

Lemma deep_match_positive `{OsPath} k (s : str) n g :
  match_at (ReplaceImportsDeep.pattern k) s = Some (n, g) -> 0 < n.
Proof.
  intros Hm. apply deep_match_shape in Hm
    as (P & q1 & S & q2 & rest & _ & _ & _ & _ & _ & -> & _).
  rewrite length_app. simpl. lia.
Qed.

Section DeepSecondRun.
Variables (cwd : str) (file_path : Path) (j : str).
Hypothesis package_configured : j ∈ @PACKAGES.

Lemma deep_convertible (c : str) m :
  spaceless_references c ->
  m ∈ finditer (@ReplaceImportsDeep.pattern j) c ->
  convertible j (@ReplaceImportsDeep.new_text (posix cwd) file_path j) m.
Proof.
  intros Hc Hin.
  destruct (@deep_match_parts (posix cwd) file_path j c m Hin)
    as (P & q1 & S & q2 & HP & Hq1 & Hq2 & HS & Hg2 & Ht & Hnew).
  apply finditer_sound in Hin as (n & _ & Hm & Htext).
  pose proof (Hc j _ _ _ package_configured Hm) as Hsub.
  assert (HSs : spaceless S).
  { unfold expand in Hsub. rewrite Hg2 in Hsub.
    destruct S; [constructor|exact Hsub]. }
  assert (HSq : quote_free S).
  { destruct HS as [->|(S0 & -> & _ & HS0)]; [constructor|].
    by constructor. }
  destruct (posix_relative_path_shape cwd file_path j (lstrip slash S)
              package_configured (lstrip_quote_free _ _ HSq))
    as [Hfree Hdot].
  split.
  - exists P, q1, (py "@ankaa/" ++ j ++ S ++ [q2]),
      (@ReplaceImportsDeep.get_relative_path (posix cwd) file_path j
         (lstrip slash S)), q2.
    do 5 (split; [done|]).
    split; [apply posix_relative_path_spaceless;
            [done|by apply lstrip_spaceless]|].
    split; [done|]. by rewrite Hnew.
  - apply match_at_sound in Hm as (w & rest & Hw & Hmatch & ->).
    exists (m_caps m). by rewrite Htext, Hw, take_app_length.
Qed.

(** In a content whose references have such sub-paths, the turn of a
    package replaces every match where it stands. *)
Lemma deep_step_in_place (c : str) :
  spaceless_references c ->
  exists gaps last,
    length gaps = length (finditer (@ReplaceImportsDeep.pattern j) c)
    /\ c = weave gaps
             (m_text <$> finditer (@ReplaceImportsDeep.pattern j) c) last
    /\ gapped (@ReplaceImportsDeep.pattern j) gaps
         (m_text <$> finditer (@ReplaceImportsDeep.pattern j) c) last
    /\ @deep_step (posix cwd) file_path j c
       = weave gaps
           (@ReplaceImportsDeep.new_text (posix cwd) file_path j
            <$> finditer (@ReplaceImportsDeep.pattern j) c) last.
Proof.
  intros Hc.
  destruct (finditer_from_gapped (@ReplaceImportsDeep.pattern j) c
              (@deep_match_positive unix j) 0 0)
    as (gaps & last & Hlen & Hs & Hg).
  rewrite drop_0 in Hs. fold (finditer (@ReplaceImportsDeep.pattern j) c) in *.
  exists gaps, last. do 3 (split; [done|]).
  unfold deep_step. rewrite Hs at 1.
  apply (foldl_in_place j package_configured
           (@ReplaceImportsDeep.new_text (posix cwd) file_path j)
           (finditer (@ReplaceImportsDeep.pattern j) c) gaps last []);
    [done| |done|intros i Hi; simpl in Hi; lia].
  apply Forall_of_elem. intros m Hm. by apply deep_convertible with c.
Qed.

(** Where the pattern of a configured package matches after the turn,
    the package is another one than that of the turn, and its pattern
    matched before the turn already, with the same sub-path. *)
Lemma deep_step_sites k (c : str) i n g :
  spaceless_references c -> k ∈ @PACKAGES ->
  match_at (@ReplaceImportsDeep.pattern k)
    (drop i (@deep_step (posix cwd) file_path j c)) = Some (n, g) ->
  k <> j /\ spaceless (expand g 2)
  /\ exists i', match_at (@ReplaceImportsDeep.pattern k) (drop i' c) <> None.
Proof.
  intros Hc Hk Hm.
  destruct (deep_step_in_place c Hc) as (gaps & last & Hlen & Hs & Hg & Hstep).
  rewrite Hstep in Hm.
  destruct (weave_sites j
              (@ReplaceImportsDeep.new_text (posix cwd) file_path j) k
              (finditer (@ReplaceImportsDeep.pattern j) c) gaps last i n g
              Hk Hlen) as ((i' & g' & Hm' & Hg') & Hng); [|done|].
  { apply Forall_of_elem. intros m Hin. by apply deep_convertible with c. }
  rewrite <- Hs in Hm'.
  split; [intros ->; by apply Hng|].
  split; [rewrite <- Hg'; by apply (Hc k i' n g')|].
  exists i'. by rewrite Hm'.
Qed.

Lemma deep_step_spaceless (c : str) :
  spaceless_references c ->
  spaceless_references (@deep_step (posix cwd) file_path j c).
Proof.
  intros Hc k i n g Hk Hm.
  by destruct (deep_step_sites k c i n g Hc Hk Hm) as (_ & Hs & _).
Qed.

Lemma deep_step_clears (c : str) :
  spaceless_references c ->
  clear (@ReplaceImportsDeep.pattern) j
    (@deep_step (posix cwd) file_path j c).
Proof.
  intros Hc i.
  destruct (match_at _ _) as [[n g]|] eqn:Hm; [exfalso|done].
  by destruct (deep_step_sites j c i n g Hc package_configured Hm).
Qed.

Lemma deep_step_keeps_clear k (c : str) :
  spaceless_references c -> k ∈ @PACKAGES ->
  clear (@ReplaceImportsDeep.pattern) k c ->
  clear (@ReplaceImportsDeep.pattern) k
    (@deep_step (posix cwd) file_path j c).
Proof.
  intros Hc Hk Hclear i.
  destruct (match_at _ _) as [[n g]|] eqn:Hm; [exfalso|done].
  destruct (deep_step_sites k c i n g Hc Hk Hm) as (_ & _ & i' & Hi').
  by rewrite Hclear in Hi'.
Qed.
End DeepSecondRun.

Lemma deep_turns_clear cwd file_path (packages : list str) :
  forall (c : str) k,
    (forall p, p ∈ packages -> p ∈ @PACKAGES) ->
    spaceless_references c ->
    k ∈ @PACKAGES ->
    clear (@ReplaceImportsDeep.pattern) k c \/ k ∈ packages ->
    clear (@ReplaceImportsDeep.pattern) k
      (turns (@ReplaceImportsDeep.pattern) (@deep_step (posix cwd) file_path)
         packages c).1.
Proof.
  induction packages as [|p rest IH]; intros c k Hall Hsp Hk Hc.
  - destruct Hc as [Hc|Hc]; [done|by apply elem_of_nil in Hc].
  - cbn [turns fst].
    assert (Hp : p ∈ @PACKAGES) by (apply Hall; by left).
    apply IH; [intros q Hq; apply Hall; by right
              |by apply deep_step_spaceless|done|].
    destruct Hc as [Hc|Hc].
    + left. by apply deep_step_keeps_clear.
    + apply elem_of_cons in Hc as [->|Hc]; [|by right].
      left. by apply deep_step_clears.
Qed.

(** On a content whose references have sub-paths without whitespace and
    parenthesis, a second run of replace-imports-deep.py finds no match
    and changes nothing. *)
Lemma deep_second_run cwd file_path (content : str) :
  spaceless_references content ->
  @ReplaceImportsDeep.rewrite_content (posix cwd) file_path
    (@ReplaceImportsDeep.rewrite_content (posix cwd) file_path content).1
  = ((@ReplaceImportsDeep.rewrite_content (posix cwd) file_path content).1,
     0).
Proof.
  intros Hsp.
  apply (@deep_unreferenced (posix cwd)). apply Forall_of_elem.
  intros k Hk. apply finditer_none.
  rewrite (@deep_rewrite_content_turns (posix cwd)). cbn [fst].
  apply deep_turns_clear; [done|done|done|by right].
Qed.

(** The same as a check that runs: the pattern of every configured
    package is tried at every position. *)
Definition check_spaceless (s : str) : bool :=
  forallb
    (fun k =>
       forallb
         (fun i =>
            match match_at (@ReplaceImportsDeep.pattern k) (drop i s) with
            | Some (_, g) => forallb not_prefix_end (expand g 2)
            | None => true
            end)
         (seq 0 (S (length s))))
    (@PACKAGES).

Lemma check_spaceless_correct (s : str) :
  check_spaceless s = true -> spaceless_references s.
Proof.
  unfold check_spaceless. rewrite forallb_forall.
  intros Hall k i n g Hk Hm.
  specialize (Hall k (proj1 (list_elem_of_In _ _) Hk)).
  rewrite forallb_forall in Hall.
  assert (Hi : exists i', i' <= length s /\ drop i s = drop i' s).
  { destruct (decide (i <= length s)) as [|Hgt]; [by exists i|].
    exists (length s). split; [done|].
    by rewrite !drop_ge by lia. }
  destruct Hi as (i' & Hi' & Hd). rewrite Hd in Hm.
  specialize (Hall i'). rewrite Hm in Hall.
  apply all_ok_spaceless. unfold all_ok. apply Forall_forall.
  intros c Hc.
  assert (Hin : In i' (seq 0 (S (length s)))) by (apply in_seq; lia).
  specialize (Hall Hin). rewrite forallb_forall in Hall.
  apply Hall. exact Hc.
Qed.

(** ** The substitutions of a turn *)



(** ** The second run *)

(** C4, amended: under the POSIX flavour, whatever the content, a second
    run of replace-imports.py finds no match and changes nothing, and so
    does a second run of replace-imports-deep.py on every content in
    which the sub-path of every reference to a configured package holds
    neither whitespace nor an opening parenthesis.  At the level of one
    reference, whatever the content: no match of either script begins
    where a converted reference begins or lies within it, and no match
    for a configured package overlaps it at all when its sub-path and
    that of the match hold neither whitespace nor parenthesis, as is
    always so for replace-imports.py, which knows no sub-path.  And a
    content made of one reference with a sub-path, in text without
    quotes, is left alone by a second run of replace-imports-deep.py
    whatever the sub-path is. *)
Theorem second_run_finds_no_match cwd file_path content :
  @ReplaceImports.rewrite_content (posix cwd) file_path
    (@ReplaceImports.rewrite_content (posix cwd) file_path content).1
  = ((@ReplaceImports.rewrite_content (posix cwd) file_path content).1, 0)
  /\ (spaceless_references content ->
      @ReplaceImportsDeep.rewrite_content (posix cwd) file_path
        (@ReplaceImportsDeep.rewrite_content (posix cwd) file_path content).1
      = ((@ReplaceImportsDeep.rewrite_content (posix cwd) file_path
            content).1, 0))
  /\ (forall package m,
        package ∈ @PACKAGES ->
        m ∈ finditer (@ReplaceImportsDeep.pattern package) content ->
        not_matched_again (@ReplaceImportsDeep.pattern)
          (@ReplaceImportsDeep.new_text (posix cwd) file_path package m)
        /\ (spaceless (expand (m_caps m) 2) ->
            never_overlapped
              (@ReplaceImportsDeep.new_text (posix cwd) file_path package
                 m)))
  /\ (forall package m,
        package ∈ @PACKAGES ->
        m ∈ finditer (@ReplaceImports.pattern package) content ->
        never_overlapped
          (expand (m_caps m) 1
           ++ @ReplaceImports.get_relative_path (posix cwd) file_path package
           ++ expand (m_caps m) 2))
  /\ (forall package before after P sub q q',
        package ∈ @PACKAGES ->
        quote_free before -> quote_free after ->
        import_prefix P -> is_quote q = true -> is_quote q' = true ->
        sub <> [] -> quote_free sub ->
        @ReplaceImportsDeep.rewrite_content (posix cwd) file_path
          (@ReplaceImportsDeep.rewrite_content (posix cwd) file_path
             (referring package before after P sub q q')).1
        = ((@ReplaceImportsDeep.rewrite_content (posix cwd) file_path
              (referring package before after P sub q q')).1, 0)).
Proof.
  split; [apply simple_second_run|].
  split; [apply deep_second_run|].
  split; [|split].
  - intros package m Hpk Hin. split.
    + apply converted_not_matched_again.
      * intros j. apply (@deep_reference_pattern unix).
      * by eapply deep_new_text_converted.
    + intros Hsub. by eapply deep_new_text_never_overlapped.
  - intros package m Hpk Hin.
    by eapply simple_replacement_never_overlapped.
  - intros. by apply second_run_finds_nothing.
Qed.

Lemma second_run_finds_no_match_witness :
  @ReplaceImports.rewrite_content unix button
    (@ReplaceImports.rewrite_content unix button two_imports).1
  = ((@ReplaceImports.rewrite_content unix button two_imports).1, 0)
  /\ @ReplaceImportsDeep.rewrite_content unix button
       (@ReplaceImportsDeep.rewrite_content unix button two_imports).1
     = ((@ReplaceImportsDeep.rewrite_content unix button two_imports).1, 0)
  /\ never_overlapped
       (@ReplaceImportsDeep.new_text unix button (py "types") button_match).
Proof.
  destruct (second_run_finds_no_match (py "/") button two_imports)
    as (Hsimple & Hdeep & _).
  destruct (second_run_finds_no_match (py "/") button button_content)
    as (_ & _ & Hlevel & _).
  split; [exact Hsimple|]. split.
  - apply Hdeep. apply check_spaceless_correct. vm_compute. reflexivity.
  - apply (Hlevel (py "types") button_match).
    + apply str_in_elem_of. vm_compute. reflexivity.
    + vm_compute. left.
    + unfold spaceless. vm_compute expand. check_chars.
Defined.

(** ** A sub-path that begins with two full stops *)

Lemma own_directory_relpath cwd package file_name (x : str) :
  package ∈ @PACKAGES -> component file_name -> component x ->
  @os_path_relpath (posix cwd)
    (@ReplaceImportsDeep.target_dir (posix cwd) package x)
    (parent (@joinpath (posix cwd) (@SRC_DIR (posix cwd))
               (join [slash] [package; file_name])))
  = Returns x.
Proof.
  intros Hpk Hfile Hx.
  pose proof (packages_plain _ Hpk) as [Hpkc _].
  assert (Hfp : @joinpath (posix cwd) (@SRC_DIR (posix cwd))
                  (join [slash] [package; file_name])
                = mkPath [] [slash] (source_components ++ [package; file_name])).
  { rewrite posix_source_root.
    apply (joinpath_rooted_components _ [package; file_name]);
      [apply source_components_ok| |done].
    apply Forall_cons_2; [done|]. by apply Forall_cons_2. }
  assert (Hdir : parent (mkPath [] [slash]
                           (source_components ++ [package; file_name]))
                 = mkPath [] [slash] (source_components ++ [package])).
  { unfold parent. cbn [tail drv root].
    destruct (source_components ++ [package; file_name]) as [|y l] eqn:E.
    - apply app_eq_nil in E as [_ E]. done.
    - rewrite <- E.
      change [package; file_name] with ([package] ++ [file_name]).
      rewrite app_assoc. by rewrite removelast_last. }
  assert (Htd : @ReplaceImportsDeep.target_dir (posix cwd) package x
                = mkPath [] [slash] (source_components ++ [package; x])).
  { assert (Hp : @joinpath (posix cwd) (@SRC_DIR (posix cwd)) package
                 = mkPath [] [slash] (source_components ++ [package])).
    { rewrite posix_source_root.
      apply (joinpath_rooted_components _ [package]);
        [apply source_components_ok|by apply Forall_cons_2|done]. }
    unfold ReplaceImportsDeep.target_dir. rewrite Hp.
    assert (Hne : nonempty x = true).
    { unfold nonempty, str_eqb. rewrite bool_decide_eq_false_2; [done|].
      by destruct Hx. }
    rewrite Hne.
    change (@joinpath (posix cwd)) with posixpath.joinpath.
    rewrite (joinpath_rooted_components _ [x]).
    - by rewrite <- app_assoc.
    - apply Forall_app. split; [apply source_components_ok|].
      by apply Forall_cons_2.
    - by apply Forall_cons_2.
    - done. }
  rewrite Hfp, Hdir, Htd.
  change (@os_path_relpath (posix cwd) ?p ?s)
    with (posixpath.relpath cwd (posixpath.to_str p) (posixpath.to_str s)).
  rewrite relpath_rooted.
  - cbv zeta.
    assert (Hcp : posixpath.commonprefix (source_components ++ [package])
                    (source_components ++ [package; x])
                  = source_components ++ [package]).
    { rewrite commonprefix_app. cbn [posixpath.commonprefix].
      unfold str_eqb. by rewrite bool_decide_eq_true_2. }
    rewrite Hcp, Nat.sub_diag.
    change [package; x] with ([package] ++ [x]).
    rewrite app_assoc, drop_app_length. reflexivity.
  - apply Forall_app. split; [apply source_components_ok|].
    apply Forall_cons_2; [done|]. by apply Forall_cons_2.
  - apply Forall_app. split; [apply source_components_ok|].
    by apply Forall_cons_2.
Qed.

(** C2: the test [rel_path.startswith("..")] is passed by any name that
    begins with two full stops, not only by the parent-directory marker:
    for a file that stands in the directory of a package and a sub-path
    that is one such name, the result is that name as it is, a bare module
    name and no explicit relative import. *)
Theorem dotted_name_left_bare cwd package file_name (x : str) :
  package ∈ @PACKAGES -> component file_name -> component x ->
  backslash ∉ x -> startswith (py "..") x = true ->
  @ReplaceImportsDeep.get_relative_path (posix cwd)
    (@joinpath (posix cwd) (@SRC_DIR (posix cwd))
       (join [slash] [package; file_name]))
    package x
  = x
  /\ ~ explicit_relative x.
Proof.
  intros Hpk Hfile Hx Hb Hdd. split.
  - unfold ReplaceImportsDeep.get_relative_path. cbv zeta.
    rewrite own_directory_relpath by done.
    rewrite replace_char_absent by done. by rewrite Hdd.
  - destruct Hx as (_ & _ & Hne & Hs).
    intros [[Heq|[Hp|Hp]] _]; [done| |].
    + apply startswith_spec in Hp as [s' ->]. apply Hs.
      apply elem_of_app. left. elem_found.
    + apply startswith_spec in Hp as [s' ->]. apply Hs.
      apply elem_of_app. left. elem_found.
Qed.

(** The file and the import of the example. *)
Definition sibling : Path := src_file "types/x.ts".
Definition dotted_import : str := py "import x from '@ankaa/types/..foo';".

Lemma dotted_name_left_bare_witness :
  (@ReplaceImportsDeep.get_relative_path unix sibling (py "types")
     (py "..foo")
   = py "..foo"
   /\ ~ explicit_relative (py "..foo"))
  /\ @ReplaceImportsDeep.rewrite_content unix sibling dotted_import
     = (py "import x from '..foo';", 1).
Proof.
  split.
  - apply (dotted_name_left_bare (py "/") (py "types") (py "x.ts")
             (py "..foo")).
    + apply str_in_elem_of. vm_compute. reflexivity.
    + apply is_plain_component. vm_compute. reflexivity.
    + repeat split; try (vm_compute; discriminate).
      intros Hin. vm_compute in Hin. elem_absurd Hin.
    + intros Hin. vm_compute in Hin. elem_absurd Hin.
    + reflexivity.
  - vm_compute. reflexivity.
Defined.

(** ** A dynamic import that is matched and not converted *)

(** A static reference whose sub-path ends in [import(], followed by what
    would be the rest of a dynamic import, and further on a dynamic
    import of the same module. *)
Definition shadowed_import : str :=
  py "from '@ankaa/types/import('@ankaa/types/y'); const m = import('@ankaa/types/y');".

Definition shadowed_result : str :=
  py "from '../../types/import('../../types/y'); const m = import('@ankaa/types/y');".

(** C6, on a content where the text of a dynamic import stands further to
    the left as well: the dynamic import at offset 55 is matched and
    counted, but [content.replace(old_text, new_text, 1)] rewrites the
    first occurrence of its text, which by then stands at the end of the
    reference converted before it, and the dynamic import itself keeps
    its scoped name in the file that is written. *)
Theorem dynamic_import_left_unconverted cwd :
  let flavour := posix cwd in
  let file := joinpath SRC_DIR (py "components/widgets/Button.ts") in
  (fun m => (m_start m, m_text m))
  <$> finditer (ReplaceImportsDeep.pattern (py "types")) shadowed_import
  = [(0, py "from '@ankaa/types/import('");
     (55, py "import('@ankaa/types/y'")]
  /\ ReplaceImportsDeep.get_relative_path file (py "types") (py "y")
     = py "../../types/y"
  /\ ReplaceImportsDeep.rewrite_content file shadowed_import
     = (shadowed_result, 2)
  /\ drop 53 shadowed_result = py "import('@ankaa/types/y');"
  /\ (let result :=
        run (ReplaceImportsDeep.replace_deep_imports_in_file file)
          (world_of [(file, File (Some shadowed_import) true)]) in
      result.1 = (true, 2)
      /\ fs result.2 !! file = Some (File (Some shadowed_result) true)
      /\ trace result.2 = [Opened file ModeR; Opened file ModeW]).
Proof.
  vm_compute. repeat split; reflexivity.
Qed.
